(** * WeatherWise weather aggregation layer: a shallow embedding in Rocq

    Sources embedded here:
    - [src/unnamed/part_002]              (weather/types.ts)      the normalized records
    - [src/src/config.ts]                 configuration
    - [src/src/weather/providers/weatherApi.ts]  WeatherAPI adapter
    - [src/unnamed/part_003]              (providers/openWeather.ts) OpenWeather adapter
    - [src/src/weather/aggregator.ts]     caches and provider fallback
    - [src/unnamed/part_005]              (alerts/alertService.ts) alert registry and sweep

    Conventions.
    - A JavaScript number is a rational [Q].  Where a property depends on
      the rounding of a product, the product is rounded to the nearest
      double ([js_mul], used by [adjustThreshold]); elsewhere (unit
      conversions, averages) the arithmetic is taken exactly, and no property
      below depends on the last bits of those values.  [undefined] is [None].
    - An instant ([new Date(...)], [toISOString()] of a full timestamp) is the
      number of milliseconds since the epoch, a [Z].
    - Async code runs in a state-and-exception monad [M]: the state holds the
      clock, the three LRU caches, the alert registry and the alert objects it
      references, the outbound HTTP requests issued so far and the console
      lines written so far.  The network is a function [net] of the clock and
      of the request giving a latency and a response. *)

From Stdlib Require Import ZArith QArith Qround Qminmax List String Bool Lia.
From Stdlib Require Import Structures.OrdersEx Sorting.Sorted Lqa.
Import ListNotations.
Open Scope string_scope.

(** ** JavaScript helpers *)

(** Truthiness of a string: the empty string is falsy. *)
Definition truthy_str (s : string) : bool := negb (String.eqb s "").

(** Truthiness of an optional string ([undefined] and [""] are falsy). *)
Definition truthy_ostr (s : option string) : bool :=
  match s with Some s => truthy_str s | None => false end.

(** Truthiness of an optional number ([undefined] and [0] are falsy). *)
Definition truthy_oQ (x : option Q) : bool :=
  match x with Some x => negb (Qeq_bool x 0) | None => false end.

(** [a || b] on optional strings. *)
Definition or_str (a b : option string) : option string :=
  if truthy_ostr a then a else b.

(** [a || b] on optional integers ([0] is falsy). *)
Definition or_Z (a b : option Z) : option Z :=
  match a with Some z => if Z.eqb z 0 then b else a | None => b end.

(** [a ?? b]. *)
Definition coalesce {A} (a : option A) (b : A) : A :=
  match a with Some x => x | None => b end.

(** Leibniz equality test on rationals (used for cache keys). *)
Definition Q_eqb (x y : Q) : bool := Z.eqb (Qnum x) (Qnum y) && Pos.eqb (Qden x) (Qden y).

Definition option_eqb {A} (eqb : A -> A -> bool) (x y : option A) : bool :=
  match x, y with
  | Some a, Some b => eqb a b
  | None, None => true
  | _, _ => false
  end.

(** [str.slice(0, n)]. *)
Definition slice0 (n : nat) (s : string) : string := substring 0 n s.

(** ** Configuration ([src/src/config.ts]) *)

Inductive Units := metric | imperial.

Definition Units_eqb (a b : Units) : bool :=
  match a, b with metric, metric | imperial, imperial => true | _, _ => false end.

Record Config := {
  openWeatherApiKey : string;
  weatherApiKey : string;
  defaultUnits : Units;
  cacheTtlSeconds : Z;
  forecastCacheTtlSeconds : Z;
  alertPollIntervalSeconds : Z }.

(** ** Normalized records ([src/unnamed/part_002], weather/types.ts) *)

Record LocationQuery := {
  city : option string;
  country : option string;
  lat : option Q;
  lon : option Q }.

Record Location := {
  loc_name : string;
  loc_lat : Q;
  loc_lon : Q;
  loc_country : option string }.

(** [condition] of a record.  The TypeScript type makes [text] a string,
    but the WeatherAPI adapter fills it from an optional chain, so it is
    optional here. *)
Record WCondition := {
  cond_text : option string;
  cond_iconUrl : option string;
  cond_code : option Z }.

Record CurrentWeather := {
  provider : string;
  location : Location;
  observedAt : Z;
  temperatureC : Q;
  temperatureF : Q;
  feelsLikeC : option Q;
  feelsLikeF : option Q;
  humidity : option Q;
  windKph : option Q;
  windMph : option Q;
  windDir : option string;
  pressureMb : option Q;
  uv : option Q;
  condition : WCondition }.

Record ForecastDay := {
  fd_date : string;
  avgTempC : option Q;
  avgTempF : option Q;
  maxTempC : option Q;
  maxTempF : option Q;
  minTempC : option Q;
  minTempF : option Q;
  chanceOfRainPct : option Z;
  chanceOfSnowPct : option Z;
  fd_condition : option WCondition }.

Record Forecast := {
  f_provider : string;
  f_location : Location;
  days : list ForecastDay }.

(** [HistoricalWeather extends CurrentWeather { date }]. *)
Record HistoricalWeather := {
  h_date : string;
  h_current : CurrentWeather }.

(** ** Upstream JSON responses

    The fields the adapters read.  A field read with a plain property access
    is a required field; a field read through [?.] or tested is optional.  A
    body without the required fields is [JOther]: reading it throws a
    [TypeError]. *)

Record WALocation := { wl_name : string; wl_lat : Q; wl_lon : Q; wl_country : option string }.

Record WACondition := { wc_text : option string; wc_icon : option string; wc_code : option Z }.

Record WACurrent := {
  last_updated : option string;
  temp_c : Q; temp_f : Q;
  feelslike_c : option Q; feelslike_f : option Q;
  wa_humidity : option Q;
  wind_kph : option Q; wind_mph : option Q; wind_dir : option string;
  pressure_mb : option Q; wa_uv : option Q;
  wa_condition : option WACondition }.

Record WADay := {
  avgtemp_c : option Q; avgtemp_f : option Q;
  maxtemp_c : option Q; maxtemp_f : option Q;
  mintemp_c : option Q; mintemp_f : option Q;
  daily_chance_of_rain : option Z; daily_chance_of_snow : option Z;
  avghumidity : option Q; maxwind_kph : option Q; maxwind_mph : option Q;
  day_condition : option WACondition }.

Record WAForecastDay := { wfd_date : string; wfd_day : option WADay }.

Record WAJson := {
  wa_location : WALocation;
  wa_current : option WACurrent;
  wa_forecastday : option (list WAForecastDay) }.

Record OWWeather := { ow_description : option string; ow_icon : option string; ow_id : option Z }.

Record OWCurrentJson := {
  oc_name : option string;
  oc_lat : Q; oc_lon : Q;                      (* d.coord *)
  oc_temp : Q; oc_feels_like : Q; oc_humidity : Q; oc_pressure : Q;   (* d.main *)
  oc_speed : Q; oc_deg : option Q;             (* d.wind *)
  oc_country : option string;                  (* d.sys?.country *)
  oc_dt : Z;
  oc_weather : list OWWeather }.

(** One entry of [d.list]: 3-hour forecast slot. *)
Record OWItem := {
  it_dt : Z;
  it_temp : Q;                 (* item.main.temp *)
  it_rain3h : option Q;        (* item.rain?.["3h"] *)
  it_snow3h : option Q;        (* item.snow?.["3h"] *)
  it_weather : list OWWeather }.

Record OWForecastJson := {
  of_city_name : option string;
  of_lat : Q; of_lon : Q;      (* d.city.coord *)
  of_country : option string;
  of_list : list OWItem }.

Inductive Json :=
| JWA (d : WAJson)
| JOWCurrent (d : OWCurrentJson)
| JOWForecast (d : OWForecastJson)
| JOther.

(** ** Alerts ([src/unnamed/part_005]) *)

Inductive AlertConditionType := rain | temp_above | temp_below | wind_above.

Record WeatherAlertCondition := {
  ctype : AlertConditionType;
  threshold : option Q;
  daysAhead : option nat }.

Inductive AlertChannel := console | webhook.

Inductive Sensitivity := low | medium | high.

Record WeatherAlert := {
  a_id : string;
  a_name : option string;
  a_location : LocationQuery;
  a_condition : WeatherAlertCondition;
  channel : AlertChannel;
  webhookUrl : option string;
  sensitivity : option Sensitivity;
  createdAt : Z;
  lastTriggeredAt : option Z }.

(** [Omit<WeatherAlert, "id" | "createdAt">], the argument of [registerAlert]. *)
Record AlertInput := {
  i_lastTriggeredAt : option Z;
  i_name : option string;
  i_location : LocationQuery;
  i_condition : WeatherAlertCondition;
  i_channel : AlertChannel;
  i_webhookUrl : option string;
  i_sensitivity : option Sensitivity }.

(** The notification messages of [evaluateAlert]; the text is a function of
    these arguments. *)
Inductive AlertMessage :=
| MsgRain (d : nat) (l : Location)
| MsgTempAbove (th : Q) (name : string)
| MsgTempBelow (th : Q) (name : string)
| MsgWind (th : Q) (name : string).

Inductive Payload := PForecast (f : Forecast) | PCurrent (c : CurrentWeather).

(** ** Effects: outbound requests, errors, console lines *)

Inductive WAEndpoint := WACurrentEP | WAForecastEP (d : nat) | WAHistoryEP (dt : string).
Inductive OWEndpoint := OWWeatherEP | OWForecastEP.

Inductive Request :=
| WAGet (ep : WAEndpoint) (q : string)
| OWGet (ep : OWEndpoint) (params : string) (u : Units)
| WebhookPost (url : string) (id : string) (msg : AlertMessage) (alert : WeatherAlert)
    (payload : Payload).

Inductive Response := RTransportError | ROk (body : Json).

(** What a [throw] carries: an [Error] with a message, the error axios
    rejects with on a transport failure, or the [TypeError] of a property
    read on a malformed body. *)
Inductive JsError :=
| Error (msg : string)
| AxiosError (r : Request)
| TypeError.

Inductive LogLine :=
| Warn (what : string) (e : JsError)
| AlertLine (id : string) (msg : AlertMessage) (payload : Payload)
| Info (what : string).

(** ** Cache keys ([keyOf], aggregator.ts lines 22-24)

    [`${prefix}:${JSON.stringify(q)}:${JSON.stringify(extra ?? {})}`] is a
    function of the prefix, the query and the extra parameters; the key is
    represented by these three components. *)

Inductive Extra :=
| XUnits (u : Units)
| XUnitsDays (u : Units) (d : nat)
| XDate (dateISO : string).

Record Key := { k_prefix : string; k_query : LocationQuery; k_extra : Extra }.

Definition keyOf (prefix : string) (q : LocationQuery) (extra : Extra) : Key :=
  {| k_prefix := prefix; k_query := q; k_extra := extra |}.

Definition LocationQuery_eqb (a b : LocationQuery) : bool :=
  option_eqb String.eqb (city a) (city b) && option_eqb String.eqb (country a) (country b)
  && option_eqb Q_eqb (lat a) (lat b) && option_eqb Q_eqb (lon a) (lon b).

Definition Extra_eqb (a b : Extra) : bool :=
  match a, b with
  | XUnits u, XUnits v => Units_eqb u v
  | XUnitsDays u d, XUnitsDays v e => Units_eqb u v && Nat.eqb d e
  | XDate s, XDate t => String.eqb s t
  | _, _ => false
  end.

Definition Key_eqb (a b : Key) : bool :=
  String.eqb (k_prefix a) (k_prefix b) && LocationQuery_eqb (k_query a) (k_query b)
  && Extra_eqb (k_extra a) (k_extra b).

(** ** LRU cache (the [lru-cache] package, as configured in aggregator.ts)

    Entries are kept most recently used first.  [ttl] is in milliseconds;
    [ttl = 0] disables expiry; an entry is stale once [now - start > ttl]. *)

Record Entry (V : Type) := { e_key : Key; e_val : V; e_start : Z }.
Arguments e_key {V}. Arguments e_val {V}. Arguments e_start {V}.

Definition cache_max : nat := 500.

Fixpoint lookup_entry {V} (k : Key) (c : list (Entry V)) : option (Entry V) :=
  match c with
  | [] => None
  | e :: c' => if Key_eqb (e_key e) k then Some e else lookup_entry k c'
  end.

Definition remove_key {V} (k : Key) (c : list (Entry V)) : list (Entry V) :=
  filter (fun e => negb (Key_eqb (e_key e) k)) c.

Definition is_stale (ttl now start : Z) : bool :=
  negb (Z.eqb ttl 0) && Z.ltb ttl (now - start).

(** [cache.get(key)]: a stale entry is deleted and reported absent; a live
    one becomes the most recently used. *)
Definition cache_get {V} (ttl now : Z) (k : Key) (c : list (Entry V)) : option V * list (Entry V) :=
  match lookup_entry k c with
  | None => (None, c)
  | Some e =>
      if is_stale ttl now (e_start e) then (None, remove_key k c)
      else (Some (e_val e), e :: remove_key k c)
  end.

(** [cache.set(key, value)]: replaces the entry, resets its age, and evicts
    the least recently used entry beyond [max]. *)
Definition cache_set {V} (max : nat) (now : Z) (k : Key) (v : V) (c : list (Entry V))
  : list (Entry V) :=
  firstn max ({| e_key := k; e_val := v; e_start := now |} :: remove_key k c).

(** ** Program state *)

Record St := {
  clock : Z;
  currentCache : list (Entry CurrentWeather);
  forecastCache : list (Entry Forecast);
  historicalCache : list (Entry HistoricalWeather);
  alerts : list (string * nat);        (* the Map, in insertion order: id -> object *)
  heap : list WeatherAlert;            (* the alert objects, by reference *)
  seed : nat;                          (* state of Math.random *)
  requests : list Request;             (* outbound HTTP requests, in order *)
  logs : list LogLine;                 (* console output, in order *)
  schedulerStarted : bool }.

Definition set_clock (t : Z) (s : St) : St :=
  {| clock := t; currentCache := currentCache s; forecastCache := forecastCache s;
     historicalCache := historicalCache s; alerts := alerts s; heap := heap s; seed := seed s;
     requests := requests s; logs := logs s; schedulerStarted := schedulerStarted s |}.

Definition set_currentCache (c : list (Entry CurrentWeather)) (s : St) : St :=
  {| clock := clock s; currentCache := c; forecastCache := forecastCache s;
     historicalCache := historicalCache s; alerts := alerts s; heap := heap s; seed := seed s;
     requests := requests s; logs := logs s; schedulerStarted := schedulerStarted s |}.

Definition set_forecastCache (c : list (Entry Forecast)) (s : St) : St :=
  {| clock := clock s; currentCache := currentCache s; forecastCache := c;
     historicalCache := historicalCache s; alerts := alerts s; heap := heap s; seed := seed s;
     requests := requests s; logs := logs s; schedulerStarted := schedulerStarted s |}.

Definition set_historicalCache (c : list (Entry HistoricalWeather)) (s : St) : St :=
  {| clock := clock s; currentCache := currentCache s; forecastCache := forecastCache s;
     historicalCache := c; alerts := alerts s; heap := heap s; seed := seed s;
     requests := requests s; logs := logs s; schedulerStarted := schedulerStarted s |}.

Definition set_alerts (m : list (string * nat)) (s : St) : St :=
  {| clock := clock s; currentCache := currentCache s; forecastCache := forecastCache s;
     historicalCache := historicalCache s; alerts := m; heap := heap s; seed := seed s;
     requests := requests s; logs := logs s; schedulerStarted := schedulerStarted s |}.

Definition set_heap (h : list WeatherAlert) (s : St) : St :=
  {| clock := clock s; currentCache := currentCache s; forecastCache := forecastCache s;
     historicalCache := historicalCache s; alerts := alerts s; heap := h; seed := seed s;
     requests := requests s; logs := logs s; schedulerStarted := schedulerStarted s |}.

Definition set_seed (n : nat) (s : St) : St :=
  {| clock := clock s; currentCache := currentCache s; forecastCache := forecastCache s;
     historicalCache := historicalCache s; alerts := alerts s; heap := heap s; seed := n;
     requests := requests s; logs := logs s; schedulerStarted := schedulerStarted s |}.

Definition set_requests (r : list Request) (s : St) : St :=
  {| clock := clock s; currentCache := currentCache s; forecastCache := forecastCache s;
     historicalCache := historicalCache s; alerts := alerts s; heap := heap s; seed := seed s;
     requests := r; logs := logs s; schedulerStarted := schedulerStarted s |}.

Definition set_logs (l : list LogLine) (s : St) : St :=
  {| clock := clock s; currentCache := currentCache s; forecastCache := forecastCache s;
     historicalCache := historicalCache s; alerts := alerts s; heap := heap s; seed := seed s;
     requests := requests s; logs := l; schedulerStarted := schedulerStarted s |}.

(** ** The state-and-exception monad of async code *)

Definition M (A : Type) : Type := St -> (JsError + A) * St.

Definition ret {A} (a : A) : M A := fun s => (inr a, s).

Definition bind {A B} (m : M A) (f : A -> M B) : M B :=
  fun s => match m s with
           | (inl e, s') => (inl e, s')
           | (inr a, s') => f a s'
           end.

Definition throw {A} (e : JsError) : M A := fun s => (inl e, s).

(** [try { m } catch (e) { h(e) }]: effects of [m] before the throw stay. *)
Definition try_catch {A} (m : M A) (h : JsError -> M A) : M A :=
  fun s => match m s with
           | (inl e, s') => h e s'
           | r => r
           end.

Notation "x <- m ;; k" := (bind m (fun x => k))
  (at level 61, m at next level, right associativity).
Notation "m ;; k" := (bind m (fun _ => k)) (at level 61, right associativity).

Definition get_state : M St := fun s => (inr s, s).
Definition modify (f : St -> St) : M unit := fun s => (inr tt, f s).

Definition log (l : LogLine) : M unit := modify (fun s => set_logs (logs s ++ [l]) s).

Definition now : M Z := fun s => (inr (clock s), s).

(** ** UTC calendar dates

    [new Date(ms).toISOString().slice(0, 10)]: the UTC calendar date of an
    instant.  [civil_from_days] is the proleptic Gregorian calendar of
    ECMAScript dates; [toISOString] writes the year with four digits in
    [0, 9999] and as a sign and six digits otherwise. *)

Fixpoint digits_rev (width : nat) (n : Z) : string :=
  match width with
  | O => ""
  | S w => String (Ascii.ascii_of_nat (48 + Z.to_nat (n mod 10))) (digits_rev w (n / 10)%Z)
  end.

Fixpoint rev_string (s : string) : string :=
  match s with
  | EmptyString => EmptyString
  | String c s' => rev_string s' ++ String c EmptyString
  end.

(** [n] written with exactly [width] decimal digits, zero-padded. *)
Definition pad_dec (width : nat) (n : Z) : string := rev_string (digits_rev width n).

(** Days since 1970-01-01 to (year, month, day). *)
Definition civil_from_days (z0 : Z) : Z * Z * Z :=
  (let z := z0 + 719468 in
  let era := z / 146097 in
  let doe := z - era * 146097 in
  let yoe := (doe - doe / 1460 + doe / 36524 - doe / 146096) / 365 in
  let y := yoe + era * 400 in
  let doy := doe - (365 * yoe + yoe / 4 - yoe / 100) in
  let mp := (5 * doy + 2) / 153 in
  let d := doy - (153 * mp + 2) / 5 + 1 in
  let m := if mp <? 10 then mp + 3 else mp - 9 in
  (if m <=? 2 then y + 1 else y, m, d))%Z.

Definition iso_year (y : Z) : string :=
  if ((0 <=? y) && (y <=? 9999))%Z then pad_dec 4 y
  else (if (y <? 0)%Z then "-" else "+") ++ pad_dec 6 (Z.abs y).

(** The date part [Y-MM-DD] of [toISOString()]; the time part starts after
    it, so [slice(0, 10)] of the whole string is [slice(0, 10)] of this. *)
Definition iso_date_part (ms : Z) : string :=
  let '(y, m, d) := civil_from_days (ms / 86400000)%Z in
  iso_year y ++ "-" ++ pad_dec 2 m ++ "-" ++ pad_dec 2 d.

Definition iso_day (ms : Z) : string := slice0 10 (iso_date_part ms).

(** ** Concrete deployments and upstream behaviours, for the examples *)

Module Fixtures.

Definition mk_cfg (ow wa : string) : Config :=
  {| openWeatherApiKey := ow; weatherApiKey := wa; defaultUnits := metric;
     cacheTtlSeconds := 600; forecastCacheTtlSeconds := 10800;
     alertPollIntervalSeconds := 600 |}.

Definition cfg_both : Config := mk_cfg "ow-key" "wa-key".
Definition cfg_none : Config := mk_cfg "" "".
Definition cfg_wa_only : Config := mk_cfg "" "wa-key".
Definition cfg_ow_only : Config := mk_cfg "ow-key" "".

Definition q_paris : LocationQuery :=
  {| city := Some "Paris"; country := Some "FR"; lat := None; lon := None |}.

(** A query with a latitude but no longitude and no city. *)
Definition q_half : LocationQuery :=
  {| city := None; country := None; lat := Some 48; lon := None |}.

Definition ow_paris_now : OWCurrentJson :=
  {| oc_name := Some "Paris"; oc_lat := 48857 # 1000; oc_lon := 2352 # 1000;
     oc_temp := 28; oc_feels_like := 29; oc_humidity := 40; oc_pressure := 1012;
     oc_speed := 5; oc_deg := Some 270; oc_country := Some "FR"; oc_dt := 1700000000;
     oc_weather := [{| ow_description := Some "clear sky"; ow_icon := Some "01d";
                       ow_id := Some 800%Z |}] |}.

(** 3-hour slots on two UTC days: 2023-11-14 has 4 slots, 2 with rain;
    2023-11-15 has 2 slots, none with rain. *)
Definition slot (dt : Z) (t : Q) (r : option Q) : OWItem :=
  {| it_dt := dt; it_temp := t; it_rain3h := r; it_snow3h := None; it_weather := [] |}.

Definition two_days : list OWItem :=
  [slot 1699963200 10 (Some (1 # 2)); slot 1699974000 12 None;
   slot 1699984800 14 (Some 2); slot 1699995600 12 (Some 0);
   slot 1700049600 9 None; slot 1700060400 11 None].

(** WeatherAPI is unreachable; OpenWeather answers. *)
Definition net_wa_down (_ : Z) (r : Request) : Z * Response :=
  match r with
  | WAGet _ _ => (120%Z, RTransportError)
  | OWGet OWWeatherEP _ _ => (80%Z, ROk (JOWCurrent ow_paris_now))
  | OWGet OWForecastEP _ _ =>
      (80%Z, ROk (JOWForecast {| of_city_name := Some "Paris"; of_lat := 48857 # 1000;
                                 of_lon := 2352 # 1000; of_country := Some "FR";
                                 of_list := two_days |}))
  | WebhookPost _ _ _ _ _ => (10%Z, ROk JOther)
  end.

(** Every upstream request fails. *)
Definition net_down (_ : Z) (_ : Request) : Z * Response := (100%Z, RTransportError).

Definition show_num (_ : Q) : string := "0".
Definition encode (s : string) : string := s.
Definition parse (_ : string) : Z := 0.
Definition rid (n : nat) : string := String (Ascii.ascii_of_nat (97 + n)) "".

End Fixtures.

(** ** The network and the runtime *)

Section Program.

Variable cfg : Config.
(** The network: at a time, a request takes a latency and gets a response. *)
Variable net : Z -> Request -> Z * Response.
(** [String(x)] of a number. *)
Variable num_to_string : Q -> string.
Variable encodeURIComponent : string -> string.
(** [new Date(s)] of a date string. *)
Variable parse_date : string -> Z.
(** [Math.random().toString(36).slice(2)], by the state of the generator. *)
Variable random_id : nat -> string.

(** [axios.get(url)] / [axios.post(url, body)]: one outbound request, which
    rejects on a transport failure. *)
Definition http (r : Request) : M Json :=
  fun s =>
    let '(dt, resp) := net (clock s) r in
    let s' := set_requests (requests s ++ [r]) (set_clock (clock s + dt)%Z s) in
    match resp with
    | RTransportError => (inl (AxiosError r), s')
    | ROk j => (inr j, s')
    end.

(** ** WeatherAPI adapter ([src/src/weather/providers/weatherApi.ts]) *)

(** [resolveQuery], lines 5-9; [None] where it throws. *)
Definition resolveQuery (q : LocationQuery) : option string :=
  match lat q, lon q with
  | Some la, Some lo => Some (num_to_string la ++ "," ++ num_to_string lo)
  | _, _ =>
      match city q with
      | Some c =>
          if truthy_str c then
            Some (match country q with
                  | Some k => if truthy_str k then c ++ "," ++ k else c
                  | None => c
                  end)
          else None
      | None => None
      end
  end.

Definition wa_invalid_msg : string := "WeatherAPI: provide city or lat/lon".

Definition wa_resolve (q : LocationQuery) : M string :=
  match resolveQuery q with
  | Some s => ret s
  | None => throw (Error wa_invalid_msg)
  end.

Definition wa_location_of (l : WALocation) : Location :=
  {| loc_name := wl_name l; loc_lat := wl_lat l; loc_lon := wl_lon l; loc_country := wl_country l |}.

Definition wa_condition_of (c : option WACondition) : WCondition :=
  {| cond_text := match c with Some c => wc_text c | None => None end;
     cond_iconUrl := match c with Some c => wc_icon c | None => None end;
     cond_code := match c with Some c => wc_code c | None => None end |}.

Definition wa_current_of (l : WALocation) (c : WACurrent) (t : Z) : CurrentWeather :=
  {| provider := "weatherapi";
     location := wa_location_of l;
     observedAt := match last_updated c with
                   | Some u => if truthy_str u then parse_date u else t
                   | None => t
                   end;
     temperatureC := temp_c c;
     temperatureF := temp_f c;
     feelsLikeC := feelslike_c c;
     feelsLikeF := feelslike_f c;
     humidity := wa_humidity c;
     windKph := wind_kph c;
     windMph := wind_mph c;
     windDir := wind_dir c;
     pressureMb := pressure_mb c;
     uv := wa_uv c;
     condition := wa_condition_of (wa_condition c) |}.

(** [getCurrent], lines 11-32. *)
Definition wa_getCurrent (q : LocationQuery) : M CurrentWeather :=
  qStr <- wa_resolve q;;
  d <- http (WAGet WACurrentEP (encodeURIComponent qStr));;
  t <- now;;
  match d with
  | JWA w =>
      match wa_current w with
      | Some c => ret (wa_current_of (wa_location w) c t)
      | None => throw TypeError
      end
  | _ => throw TypeError
  end.

Definition wa_day_field {A} (f : WADay -> option A) (fd : WAForecastDay) : option A :=
  match wfd_day fd with Some d => f d | None => None end.

Definition wa_forecast_day_of (fd : WAForecastDay) : ForecastDay :=
  {| fd_date := wfd_date fd;
     avgTempC := wa_day_field avgtemp_c fd; avgTempF := wa_day_field avgtemp_f fd;
     maxTempC := wa_day_field maxtemp_c fd; maxTempF := wa_day_field maxtemp_f fd;
     minTempC := wa_day_field mintemp_c fd; minTempF := wa_day_field mintemp_f fd;
     chanceOfRainPct := wa_day_field daily_chance_of_rain fd;
     chanceOfSnowPct := wa_day_field daily_chance_of_snow fd;
     fd_condition := Some (wa_condition_of (wa_day_field day_condition fd)) |}.

(** [getForecast], lines 34-56. *)
Definition wa_getForecast (q : LocationQuery) (days_arg : option nat) : M Forecast :=
  let days := coalesce days_arg 3%nat in
  qStr <- wa_resolve q;;
  d <- http (WAGet (WAForecastEP days) (encodeURIComponent qStr));;
  match d with
  | JWA w =>
      ret {| f_provider := "weatherapi";
             f_location := wa_location_of (wa_location w);
             days := map wa_forecast_day_of (coalesce (wa_forecastday w) []) |}
  | _ => throw TypeError
  end.

Definition wa_cur_field {A} (f : WACurrent -> option A) (w : WAJson) : option A :=
  match wa_current w with Some c => f c | None => None end.

(** [getHistorical], lines 58-80. *)
Definition wa_getHistorical (q : LocationQuery) (dateISO : string) : M HistoricalWeather :=
  qStr <- wa_resolve q;;
  d <- http (WAGet (WAHistoryEP (encodeURIComponent (slice0 10 dateISO)))
                   (encodeURIComponent qStr));;
  t <- now;;
  match d with
  | JWA w =>
      let day := match wa_forecastday w with Some (fd :: _) => Some fd | _ => None end in
      let dday {A} (f : WADay -> option A) : option A :=
        match day with Some fd => wa_day_field f fd | None => None end in
      let ddate := match day with Some fd => Some (wfd_date fd) | None => None end in
      ret {| h_date := if truthy_ostr ddate then coalesce ddate "" else slice0 10 dateISO;
             h_current :=
               {| provider := "weatherapi";
                  location := wa_location_of (wa_location w);
                  observedAt := if truthy_ostr ddate then parse_date (coalesce ddate "") else t;
                  temperatureC := coalesce (dday avgtemp_c)
                                    (coalesce (wa_cur_field (fun c => Some (temp_c c)) w) 0);
                  temperatureF := coalesce (dday avgtemp_f)
                                    (coalesce (wa_cur_field (fun c => Some (temp_f c)) w) 0);
                  feelsLikeC := wa_cur_field feelslike_c w;
                  feelsLikeF := wa_cur_field feelslike_f w;
                  humidity := match dday avghumidity with
                              | Some h => Some h | None => wa_cur_field wa_humidity w end;
                  windKph := match dday maxwind_kph with
                             | Some x => Some x | None => wa_cur_field wind_kph w end;
                  windMph := match dday maxwind_mph with
                             | Some x => Some x | None => wa_cur_field wind_mph w end;
                  windDir := wa_cur_field wind_dir w;
                  pressureMb := wa_cur_field pressure_mb w;
                  uv := wa_cur_field wa_uv w;
                  condition := wa_condition_of (dday day_condition) |} |}
  | _ => throw TypeError
  end.


(** ** OpenWeather adapter ([src/unnamed/part_003], providers/openWeather.ts) *)

(** [unitsParam], lines 5-7. *)
Definition unitsParam (u : Units) : Units :=
  match u with imperial => imperial | metric => metric end.

(** [resolveQueryParams], lines 9-18; [None] where it throws. *)
Definition resolveQueryParams (q : LocationQuery) : option string :=
  match lat q, lon q with
  | Some la, Some lo => Some ("lat=" ++ num_to_string la ++ "&lon=" ++ num_to_string lo)
  | _, _ =>
      match city q with
      | Some c =>
          if truthy_str c then
            let ctry := if truthy_ostr (country q)
                        then "," ++ encodeURIComponent (coalesce (country q) "") else "" in
            Some ("q=" ++ encodeURIComponent (c ++ ctry))
          else None
      | None => None
      end
  end.

Definition ow_invalid_msg : string := "OpenWeather: provide city or lat/lon".

Definition ow_resolve (q : LocationQuery) : M string :=
  match resolveQueryParams q with
  | Some s => ret s
  | None => throw (Error ow_invalid_msg)
  end.

(** The conversions of lines 26-29 and 59-60, [(t - 32) * (5 / 9)] and
    [t * (9 / 5) + 32], taken exactly: the code's doubles are these values
    rounded, and may miss them in the last bit. *)
Definition q_to_c (u : Units) (t : Q) : Q :=
  match u with metric => t | imperial => (t - 32) * (5 # 9) end.

Definition q_to_f (u : Units) (t : Q) : Q :=
  match u with imperial => t | metric => t * (9 # 5) + 32 end.

Definition icon_url (icon : string) : string :=
  "https://openweathermap.org/img/wn/" ++ icon ++ "@2x.png".

Definition first_weather (l : list OWWeather) : option OWWeather :=
  match l with w :: _ => Some w | [] => None end.

Definition ow_field {A} (f : OWWeather -> option A) (w : option OWWeather) : option A :=
  match w with Some w => f w | None => None end.

(** The record built by [getCurrent], lines 25-44. *)
Definition ow_current_of (units : Units) (d : OWCurrentJson) : CurrentWeather :=
  let name := if truthy_ostr (oc_name d) then coalesce (oc_name d) ""
              else num_to_string (oc_lat d) ++ "," ++ num_to_string (oc_lon d) in
  let w := first_weather (oc_weather d) in
  {| provider := "openweather";
     location := {| loc_name := name; loc_lat := oc_lat d; loc_lon := oc_lon d;
                    loc_country := oc_country d |};
     observedAt := (oc_dt d * 1000)%Z;
     temperatureC := q_to_c units (oc_temp d);
     temperatureF := q_to_f units (oc_temp d);
     feelsLikeC := Some (q_to_c units (oc_feels_like d));
     feelsLikeF := Some (q_to_f units (oc_feels_like d));
     humidity := Some (oc_humidity d);
     windKph := Some (match units with
                      | metric => oc_speed d * (36 # 10)
                      | imperial => oc_speed d * (160934 # 100000) end);
     windMph := Some (match units with
                      | imperial => oc_speed d
                      | metric => oc_speed d * (36 # 10) / (160934 # 100000) end);
     windDir := match oc_deg d with Some g => Some (num_to_string g ++ "°") | None => None end;
     pressureMb := Some (oc_pressure d);
     uv := None;
     condition := {| cond_text := Some (coalesce (or_str (ow_field ow_description w) (Some "Unknown")) "");
                     cond_iconUrl := if truthy_ostr (ow_field ow_icon w)
                                     then Some (icon_url (coalesce (ow_field ow_icon w) "")) else None;
                     cond_code := ow_field ow_id w |} |}.

(** [getCurrent], lines 20-45. *)
Definition ow_getCurrent (q : LocationQuery) (units_arg : option Units) : M CurrentWeather :=
  let units := coalesce units_arg (defaultUnits cfg) in
  params <- ow_resolve q;;
  d <- http (OWGet OWWeatherEP params (unitsParam units));;
  match d with
  | JOWCurrent o => ret (ow_current_of units o)
  | _ => throw TypeError
  end.

(** *** Forecast bucketing, lines 53-97 *)

(** The per-date accumulator of [byDate]. *)
Record Bucket := {
  tempsC : list Q; tempsF : list Q;
  rainSlots : nat; snowSlots : nat; totalSlots : nat;
  condText : option string; icon : option string; code : option Z }.

Definition empty_bucket : Bucket :=
  {| tempsC := []; tempsF := []; rainSlots := 0; snowSlots := 0; totalSlots := 0;
     condText := None; icon := None; code := None |}.

Definition item_date (it : OWItem) : string := iso_day (it_dt it * 1000)%Z.

(** The body of the [for] loop, lines 59-72, on the bucket of the item's date. *)
Definition add_item (units : Units) (it : OWItem) (b : Bucket) : Bucket :=
  let cond := first_weather (it_weather it) in
  {| tempsC := tempsC b ++ [q_to_c units (it_temp it)];
     tempsF := tempsF b ++ [q_to_f units (it_temp it)];
     totalSlots := S (totalSlots b);
     rainSlots := if truthy_oQ (it_rain3h it) then S (rainSlots b) else rainSlots b;
     snowSlots := if truthy_oQ (it_snow3h it) then S (snowSlots b) else snowSlots b;
     condText := or_str (ow_field ow_description cond) (condText b);
     icon := or_str (ow_field ow_icon cond) (icon b);
     code := or_Z (ow_field ow_id cond) (code b) |}.

(** [byDate] as an object: keys in insertion order (date strings are not
    array indices).  A missing key is first set to the empty bucket. *)
Fixpoint update_bucket (k : string) (f : Bucket -> Bucket) (m : list (string * Bucket))
  : list (string * Bucket) :=
  match m with
  | [] => [(k, f empty_bucket)]
  | (k', b) :: m' => if String.eqb k' k then (k', f b) :: m' else (k', b) :: update_bucket k f m'
  end.

Definition aggregate (units : Units) (items : list OWItem) : list (string * Bucket) :=
  fold_left (fun m it => update_bucket (item_date it) (add_item units it) m) items [].

Fixpoint lookup_bucket (k : string) (m : list (string * Bucket)) : option Bucket :=
  match m with
  | [] => None
  | (k', b) :: m' => if String.eqb k' k then Some b else lookup_bucket k m'
  end.

(** [Array.prototype.sort] with the default comparator (UTF-16 code units,
    which is byte order on these ASCII strings). *)
Fixpoint insert_sorted (x : string) (l : list string) : list string :=
  match l with
  | [] => [x]
  | y :: l' => match String_as_OT.compare x y with
               | Gt => y :: insert_sorted x l'
               | _ => x :: y :: l'
               end
  end.

Fixpoint sort_strings (l : list string) : list string :=
  match l with [] => [] | x :: l' => insert_sorted x (sort_strings l') end.

Definition sum_Q (l : list Q) : Q := fold_left Qplus l 0.

(** [xs.reduce((a, b) => a + b, 0) / xs.length], taken exactly (the code's
    double is this value up to rounding); an empty bucket (which the loop
    never creates) would give NaN, here [None]. *)
Definition js_avg (l : list Q) : option Q :=
  match l with [] => None | _ => Some (sum_Q l / inject_Z (Z.of_nat (List.length l))) end.

(** [Math.max(...xs)] / [Math.min(...xs)]; [-Infinity] / [Infinity] of the
    empty list (never reached) is [None]. *)
Definition js_max (l : list Q) : option Q :=
  match l with [] => None | x :: r => Some (fold_left Qmax r x) end.
Definition js_min (l : list Q) : option Q :=
  match l with [] => None | x :: r => Some (fold_left Qmin r x) end.

(** [Math.round(x)] = [floor(x + 0.5)]. *)
Definition js_round (x : Q) : Z := Qfloor (x + (1 # 2)).

(** ** Double-precision rounding

    [to_double x] is the binary64 double nearest to [x], ties to even, as
    IEEE 754 rounds the exact result of [*]; subnormals included.  The
    overflow to [Infinity] (at magnitude 2^1024) is outside the model. *)

Definition pow2 (e : Z) : Q :=
  if (0 <=? e)%Z then inject_Z (2 ^ e) else 1 # Z.to_pos (2 ^ (- e)).

(** [floor (log2 (n / d))] for [n > 0]. *)
Definition qlog2_floor (n : Z) (d : positive) : Z :=
  let k := (Z.log2 n - Z.log2 (Z.pos d))%Z in
  if Qle_bool (pow2 k) (n # d) then k else (k - 1)%Z.

Definition round_half_even (x : Q) : Z :=
  let f := Qfloor x in
  match Qcompare (x - inject_Z f) (1 # 2) with
  | Lt => f
  | Gt => (f + 1)%Z
  | Eq => if Z.even f then f else (f + 1)%Z
  end.

(** Rounding of the positive rational [n / d]: 53 significant bits, and no
    exponent below that of the least subnormal, 2^-1074. *)
Definition round_pos (n : Z) (d : positive) : Q :=
  let e := Z.max (qlog2_floor n d - 52) (-1074) in
  inject_Z (round_half_even ((n # d) / pow2 e)) * pow2 e.

Definition to_double (x : Q) : Q :=
  match Qnum x with
  | Z0 => 0
  | Zpos n => round_pos (Zpos n) (Qden x)
  | Zneg n => - round_pos (Zpos n) (Qden x)
  end.

(** [a * b] on doubles. *)
Definition js_mul (a b : Q) : Q := to_double (a * b).

(** [total ? Math.round((slots / total) * 100) : undefined]. *)
Definition chance (slots total : nat) : option Z :=
  match total with
  | O => None
  | _ => Some (js_round (inject_Z (Z.of_nat slots) / inject_Z (Z.of_nat total) * 100))
  end.

(** The [map] callback, lines 75-97. *)
Definition day_of (date : string) (rec : Bucket) : ForecastDay :=
  {| fd_date := date;
     avgTempC := js_avg (tempsC rec); avgTempF := js_avg (tempsF rec);
     maxTempC := js_max (tempsC rec); maxTempF := js_max (tempsF rec);
     minTempC := js_min (tempsC rec); minTempF := js_min (tempsF rec);
     chanceOfRainPct := chance (rainSlots rec) (totalSlots rec);
     chanceOfSnowPct := chance (snowSlots rec) (totalSlots rec);
     fd_condition := Some {| cond_text := condText rec;
                             cond_iconUrl := match icon rec with
                                             | Some i => if truthy_str i then Some (icon_url i) else None
                                             | None => None end;
                             cond_code := code rec |} |}.

(** Lines 53-97: [byDate], then
    [Object.keys(byDate).sort().slice(0, days).map(...)]. *)
Definition forecast_days (units : Units) (days : nat) (items : list OWItem) : list ForecastDay :=
  let byDate := aggregate units items in
  let sortedDates := firstn days (sort_strings (map fst byDate)) in
  map (fun date => day_of date (coalesce (lookup_bucket date byDate) empty_bucket)) sortedDates.

(** [getForecast], lines 47-103. *)
Definition ow_getForecast (q : LocationQuery) (units_arg : option Units) (days_arg : option nat)
  : M Forecast :=
  let units := coalesce units_arg (defaultUnits cfg) in
  let days := coalesce days_arg 3%nat in
  params <- ow_resolve q;;
  d <- http (OWGet OWForecastEP params (unitsParam units));;
  match d with
  | JOWForecast o =>
      let name := if truthy_ostr (of_city_name o) then coalesce (of_city_name o) ""
                  else num_to_string (of_lat o) ++ "," ++ num_to_string (of_lon o) in
      ret {| f_provider := "openweather";
             f_location := {| loc_name := name; loc_lat := of_lat o; loc_lon := of_lon o;
                              loc_country := of_country o |};
             days := forecast_days units days (of_list o) |}
  | _ => throw TypeError
  end.

(** [getHistorical], lines 105-107: not supported, resolves to [null]. *)
Definition ow_getHistorical : M (option HistoricalWeather) := ret None.

(** ** Aggregator ([src/src/weather/aggregator.ts]) *)

(** The three caches of lines 7-20: [max: 500], TTL in milliseconds. *)
Definition ttl_current : Z := (cacheTtlSeconds cfg * 1000)%Z.
Definition ttl_forecast : Z := (forecastCacheTtlSeconds cfg * 1000)%Z.
Definition ttl_historical : Z := (cacheTtlSeconds cfg * 1000)%Z.

Definition currentCache_get (k : Key) : M (option CurrentWeather) :=
  fun s => let '(r, c) := cache_get ttl_current (clock s) k (currentCache s) in
           (inr r, set_currentCache c s).
Definition currentCache_set (k : Key) (v : CurrentWeather) : M unit :=
  modify (fun s => set_currentCache (cache_set cache_max (clock s) k v (currentCache s)) s).

Definition forecastCache_get (k : Key) : M (option Forecast) :=
  fun s => let '(r, c) := cache_get ttl_forecast (clock s) k (forecastCache s) in
           (inr r, set_forecastCache c s).
Definition forecastCache_set (k : Key) (v : Forecast) : M unit :=
  modify (fun s => set_forecastCache (cache_set cache_max (clock s) k v (forecastCache s)) s).

Definition historicalCache_get (k : Key) : M (option HistoricalWeather) :=
  fun s => let '(r, c) := cache_get ttl_historical (clock s) k (historicalCache s) in
           (inr r, set_historicalCache c s).
Definition historicalCache_set (k : Key) (v : HistoricalWeather) : M unit :=
  modify (fun s => set_historicalCache (cache_set cache_max (clock s) k v (historicalCache s)) s).

Definition no_provider_msg : string := "No weather provider available. Please set API keys in .env".
Definition no_historical_msg : string := "Historical data not available with current configuration.".

(** [getCurrentWeather], lines 26-46. *)
Definition getCurrentWeather (q : LocationQuery) (units_arg : option Units) : M CurrentWeather :=
  let units := coalesce units_arg (defaultUnits cfg) in
  let key := keyOf "current" q (XUnits units) in
  cached <- currentCache_get key;;
  match cached with
  | Some c => ret c
  | None =>
      data <- (if truthy_str (weatherApiKey cfg) then
                 try_catch (c <- wa_getCurrent q;; ret (Some c))
                   (fun e => log (Warn "WeatherAPI current failed, falling back to OpenWeather:" e);;
                             ret None)
               else ret None);;
      data <- (match data with
               | Some _ => ret data
               | None =>
                   if truthy_str (openWeatherApiKey cfg)
                   then c <- ow_getCurrent q (Some units);; ret (Some c)
                   else ret None
               end);;
      match data with
      | None => throw (Error no_provider_msg)
      | Some d => currentCache_set key d;; ret d
      end
  end.

(** [getForecast], lines 48-67. *)
Definition getForecast (q : LocationQuery) (units_arg : option Units) (days_arg : option nat)
  : M Forecast :=
  let units := coalesce units_arg (defaultUnits cfg) in
  let ndays := coalesce days_arg 3%nat in
  let key := keyOf "forecast" q (XUnitsDays units ndays) in
  cached <- forecastCache_get key;;
  match cached with
  | Some f => ret f
  | None =>
      data <- (if truthy_str (weatherApiKey cfg) then
                 try_catch (f <- wa_getForecast q (Some ndays);; ret (Some f))
                   (fun e => log (Warn "WeatherAPI forecast failed, falling back to OpenWeather:" e);;
                             ret None)
               else ret None);;
      data <- (match data with
               | Some _ => ret data
               | None =>
                   if truthy_str (openWeatherApiKey cfg)
                   then f <- ow_getForecast q (Some units) (Some ndays);; ret (Some f)
                   else ret None
               end);;
      match data with
      | None => throw (Error no_provider_msg)
      | Some d => forecastCache_set key d;; ret d
      end
  end.

(** [getHistorical], lines 69-85. *)
Definition getHistorical (q : LocationQuery) (dateISO : string) : M HistoricalWeather :=
  let key := keyOf "historical" q (XDate dateISO) in
  cached <- historicalCache_get key;;
  match cached with
  | Some h => ret h
  | None =>
      data <- (if truthy_str (weatherApiKey cfg) then
                 try_catch (h <- wa_getHistorical q dateISO;; ret (Some h))
                   (fun e => log (Warn "WeatherAPI historical failed:" e);; ret None)
               else ret None);;
      match data with
      | None => throw (Error no_historical_msg)
      | Some d => historicalCache_set key d;; ret d
      end
  end.

(** ** Alert registry and evaluator ([src/unnamed/part_005]) *)

(** [alerts.set(k, v)] on a [Map]: replaces in place, or appends. *)
Fixpoint map_set {V} (k : string) (v : V) (m : list (string * V)) : list (string * V) :=
  match m with
  | [] => [(k, v)]
  | (k', v') :: m' => if String.eqb k' k then (k', v) :: m' else (k', v') :: map_set k v m'
  end.

Definition map_has {V} (k : string) (m : list (string * V)) : bool :=
  existsb (fun kv => String.eqb (fst kv) k) m.

Definition map_delete {V} (k : string) (m : list (string * V)) : list (string * V) :=
  filter (fun kv => negb (String.eqb (fst kv) k)) m.

Fixpoint list_update {A} (n : nat) (f : A -> A) (l : list A) : list A :=
  match l, n with
  | [], _ => []
  | x :: l', O => f x :: l'
  | x :: l', S n' => x :: list_update n' f l'
  end.

(** Reading the object behind a reference. *)
Definition deref (l : nat) : M WeatherAlert :=
  fun s => match nth_error (heap s) l with
           | Some a => (inr a, s)
           | None => (inl TypeError, s)
           end.

(** [generateId], lines 32-34. *)
Definition generateId : M string :=
  fun s => (inr (random_id (seed s)), set_seed (S (seed s)) s).

(** [listAlerts], lines 36-38: the objects, in insertion order. *)
Definition listAlerts : M (list nat) := fun s => (inr (map snd (alerts s)), s).

(** [removeAlert], lines 40-42. *)
Definition removeAlert (id : string) : M bool :=
  fun s => (inr (map_has id (alerts s)), set_alerts (map_delete id (alerts s)) s).

(** [registerAlert], lines 44-49: [{ ...alert, id, createdAt }], stored and returned. *)
Definition registerAlert (a : AlertInput) : M WeatherAlert :=
  id <- generateId;;
  t <- now;;
  let full := {| a_id := id; a_name := i_name a; a_location := i_location a;
                 a_condition := i_condition a; channel := i_channel a;
                 webhookUrl := i_webhookUrl a; sensitivity := i_sensitivity a;
                 createdAt := t; lastTriggeredAt := i_lastTriggeredAt a |} in
  fun s => (inr full, set_alerts (map_set id (List.length (heap s)) (alerts s))
                                 (set_heap (heap s ++ [full]) s)).

Definition stamp (t : Z) (a : WeatherAlert) : WeatherAlert :=
  {| a_id := a_id a; a_name := a_name a; a_location := a_location a;
     a_condition := a_condition a; channel := channel a; webhookUrl := webhookUrl a;
     sensitivity := sensitivity a; createdAt := createdAt a; lastTriggeredAt := Some t |}.

(** [notify], lines 51-64, on the alert object [l]. *)
Definition notify (l : nat) (message : AlertMessage) (payload : Payload) : M unit :=
  t <- now;;
  modify (fun s => set_heap (list_update l (stamp t) (heap s)) s);;
  alert <- deref l;;
  match channel alert with
  | console => log (AlertLine (a_id alert) message payload)
  | webhook =>
      if truthy_ostr (webhookUrl alert) then
        try_catch (http (WebhookPost (coalesce (webhookUrl alert) "") (a_id alert) message alert
                                     payload);; ret tt)
          (fun e => log (Warn "Webhook notify failed:" e))
      else ret tt
  end.

(** [adjustThreshold], lines 66-71: [base * 0.9] and [base * 1.1] are
    double products, and the literals [0.9] and [1.1] denote the doubles
    nearest to them. *)
Definition adjustThreshold (base : Q) (sens : option Sensitivity) : Q :=
  match sens with
  | None | Some medium => base
  | Some high => js_mul base (to_double (9 # 10))
  | Some low => js_mul base (to_double (11 # 10))
  end.

(** [evaluateAlert], lines 73-101, on the alert object [l]. *)
Definition evaluateAlert (l : nat) : M unit :=
  alert <- deref l;;
  let cond := a_condition alert in
  match ctype cond with
  | rain =>
      let ndays := coalesce (daysAhead cond) 1%nat in
      forecast <- getForecast (a_location alert) None (Some ndays);;
      let raining :=
        existsb (fun d => Qle_bool (adjustThreshold 50 (sensitivity alert))
                                   (inject_Z (coalesce (chanceOfRainPct d) 0%Z)))
                (days forecast) in
      if raining then notify l (MsgRain ndays (f_location forecast)) (PForecast forecast)
      else ret tt
  | _ =>
      current <- getCurrentWeather (a_location alert) None;;
      match ctype cond, threshold cond with
      | temp_above, Some th =>
          let t := adjustThreshold th (sensitivity alert) in
          if Qle_bool t (temperatureC current)
          then notify l (MsgTempAbove t (loc_name (location current))) (PCurrent current)
          else ret tt
      | temp_below, Some th =>
          let t := adjustThreshold th (sensitivity alert) in
          if Qle_bool (temperatureC current) t
          then notify l (MsgTempBelow t (loc_name (location current))) (PCurrent current)
          else ret tt
      | wind_above, Some th =>
          let t := adjustThreshold th (sensitivity alert) in
          let wind := coalesce (windKph current) 0 in
          if Qle_bool t wind
          then notify l (MsgWind t (loc_name (location current))) (PCurrent current)
          else ret tt
      | _, _ => ret tt
      end
  end.

Fixpoint sweep (items : list nat) : M unit :=
  match items with
  | [] => ret tt
  | l :: rest =>
      try_catch (evaluateAlert l)
        (fun e => a <- deref l;; log (Warn ("Alert evaluation failed: " ++ a_id a) e));;
      sweep rest
  end.

(** [pollAlerts], lines 103-112. *)
Definition pollAlerts : M unit := items <- listAlerts;; sweep items.

(** [startAlertScheduler] / [stopAlertScheduler], lines 114-125; the timer
    itself is the environment calling [pollAlerts]. *)
Definition startAlertScheduler : M unit :=
  fun s => if schedulerStarted s then (inr tt, s)
           else let s' := {| clock := clock s; currentCache := currentCache s;
                             forecastCache := forecastCache s; historicalCache := historicalCache s;
                             alerts := alerts s; heap := heap s; seed := seed s;
                             requests := requests s; logs := logs s; schedulerStarted := true |} in
                log (Info "Alert scheduler started") s'.

Definition stopAlertScheduler : M unit :=
  fun s => (inr tt, {| clock := clock s; currentCache := currentCache s;
                       forecastCache := forecastCache s; historicalCache := historicalCache s;
                       alerts := alerts s; heap := heap s; seed := seed s;
                       requests := requests s; logs := logs s; schedulerStarted := false |}).

(** ** Runs of the process

    The process starts with empty caches and registry; then callers (the
    tool handlers), the alert timer and the passage of time act on it. *)

Definition init_state (t0 : Z) (seed0 : nat) : St :=
  {| clock := t0; currentCache := []; forecastCache := []; historicalCache := [];
     alerts := []; heap := []; seed := seed0; requests := []; logs := [];
     schedulerStarted := false |}.

Inductive step : St -> St -> Prop :=
| step_current q u s : step s (snd (getCurrentWeather q u s))
| step_forecast q u d s : step s (snd (getForecast q u d s))
| step_historical q d s : step s (snd (getHistorical q d s))
| step_register a s : step s (snd (registerAlert a s))
| step_remove id s : step s (snd (removeAlert id s))
| step_poll s : step s (snd (pollAlerts s))
| step_start s : step s (snd (startAlertScheduler s))
| step_stop s : step s (snd (stopAlertScheduler s))
| step_tick dt s : (0 <= dt)%Z -> step s (set_clock (clock s + dt)%Z s).

Inductive reachable : St -> Prop :=
| reach_init t0 seed0 : reachable (init_state t0 seed0)
| reach_step s s' : reachable s -> step s s' -> reachable s'.

(** * Proofs *)

(** ** Monad and record lemmas *)

Lemma bind_inr {A B} (m : M A) (f : A -> M B) s b s2 :
  bind m f s = (inr b, s2) -> exists a s1, m s = (inr a, s1) /\ f a s1 = (inr b, s2).
Proof.
  unfold bind. destruct (m s) as [[e|a] s1]; intro H; [discriminate | eauto].
Qed.

Lemma bind_inl {A B} (m : M A) (f : A -> M B) s e s2 :
  bind m f s = (inl e, s2) ->
  m s = (inl e, s2) \/ exists a s1, m s = (inr a, s1) /\ f a s1 = (inl e, s2).
Proof.
  unfold bind. destruct (m s) as [[e'|a] s1]; intro H; [inversion H; subst; auto | eauto].
Qed.

Lemma bind_ok {A B} (m : M A) (f : A -> M B) s a s' :
  m s = (inr a, s') -> bind m f s = f a s'.
Proof. unfold bind. now intros ->. Qed.

Lemma bind_err {A B} (m : M A) (f : A -> M B) s e s' :
  m s = (inl e, s') -> bind m f s = (inl e, s').
Proof. unfold bind. now intros ->. Qed.

Lemma try_err {A} (m : M A) h s e s' :
  m s = (inl e, s') -> try_catch m h s = h e s'.
Proof. unfold try_catch. now intros ->. Qed.

Lemma try_ok {A} (m : M A) h s a s' :
  m s = (inr a, s') -> try_catch m h s = (inr a, s').
Proof. unfold try_catch. now intros ->. Qed.

Lemma set_currentCache_id s : set_currentCache (currentCache s) s = s.
Proof. destruct s; reflexivity. Qed.

Lemma set_currentCache_clock c t s : set_currentCache c (set_clock t s) = set_clock t (set_currentCache c s).
Proof. destruct s; reflexivity. Qed.

(** ** Keys and caches *)

Lemma Q_eqb_refl x : Q_eqb x x = true.
Proof. unfold Q_eqb. now rewrite Z.eqb_refl, Pos.eqb_refl. Qed.

Lemma option_eqb_refl {A} (eqb : A -> A -> bool) :
  (forall a, eqb a a = true) -> forall x, option_eqb eqb x x = true.
Proof. intros H [a|]; simpl; auto. Qed.

Lemma Key_eqb_refl k : Key_eqb k k = true.
Proof.
  destruct k as [p [c k la lo] x]. unfold Key_eqb, LocationQuery_eqb; simpl.
  rewrite String.eqb_refl.
  rewrite !(option_eqb_refl String.eqb String.eqb_refl), !(option_eqb_refl Q_eqb Q_eqb_refl).
  destruct x as [[]|[] d|t]; simpl; rewrite ?Nat.eqb_refl, ?String.eqb_refl; reflexivity.
Qed.

(** No entry of [c] has key [k]. *)
Definition no_key {V} (k : Key) (c : list (Entry V)) : Prop :=
  Forall (fun e => Key_eqb (e_key e) k = false) c.

Lemma remove_key_no_key {V} k (c : list (Entry V)) : no_key k (remove_key k c).
Proof.
  unfold no_key, remove_key. apply Forall_forall. intros e He.
  apply filter_In in He as [_ He]. now destruct (Key_eqb (e_key e) k).
Qed.

Lemma remove_key_id {V} k (c : list (Entry V)) : no_key k c -> remove_key k c = c.
Proof.
  unfold no_key, remove_key. induction 1 as [|e c He _ IH]; simpl; auto.
  now rewrite He, IH.
Qed.

Lemma no_key_firstn {V} k n (c : list (Entry V)) : no_key k c -> no_key k (firstn n c).
Proof.
  unfold no_key. intro H. apply Forall_forall. intros e He.
  apply (proj1 (Forall_forall _ _) H). rewrite <- (firstn_skipn n c).
  apply in_or_app; now left.
Qed.

Lemma lookup_entry_no_key {V} k (c : list (Entry V)) : no_key k c -> lookup_entry k c = None.
Proof. unfold no_key. induction 1 as [|e c He _ IH]; simpl; auto. now rewrite He. Qed.

(** A live entry at the head, with no other entry for its key, is returned
    by [get] and the cache is left as it was. *)
Lemma cache_get_head {V} ttl t k (e : Entry V) rest :
  e_key e = k -> no_key k rest -> is_stale ttl t (e_start e) = false ->
  cache_get ttl t k (e :: rest) = (Some (e_val e), e :: rest).
Proof.
  intros Hk Hr Hs. unfold cache_get. cbn [lookup_entry]. subst k. rewrite Key_eqb_refl, Hs.
  unfold remove_key at 1. cbn [filter]. rewrite Key_eqb_refl. cbn [negb].
  pose proof (remove_key_id _ _ Hr) as H. unfold remove_key in H. now rewrite H.
Qed.

(** The shape of the current cache after a successful [getCurrentWeather]:
    the answer is the entry for its key at the head. *)
Definition head_entry {V} (k : Key) (v : V) (start : Z) (c : list (Entry V)) : Prop :=
  exists rest, c = {| e_key := k; e_val := v; e_start := start |} :: rest /\ no_key k rest.

Lemma cache_set_head {V} max t k (v : V) c :
  max <> O -> head_entry k v t (cache_set max t k v c).
Proof.
  intro Hm. destruct max as [|m]; [congruence|]. unfold cache_set, head_entry. simpl.
  eexists; split; [reflexivity|]. apply no_key_firstn, remove_key_no_key.
Qed.

Lemma Q_eqb_eq x y : Q_eqb x y = true -> x = y.
Proof.
  destruct x as [a b], y as [c d]. unfold Q_eqb; simpl. intro H.
  apply andb_prop in H as [H1 H2]. apply Z.eqb_eq in H1. apply Pos.eqb_eq in H2. now subst.
Qed.

Lemma option_eqb_eq {A} (eqb : A -> A -> bool) :
  (forall a b, eqb a b = true -> a = b) -> forall x y, option_eqb eqb x y = true -> x = y.
Proof. intros H [a|] [b|]; simpl; intro E; try discriminate; auto. f_equal; auto. Qed.

Lemma Units_eqb_eq u v : Units_eqb u v = true -> u = v.
Proof. destruct u, v; simpl; congruence. Qed.

Lemma Extra_eqb_eq x y : Extra_eqb x y = true -> x = y.
Proof.
  destruct x, y; simpl; intro H; try discriminate.
  - now rewrite (Units_eqb_eq _ _ H).
  - apply andb_prop in H as [H1 H2]. apply Units_eqb_eq in H1. apply Nat.eqb_eq in H2.
    now subst.
  - apply String.eqb_eq in H. now subst.
Qed.

Lemma Key_eqb_eq a b : Key_eqb a b = true -> a = b.
Proof.
  destruct a as [p1 [c1 k1 la1 lo1] x1], b as [p2 [c2 k2 la2 lo2] x2].
  unfold Key_eqb, LocationQuery_eqb; cbn [k_prefix k_query k_extra city country lat lon].
  intro E.
  repeat match goal with H : _ && _ = true |- _ => apply andb_prop in H as [? ?] end.
  repeat match goal with
  | H : String.eqb _ _ = true |- _ => apply String.eqb_eq in H
  | H : option_eqb String.eqb _ _ = true |- _ =>
      apply (option_eqb_eq String.eqb (fun a b => proj1 (String.eqb_eq a b))) in H
  | H : option_eqb Q_eqb _ _ = true |- _ => apply (option_eqb_eq Q_eqb Q_eqb_eq) in H
  | H : Extra_eqb _ _ = true |- _ => apply Extra_eqb_eq in H
  end.
  now subst.
Qed.

Lemma lookup_entry_key {V} k (c : list (Entry V)) e :
  lookup_entry k c = Some e -> e_key e = k.
Proof.
  induction c as [|x c IH]; simpl; [discriminate|].
  destruct (Key_eqb (e_key x) k) eqn:E; [|auto]. intro H; inversion H; subst.
  now apply Key_eqb_eq.
Qed.

Lemma cache_get_hit_head {V} ttl t k (c : list (Entry V)) v c' :
  cache_get ttl t k c = (Some v, c') -> exists start, head_entry k v start c'.
Proof.
  unfold cache_get. destruct (lookup_entry k c) as [e|] eqn:He; [|discriminate].
  destruct (is_stale ttl t (e_start e)); [discriminate|]. intro H; inversion H; subst.
  exists (e_start e), (remove_key k c). split; [|apply remove_key_no_key].
  apply lookup_entry_key in He. destruct e; simpl in *; subst; reflexivity.
Qed.

(** ** The current-conditions cache *)

Definition current_key (q : LocationQuery) (u : option Units) : Key :=
  keyOf "current" q (XUnits (coalesce u (defaultUnits cfg))).

Lemma getCurrent_from_head q u s r start :
  head_entry (current_key q u) r start (currentCache s) ->
  is_stale ttl_current (clock s) start = false ->
  getCurrentWeather q u s = (inr r, s).
Proof.
  intros [rest [Hc Hr]] Hs. unfold getCurrentWeather, bind at 1, currentCache_get.
  fold (current_key q u). rewrite Hc.
  rewrite (cache_get_head _ _ _ {| e_key := current_key q u; e_val := r; e_start := start |})
    by (simpl; auto).
  simpl. rewrite <- Hc. now rewrite set_currentCache_id.
Qed.

Lemma getCurrent_leaves_head q u s r s1 :
  getCurrentWeather q u s = (inr r, s1) ->
  exists start, head_entry (current_key q u) r start (currentCache s1) /\
    (fst (cache_get ttl_current (clock s) (current_key q u) (currentCache s)) = None ->
     start = clock s1).
Proof.
  unfold getCurrentWeather. fold (current_key q u). intro H.
  apply bind_inr in H as [cached [s0 [Hg H]]].
  unfold currentCache_get in Hg.
  destruct (cache_get ttl_current (clock s) (current_key q u) (currentCache s)) as [o c] eqn:Ec.
  injection Hg as <- <-. destruct o as [v|].
  - inversion H; subst. apply cache_get_hit_head in Ec as [start Hh].
    exists start. split; [exact Hh | discriminate].
  - apply bind_inr in H as [d1 [s2 [H1 H]]]. apply bind_inr in H as [d2 [s3 [H2 H]]].
    destruct d2 as [d|]; [|discriminate].
    apply bind_inr in H as [[] [s4 [H3 H4]]].
    unfold currentCache_set, modify in H3. inversion H3; subst. inversion H4; subst.
    exists (clock s3). split; [|reflexivity]. simpl.
    apply cache_set_head. unfold cache_max. discriminate.
Qed.

(** C4 (amended).  After a getCurrentWeather call that succeeded, a second
    call with identical arguments made while the cache entry for that key is
    live (within the TTL of the time the entry was stored, which is the end of
    the first call when that call fetched) returns the identical record, and
    leaves the state as it found it: no adapter call, no request, no log line,
    no cache change.  The upstream requests across the two calls are exactly
    those of the first call. *)
Theorem getCurrentWeather_repeat_within_ttl q u s r s1 :
  getCurrentWeather q u s = (inr r, s1) ->
  exists start,
    (fst (cache_get ttl_current (clock s) (current_key q u) (currentCache s)) = None ->
     start = clock s1) /\
    forall t, is_stale ttl_current t start = false ->
      getCurrentWeather q u (set_clock t s1) = (inr r, set_clock t s1).
Proof.
  intro H. apply getCurrent_leaves_head in H as [start [Hh Hs]].
  exists start. split; [exact Hs|]. intros t Ht.
  apply getCurrent_from_head with start; simpl; auto.
Qed.

(** ** Provider fallback *)

(** C6.  With both providers configured and no live cache entry, when the
    WeatherAPI adapter fails (with any error [e]) and OpenWeather answers the
    request with a body [d], getCurrentWeather returns OpenWeather's
    normalized record for [d], tagged "openweather"; [e] is only written to
    the log. *)
Theorem getCurrentWeather_fallback_to_openweather q u s s0 e s2 params dt d :
  truthy_str (weatherApiKey cfg) = true ->
  truthy_str (openWeatherApiKey cfg) = true ->
  currentCache_get (current_key q u) s = (inr None, s0) ->
  wa_getCurrent q s0 = (inl e, s2) ->
  resolveQueryParams q = Some params ->
  net (clock s2) (OWGet OWWeatherEP params (unitsParam (coalesce u (defaultUnits cfg))))
    = (dt, ROk (JOWCurrent d)) ->
  let r := ow_current_of (coalesce u (defaultUnits cfg)) d in
  exists s3,
    getCurrentWeather q u s = (inr r, s3) /\
    provider r = "openweather" /\
    In (Warn "WeatherAPI current failed, falling back to OpenWeather:" e) (logs s3).
Proof.
  intros Hwa How Hc Hf Hp Hn r.
  set (s2' := set_logs (logs s2 ++ [Warn "WeatherAPI current failed, falling back to OpenWeather:" e]) s2).
  assert (Hw : (if truthy_str (weatherApiKey cfg) then
                  try_catch (c <- wa_getCurrent q;; ret (Some c))
                    (fun e0 => log (Warn "WeatherAPI current failed, falling back to OpenWeather:" e0);;
                               ret None)
                else ret None) s0 = (inr None, s2')).
  { rewrite Hwa. rewrite (try_err _ _ _ e s2) by (apply bind_err; exact Hf). reflexivity. }
  assert (Ho : ow_getCurrent q (Some (coalesce u (defaultUnits cfg))) s2'
               = (inr r, set_requests (requests s2' ++ [OWGet OWWeatherEP params
                     (unitsParam (coalesce u (defaultUnits cfg)))])
                       (set_clock (clock s2' + dt)%Z s2'))).
  { unfold ow_getCurrent, ow_resolve. rewrite Hp. unfold bind, ret, http. simpl coalesce.
    replace (clock s2') with (clock s2) by reflexivity. rewrite Hn. reflexivity. }
  unfold getCurrentWeather. fold (current_key q u).
  rewrite (bind_ok _ _ s None s0) by exact Hc.
  rewrite (bind_ok _ _ s0 None s2') by exact Hw.
  cbn beta iota. rewrite How.
  rewrite (bind_ok _ _ s2' (Some r) _) by (rewrite (bind_ok _ _ _ _ _ Ho); reflexivity).
  eexists. split; [reflexivity|]. split; [reflexivity|].
  simpl. apply in_or_app. right. now left.
Qed.

(** ** State invariants of runs *)

(** [m] keeps [P]: from a state satisfying [P], whatever [m] returns, the
    new state satisfies [P]. *)
Definition preserves {A} (P : St -> Prop) (m : M A) : Prop :=
  forall s r s', m s = (r, s') -> P s -> P s'.

Lemma preserves_ret {A} P (a : A) : preserves P (ret a).
Proof. intros s r s' H HP. now inversion H; subst. Qed.

Lemma preserves_throw {A} P e : preserves P (@throw A e).
Proof. intros s r s' H HP. now inversion H; subst. Qed.

Lemma preserves_bind {A B} P (m : M A) (f : A -> M B) :
  preserves P m -> (forall a, preserves P (f a)) -> preserves P (bind m f).
Proof.
  intros Hm Hf s r s' H HP. unfold bind in H.
  destruct (m s) as [[e|a] s1] eqn:E.
  - inversion H; subst. eapply Hm; eauto.
  - eapply Hf; [exact H|]. eapply Hm; eauto.
Qed.

Lemma preserves_try {A} P (m : M A) h :
  preserves P m -> (forall e, preserves P (h e)) -> preserves P (try_catch m h).
Proof.
  intros Hm Hh s r s' H HP. unfold try_catch in H.
  destruct (m s) as [[e|a] s1] eqn:E.
  - eapply Hh; [exact H|]. eapply Hm; eauto.
  - inversion H; subst. eapply Hm; eauto.
Qed.

(** The empty current-conditions cache; the empty historical cache. *)
Definition no_current (s : St) : Prop := currentCache s = [].
Definition no_historical (s : St) : Prop := historicalCache s = [].

Create HintDb pres.
#[local] Hint Resolve preserves_ret preserves_throw : pres.

(** Unfold a monadic program and split it along binds, handlers and
    branches, leaving the primitive actions. *)
Ltac pres :=
  repeat (cbn zeta;
    match goal with
    | |- preserves _ (bind _ _) => apply preserves_bind; [|intro]
    | |- preserves _ (try_catch _ _) => apply preserves_try; [|intro]
    | |- preserves _ (match ?x with _ => _ end) => destruct x
    | |- preserves _ (if ?b then _ else _) => destruct b
    | |- preserves _ (ret _) => apply preserves_ret
    | |- preserves _ (throw _) => apply preserves_throw
    end);
  auto with pres.

Ltac prim := intros ? ? ? Hrun HP0; inversion Hrun; subst; exact HP0.
Ltac fin := match goal with H : (_, _) = (_, _) |- _ => inversion H; subst; assumption end.

Lemma http_nc r : preserves no_current (http r).
Proof. intros s x s' H HP. unfold http in H. destruct (net (clock s) r) as [dt []]; fin. Qed.
Lemma http_nh r : preserves no_historical (http r).
Proof. intros s x s' H HP. unfold http in H. destruct (net (clock s) r) as [dt []]; fin. Qed.
Lemma log_nc l : preserves no_current (log l). Proof. prim. Qed.
Lemma log_nh l : preserves no_historical (log l). Proof. prim. Qed.
Lemma now_nc : preserves no_current now. Proof. prim. Qed.
Lemma now_nh : preserves no_historical now. Proof. prim. Qed.
Lemma deref_nc l : preserves no_current (deref l).
Proof. intros s x s' H HP. unfold deref in H. destruct (nth_error (heap s) l); fin. Qed.
Lemma deref_nh l : preserves no_historical (deref l).
Proof. intros s x s' H HP. unfold deref in H. destruct (nth_error (heap s) l); fin. Qed.
Lemma heap_nc f : preserves no_current (modify (fun s => set_heap (f s) s)). Proof. prim. Qed.
Lemma heap_nh f : preserves no_historical (modify (fun s => set_heap (f s) s)). Proof. prim. Qed.
Lemma fget_nc k : preserves no_current (forecastCache_get k).
Proof.
  intros s x s' H HP. unfold forecastCache_get in H.
  destruct (cache_get ttl_forecast (clock s) k (forecastCache s)); fin.
Qed.
Lemma fget_nh k : preserves no_historical (forecastCache_get k).
Proof.
  intros s x s' H HP. unfold forecastCache_get in H.
  destruct (cache_get ttl_forecast (clock s) k (forecastCache s)); fin.
Qed.
Lemma fset_nc k v : preserves no_current (forecastCache_set k v). Proof. prim. Qed.
Lemma fset_nh k v : preserves no_historical (forecastCache_set k v). Proof. prim. Qed.
Lemma cget_nh k : preserves no_historical (currentCache_get k).
Proof.
  intros s x s' H HP. unfold currentCache_get in H.
  destruct (cache_get ttl_current (clock s) k (currentCache s)); fin.
Qed.
Lemma cset_nh k v : preserves no_historical (currentCache_set k v). Proof. prim. Qed.
Lemma hget_nc k : preserves no_current (historicalCache_get k).
Proof.
  intros s x s' H HP. unfold historicalCache_get in H.
  destruct (cache_get ttl_historical (clock s) k (historicalCache s)); fin.
Qed.
Lemma hset_nc k v : preserves no_current (historicalCache_set k v). Proof. prim. Qed.

#[local] Hint Resolve http_nc http_nh log_nc log_nh now_nc now_nh deref_nc deref_nh
  heap_nc heap_nh fget_nc fget_nh fset_nc fset_nh cget_nh cset_nh hget_nc hset_nc : pres.

(** Adapters do not touch the caches. *)
Lemma wa_getCurrent_nc q : preserves no_current (wa_getCurrent q).
Proof. unfold wa_getCurrent, wa_resolve. pres. Qed.
Lemma wa_getCurrent_nh q : preserves no_historical (wa_getCurrent q).
Proof. unfold wa_getCurrent, wa_resolve. pres. Qed.
Lemma wa_getForecast_nc q d : preserves no_current (wa_getForecast q d).
Proof. unfold wa_getForecast, wa_resolve. pres. Qed.
Lemma wa_getForecast_nh q d : preserves no_historical (wa_getForecast q d).
Proof. unfold wa_getForecast, wa_resolve. pres. Qed.
Lemma wa_getHistorical_nc q d : preserves no_current (wa_getHistorical q d).
Proof. unfold wa_getHistorical, wa_resolve. pres. Qed.
Lemma ow_getCurrent_nc q u : preserves no_current (ow_getCurrent q u).
Proof. unfold ow_getCurrent, ow_resolve. pres. Qed.
Lemma ow_getCurrent_nh q u : preserves no_historical (ow_getCurrent q u).
Proof. unfold ow_getCurrent, ow_resolve. pres. Qed.
Lemma ow_getForecast_nc q u d : preserves no_current (ow_getForecast q u d).
Proof. unfold ow_getForecast, ow_resolve. pres. Qed.
Lemma ow_getForecast_nh q u d : preserves no_historical (ow_getForecast q u d).
Proof. unfold ow_getForecast, ow_resolve. pres. Qed.

#[local] Hint Resolve wa_getCurrent_nc wa_getCurrent_nh wa_getForecast_nc wa_getForecast_nh
  wa_getHistorical_nc ow_getCurrent_nc ow_getCurrent_nh ow_getForecast_nc ow_getForecast_nh : pres.

Lemma getForecast_nc q u d : preserves no_current (getForecast q u d).
Proof. unfold getForecast. pres. Qed.
Lemma getForecast_nh q u d : preserves no_historical (getForecast q u d).
Proof. unfold getForecast. pres. Qed.
Lemma getCurrentWeather_nh q u : preserves no_historical (getCurrentWeather q u).
Proof. unfold getCurrentWeather. pres. Qed.
Lemma getHistorical_nc q d : preserves no_current (getHistorical q d).
Proof. unfold getHistorical. pres. Qed.
Lemma notify_nc l m p : preserves no_current (notify l m p).
Proof. unfold notify. pres. Qed.
Lemma notify_nh l m p : preserves no_historical (notify l m p).
Proof. unfold notify. pres. Qed.

#[local] Hint Resolve getForecast_nc getForecast_nh getCurrentWeather_nh getHistorical_nc
  notify_nc notify_nh : pres.

Lemma listAlerts_nc : preserves no_current listAlerts. Proof. prim. Qed.
Lemma listAlerts_nh : preserves no_historical listAlerts. Proof. prim. Qed.
#[local] Hint Resolve listAlerts_nc listAlerts_nh : pres.

(** With no provider configured, getCurrentWeather keeps the current cache
    empty. *)
Lemma getCurrentWeather_nc q u :
  truthy_str (weatherApiKey cfg) = false -> truthy_str (openWeatherApiKey cfg) = false ->
  preserves no_current (getCurrentWeather q u).
Proof.
  intros Hw Ho s r s' H HP. unfold getCurrentWeather in H.
  rewrite Hw, Ho in H. unfold bind, currentCache_get in H. rewrite HP in H.
  simpl in H. inversion H; subst. reflexivity.
Qed.

(** Without a WeatherAPI key, getHistorical keeps the historical cache empty. *)
Lemma getHistorical_nh q d :
  truthy_str (weatherApiKey cfg) = false -> preserves no_historical (getHistorical q d).
Proof.
  intros Hw s r s' H HP. unfold getHistorical in H.
  rewrite Hw in H. unfold bind, historicalCache_get in H. rewrite HP in H.
  simpl in H. inversion H; subst. reflexivity.
Qed.

#[local] Hint Resolve getCurrentWeather_nc getHistorical_nh : pres.

Lemma pollAlerts_pres P :
  (forall l, preserves P (evaluateAlert l)) -> (forall l, preserves P (deref l)) ->
  (forall x, preserves P (log x)) -> preserves P listAlerts -> preserves P pollAlerts.
Proof.
  intros He Hd Hl Hla. unfold pollAlerts. apply preserves_bind; [exact Hla|].
  intro items. induction items as [|l items IH]; simpl.
  - apply preserves_ret.
  - apply preserves_bind; [|intros; exact IH].
    apply preserves_try; [apply He|]. intro e. apply preserves_bind; auto.
Qed.

Lemma registerAlert_pres P a :
  (forall s m h n, P s -> P (set_alerts m (set_heap h (set_seed n s)))) ->
  preserves P (registerAlert a).
Proof.
  intros HP s r s' H Hs. unfold registerAlert, bind, generateId, now in H.
  inversion H; subst. now apply HP.
Qed.

Lemma evaluateAlert_nc l :
  truthy_str (weatherApiKey cfg) = false -> truthy_str (openWeatherApiKey cfg) = false ->
  preserves no_current (evaluateAlert l).
Proof. intros Hw Ho. unfold evaluateAlert. pres. Qed.

Lemma evaluateAlert_nh l :
  preserves no_historical (evaluateAlert l).
Proof. unfold evaluateAlert. pres. Qed.

Ltac run_step E IH :=
  match goal with
  | |- ?P (snd (?m ?s)) =>
      let x := fresh "x" in let y := fresh "y" in
      destruct (m s) as [x y] eqn:E; simpl
  end.

(** C5 and C9 rest on these: a cache that only a provider fills stays empty
    in every run of a deployment where that provider is not configured. *)
Lemma reachable_no_current s :
  truthy_str (weatherApiKey cfg) = false -> truthy_str (openWeatherApiKey cfg) = false ->
  reachable s -> no_current s.
Proof.
  intros Hw Ho R. induction R as [t0 seed0|s s' R IH Hst]; [reflexivity|].
  inversion Hst; subst; try (run_step E IH).
  - eapply getCurrentWeather_nc; eauto.
  - eapply getForecast_nc; eauto.
  - eapply getHistorical_nc; eauto.
  - eapply registerAlert_pres; [|exact E|exact IH]. intros. exact H.
  - inversion E; subst; exact IH.
  - eapply pollAlerts_pres; [| | | |exact E|exact IH]; intros;
      auto using evaluateAlert_nc with pres.
  - unfold startAlertScheduler in E. destruct (schedulerStarted s);
      inversion E; subst; exact IH.
  - inversion E; subst; exact IH.
  - exact IH.
Qed.

Lemma reachable_no_historical s :
  truthy_str (weatherApiKey cfg) = false -> reachable s -> no_historical s.
Proof.
  intros Hw R. induction R as [t0 seed0|s s' R IH Hst]; [reflexivity|].
  inversion Hst; subst; try (run_step E IH).
  - eapply getCurrentWeather_nh; eauto.
  - eapply getForecast_nh; eauto.
  - eapply getHistorical_nh; eauto.
  - eapply registerAlert_pres; [|exact E|exact IH]. intros. exact H.
  - inversion E; subst; exact IH.
  - eapply pollAlerts_pres; [| | | |exact E|exact IH]; intros;
      auto using evaluateAlert_nh with pres.
  - unfold startAlertScheduler in E. destruct (schedulerStarted s);
      inversion E; subst; exact IH.
  - inversion E; subst; exact IH.
  - exact IH.
Qed.

(** ** Terminal failures *)

(** C5 (what the code does).  With no provider configured, getCurrentWeather fails
    with the terminal error "No weather provider available..." in every state
    the process can reach, and leaves the state unchanged: no network request
    at all.  The same error value ends a call where only WeatherAPI is
    configured and it failed: the terminal error does not tell "no provider
    configured" from "the configured provider failed". *)
Theorem getCurrentWeather_terminal_error q u s :
  (truthy_str (weatherApiKey cfg) = false -> truthy_str (openWeatherApiKey cfg) = false ->
   reachable s -> getCurrentWeather q u s = (inl (Error no_provider_msg), s)) /\
  (forall s0 e s2,
   truthy_str (weatherApiKey cfg) = true -> truthy_str (openWeatherApiKey cfg) = false ->
   currentCache_get (current_key q u) s = (inr None, s0) ->
   wa_getCurrent q s0 = (inl e, s2) ->
   exists s3, getCurrentWeather q u s = (inl (Error no_provider_msg), s3)).
Proof.
  split.
  - intros Hw Ho R. pose proof (reachable_no_current s Hw Ho R) as HP.
    unfold getCurrentWeather. rewrite Hw, Ho. unfold bind, currentCache_get.
    unfold no_current in HP. rewrite HP. simpl. rewrite <- HP.
    now rewrite set_currentCache_id.
  - intros s0 e s2 Hw Ho Hc Hf.
    unfold getCurrentWeather. fold (current_key q u).
    rewrite (bind_ok _ _ s None s0) by exact Hc.
    rewrite Hw. rewrite (bind_ok _ _ s0 None _)
      by (rewrite (try_err _ _ _ e s2) by (apply bind_err; exact Hf); reflexivity).
    cbn beta iota. rewrite Ho. eexists. reflexivity.
Qed.

(** ** Which providers historical data asks *)

Definition is_wa_request (r : Request) : bool :=
  match r with WAGet _ _ => true | _ => false end.

(** Since the log of requests read [p], only WeatherAPI has been asked. *)
Definition wa_requests_since (p : list Request) (s : St) : Prop :=
  exists new, requests s = (p ++ new)%list /\ forallb is_wa_request new = true.

Lemma http_wa p ep q : preserves (wa_requests_since p) (http (WAGet ep q)).
Proof.
  intros s x s' H [new [Hr Hf]]. unfold http in H.
  destruct (net (clock s) (WAGet ep q)) as [dt []];
    inversion H; subst; exists (new ++ [WAGet ep q])%list; simpl;
    (split; [rewrite Hr; symmetry; apply app_assoc | rewrite forallb_app, Hf; reflexivity]).
Qed.
Lemma log_wa p l : preserves (wa_requests_since p) (log l). Proof. prim. Qed.
Lemma now_wa p : preserves (wa_requests_since p) now. Proof. prim. Qed.
Lemma hget_wa p k : preserves (wa_requests_since p) (historicalCache_get k).
Proof.
  intros s x s' H HP. unfold historicalCache_get in H.
  destruct (cache_get ttl_historical (clock s) k (historicalCache s)); fin.
Qed.
Lemma hset_wa p k v : preserves (wa_requests_since p) (historicalCache_set k v).
Proof. prim. Qed.

#[local] Hint Resolve http_wa log_wa now_wa hget_wa hset_wa : pres.

Lemma wa_getHistorical_wa p q d : preserves (wa_requests_since p) (wa_getHistorical q d).
Proof. unfold wa_getHistorical, wa_resolve. pres. Qed.
#[local] Hint Resolve wa_getHistorical_wa : pres.

Lemma getHistorical_wa p q d : preserves (wa_requests_since p) (getHistorical q d).
Proof. unfold getHistorical. pres. Qed.

Definition historical_key (q : LocationQuery) (dateISO : string) : Key :=
  keyOf "historical" q (XDate dateISO).

(** C9.  getHistorical only ever sends WeatherAPI requests; OpenWeather's
    historical function returns [null] without a request; without a
    WeatherAPI key, getHistorical fails with "Historical data not
    available..." in every reachable state, leaving it unchanged; and with a
    key, a cache miss followed by a WeatherAPI failure ends in the same
    terminal error.  The OpenWeather key plays no part in any of this. *)
Theorem getHistorical_weatherapi_only q d s :
  (forall r s', getHistorical q d s = (r, s') ->
     exists new, requests s' = (requests s ++ new)%list /\ forallb is_wa_request new = true) /\
  (forall s', ow_getHistorical s' = (inr None, s')) /\
  (truthy_str (weatherApiKey cfg) = false -> reachable s ->
     getHistorical q d s = (inl (Error no_historical_msg), s)) /\
  (forall s0 e s2, truthy_str (weatherApiKey cfg) = true ->
     historicalCache_get (historical_key q d) s = (inr None, s0) ->
     wa_getHistorical q d s0 = (inl e, s2) ->
     exists s3, getHistorical q d s = (inl (Error no_historical_msg), s3)).
Proof.
  split; [|split; [|split]].
  - intros r s' H. apply (getHistorical_wa (requests s) q d s r s' H).
    exists []. now rewrite app_nil_r.
  - intro s'. reflexivity.
  - intros Hw R. pose proof (reachable_no_historical s Hw R) as HP.
    unfold getHistorical. rewrite Hw. unfold bind, historicalCache_get.
    unfold no_historical in HP. rewrite HP. simpl. rewrite <- HP.
    destruct s; reflexivity.
  - intros s0 e s2 Hw Hc Hf. unfold getHistorical. fold (historical_key q d).
    rewrite (bind_ok _ _ s None s0) by exact Hc.
    rewrite Hw. rewrite (bind_ok _ _ s0 None _)
      by (rewrite (try_err _ _ _ e s2) by (apply bind_err; exact Hf); reflexivity).
    cbn beta iota. eexists. reflexivity.
Qed.

(** ** What crosses the aggregator boundary *)

(** The shape shared by getCurrentWeather and getForecast: a cache lookup,
    WeatherAPI under a handler, OpenWeather without one, then the terminal
    error.  A failure of that shape is the terminal error or an error raised
    by the OpenWeather call. *)
Lemma fallback_inl {A} (get : M (option A)) (set : A -> M unit) (wa ow : M A)
    (w : JsError -> LogLine) (bw bo : bool) s e s' :
  (forall s r s', get s = (r, s') -> exists v, r = inr v) ->
  (forall a s r s', set a s = (r, s') -> r = inr tt) ->
  (cached <- get;;
   match cached with
   | Some c => ret c
   | None =>
       data <- (if bw then try_catch (c <- wa;; ret (Some c)) (fun e => log (w e);; ret None)
                else ret None);;
       data <- (match data with
                | Some _ => ret data
                | None => if bo then c <- ow;; ret (Some c) else ret None
                end);;
       match data with
       | None => throw (Error no_provider_msg)
       | Some d => set d;; ret d
       end
   end) s = (inl e, s') ->
  e = Error no_provider_msg \/ (bo = true /\ exists s1, ow s1 = (inl e, s')).
Proof.
  intros Hg Hs H. apply bind_inl in H as [H|[c [s0 [_ H]]]].
  - destruct (Hg _ _ _ H) as [v Hv]; discriminate.
  - destruct c as [c|]; [inversion H|].
    apply bind_inl in H as [H|[d [s1 [_ H]]]].
    + exfalso. destruct bw; [|inversion H]. unfold try_catch in H.
      destruct (bind wa (fun c => ret (Some c)) s0) as [[e0|a] s2]; inversion H.
    + apply bind_inl in H as [H|[d2 [s2 [_ H]]]].
      * destruct d as [d|]; [inversion H|]. destruct bo; [|inversion H].
        apply bind_inl in H as [H|[a [s3 [_ H]]]]; [right; eauto | inversion H].
      * destruct d2 as [d2|].
        -- apply bind_inl in H as [H|[x [s3 [_ H]]]]; [|inversion H].
           apply Hs in H. discriminate.
        -- inversion H. now left.
Qed.

(** C1 (what the code does).  A failure of getCurrentWeather or getForecast is either
    the terminal "No weather provider available..." error or, when the
    OpenWeather key is set, exactly an error that the OpenWeather adapter
    raised: OpenWeather's failures are not caught by the aggregator and reach
    the caller.  WeatherAPI failures never reach it.  A failure of
    getHistorical is always its terminal "Historical data not available..."
    error. *)
Theorem aggregator_failures q u n dateISO s e s' :
  (getCurrentWeather q u s = (inl e, s') ->
     e = Error no_provider_msg \/
     (truthy_str (openWeatherApiKey cfg) = true /\
      exists s1, ow_getCurrent q (Some (coalesce u (defaultUnits cfg))) s1 = (inl e, s'))) /\
  (getForecast q u n s = (inl e, s') ->
     e = Error no_provider_msg \/
     (truthy_str (openWeatherApiKey cfg) = true /\
      exists s1, ow_getForecast q (Some (coalesce u (defaultUnits cfg))) (Some (coalesce n 3%nat)) s1
                 = (inl e, s'))) /\
  (getHistorical q dateISO s = (inl e, s') -> e = Error no_historical_msg).
Proof.
  split; [|split].
  - intro H. unfold getCurrentWeather in H.
    refine (fallback_inl _ _ _ _
              (Warn "WeatherAPI current failed, falling back to OpenWeather:") _ _ _ _ _ _ _ H).
    + intros s0 r s1 Hg. unfold currentCache_get in Hg.
      destruct (cache_get _ _ _ _). inversion Hg; eauto.
    + intros a s0 r s1 Hs. inversion Hs. reflexivity.
  - intro H. unfold getForecast in H.
    refine (fallback_inl _ _ _ _
              (Warn "WeatherAPI forecast failed, falling back to OpenWeather:") _ _ _ _ _ _ _ H).
    + intros s0 r s1 Hg. unfold forecastCache_get in Hg.
      destruct (cache_get _ _ _ _). inversion Hg; eauto.
    + intros a s0 r s1 Hs. inversion Hs. reflexivity.
  - intro H. unfold getHistorical in H.
    apply bind_inl in H as [H|[c [s0 [_ H]]]].
    + unfold historicalCache_get in H. destruct (cache_get _ _ _ _). discriminate.
    + destruct c as [c|]; [inversion H|].
      apply bind_inl in H as [H|[d [s1 [_ H]]]].
      * exfalso. destruct (truthy_str (weatherApiKey cfg)); [|inversion H].
        unfold try_catch in H.
        destruct (bind (wa_getHistorical q dateISO) (fun h => ret (Some h)) s0)
          as [[e0|a] s2]; inversion H.
      * destruct d as [d|]; [|now inversion H].
        apply bind_inl in H as [H|[x [s3 [_ H]]]]; inversion H.
Qed.

(** ** Queries the adapters reject *)

(** A query is addressable when it carries both coordinates or a non-empty
    city: the two modes [resolveQuery] and [resolveQueryParams] accept. *)
Definition query_addressable (q : LocationQuery) : bool :=
  match lat q, lon q with Some _, Some _ => true | _, _ => truthy_ostr (city q) end.

Lemma resolve_unaddressable q :
  query_addressable q = false -> resolveQuery q = None /\ resolveQueryParams q = None.
Proof.
  destruct q as [c k la lo]; unfold query_addressable, resolveQuery, resolveQueryParams;
    cbn [lat lon city country].
  destruct la, lo, c as [c|]; simpl; try discriminate; intro H; try rewrite H; auto.
Qed.

(** C7 (amended).  For a query with neither both coordinates nor a
    non-empty city, the five adapter operations that take a query (current,
    forecast and historical of WeatherAPI; current and forecast of
    OpenWeather) fail with the adapter's "provide city or lat/lon" error and
    leave the state as it was: no request is sent.  OpenWeather's historical
    function takes no query and never fails: it returns [null]. *)
Theorem adapters_reject_unaddressable q u n d s :
  query_addressable q = false ->
  wa_getCurrent q s = (inl (Error wa_invalid_msg), s) /\
  wa_getForecast q n s = (inl (Error wa_invalid_msg), s) /\
  wa_getHistorical q d s = (inl (Error wa_invalid_msg), s) /\
  ow_getCurrent q u s = (inl (Error ow_invalid_msg), s) /\
  ow_getForecast q u n s = (inl (Error ow_invalid_msg), s) /\
  ow_getHistorical s = (inr None, s).
Proof.
  intro H. destruct (resolve_unaddressable q H) as [Hw Ho].
  unfold wa_getCurrent, wa_getForecast, wa_getHistorical, ow_getCurrent, ow_getForecast,
    wa_resolve, ow_resolve.
  rewrite Hw, Ho. repeat split.
Qed.

(** ** What registration stores *)

Lemma map_set_In {V} k (v : V) m : In (k, v) (map_set k v m).
Proof.
  induction m as [|[k' v'] m IH]; simpl; [now left|].
  destruct (String.eqb k' k) eqn:E; [apply String.eqb_eq in E; subst; now left | now right].
Qed.

(** C8 (what the code does).  registerAlert checks nothing about channel and
    webhookUrl: whatever the input, the alert object it returns carries the
    input's channel and webhookUrl unchanged, is appended to the object
    store, and is entered in the registry under its fresh id. *)
Theorem registerAlert_stores_as_given a s r s' :
  registerAlert a s = (r, s') ->
  exists w, r = inr w /\
    channel w = i_channel a /\ webhookUrl w = i_webhookUrl a /\
    nth_error (heap s') (List.length (heap s)) = Some w /\
    In (a_id w, List.length (heap s)) (alerts s').
Proof.
  unfold registerAlert, bind, generateId, now. intro H. inversion H; subst. clear H.
  eexists. split; [reflexivity|]. cbn [channel webhookUrl a_id heap alerts set_alerts set_heap set_seed].
  split; [reflexivity|]. split; [reflexivity|]. split.
  - rewrite nth_error_app2 by lia. rewrite Nat.sub_diag. reflexivity.
  - apply map_set_In.
Qed.

(** ** Sensitivity *)

(** The effective threshold as the spec words it: 0.9 times the configured
    one for [high], 1.1 times for [low], unchanged for [medium] or none. *)
Definition spec_effective_threshold (th : Q) (sens : option Sensitivity) : Q :=
  match sens with
  | Some high => (9 # 10) * th
  | Some low => (11 # 10) * th
  | Some medium | None => th
  end.

(** Whether a threshold condition of type [ty] holds of [c] at threshold [t]. *)
Definition trips (ty : AlertConditionType) (t : Q) (c : CurrentWeather) : bool :=
  match ty with
  | temp_above => Qle_bool t (temperatureC c)
  | temp_below => Qle_bool (temperatureC c) t
  | wind_above => Qle_bool t (coalesce (windKph c) 0)
  | rain => false
  end.

Definition trip_message (ty : AlertConditionType) : Q -> string -> AlertMessage :=
  match ty with
  | temp_above => MsgTempAbove
  | temp_below => MsgTempBelow
  | _ => MsgWind
  end.

Lemma trips_proper ty t t' c : t == t' -> trips ty t c = trips ty t' c.
Proof.
  intro E. destruct ty; simpl; try reflexivity;
    apply Bool.eq_true_iff_eq; rewrite !Qle_bool_iff; rewrite E; reflexivity.
Qed.

(** C3.  The effective threshold of [adjustThreshold]: the configured one
    for medium or no sensitivity, and the double products [th * 0.9] for
    high and [th * 1.1] for low.  An alert of a threshold type with
    threshold [th] notifies exactly when the fetched current conditions pass
    that effective threshold ([>=] for temp_above and wind_above, [<=] for
    temp_below, with a missing wind speed read as 0); a rain alert notifies
    exactly when some forecast day's rain chance is at least the effective
    threshold of the constant 50.  The products of the spec's examples are
    exact doubles: 30 * 0.9 = 27, 30 * 1.1 = 33 and 50 * 0.9 = 45; so at 28
    degrees a temp_above alert at 30 trips with sensitivity high and not
    with sensitivity low. *)
Theorem alert_threshold_sensitivity l s alert :
  (forall th, adjustThreshold th None = th /\ adjustThreshold th (Some medium) = th /\
     adjustThreshold th (Some high) = js_mul th (to_double (9 # 10)) /\
     adjustThreshold th (Some low) = js_mul th (to_double (11 # 10))) /\
  (nth_error (heap s) l = Some alert -> ctype (a_condition alert) <> rain ->
   forall th c s1, threshold (a_condition alert) = Some th ->
   getCurrentWeather (a_location alert) None s = (inr c, s1) ->
   evaluateAlert l s =
     if trips (ctype (a_condition alert)) (adjustThreshold th (sensitivity alert)) c
     then notify l (trip_message (ctype (a_condition alert)) (adjustThreshold th (sensitivity alert))
                      (loc_name (location c))) (PCurrent c) s1
     else (inr tt, s1)) /\
  (nth_error (heap s) l = Some alert -> ctype (a_condition alert) = rain ->
   forall f s1,
   getForecast (a_location alert) None (Some (coalesce (daysAhead (a_condition alert)) 1%nat)) s
     = (inr f, s1) ->
   evaluateAlert l s =
     if existsb (fun d => Qle_bool (adjustThreshold 50 (sensitivity alert))
                                   (inject_Z (coalesce (chanceOfRainPct d) 0%Z))) (days f)
     then notify l (MsgRain (coalesce (daysAhead (a_condition alert)) 1%nat) (f_location f))
                   (PForecast f) s1
     else (inr tt, s1)) /\
  (adjustThreshold 30 (Some high) == 27 /\ adjustThreshold 30 (Some low) == 33 /\
   adjustThreshold 50 (Some high) == 45 /\
   forall c, temperatureC c == 28 ->
     trips temp_above (adjustThreshold 30 (Some high)) c = true /\
     trips temp_above (adjustThreshold 30 (Some low)) c = false).
Proof.
  assert (H27 : adjustThreshold 30 (Some high) == 27) by (vm_compute; reflexivity).
  assert (H33 : adjustThreshold 30 (Some low) == 33) by (vm_compute; reflexivity).
  split; [intro th; repeat split|split; [|split]].
  - intros Hh Hr th c s1 Hth Hc.
    unfold evaluateAlert. rewrite (bind_ok _ _ s alert s) by (unfold deref; now rewrite Hh).
    cbn beta zeta.
    destruct (ctype (a_condition alert)); [contradiction| | |];
      rewrite (bind_ok _ _ s c s1 Hc); rewrite Hth; cbn [trips trip_message];
      destruct (Qle_bool _ _); reflexivity.
  - intros Hh Hr f s1 Hf.
    unfold evaluateAlert. rewrite (bind_ok _ _ s alert s) by (unfold deref; now rewrite Hh).
    cbn beta zeta. rewrite Hr. rewrite (bind_ok _ _ s f s1 Hf).
    destruct (existsb _ _); reflexivity.
  - split; [exact H27|]. split; [exact H33|]. split; [vm_compute; reflexivity|].
    intros c Hc. rewrite (trips_proper _ _ _ c H27), (trips_proper _ _ _ c H33).
    simpl. rewrite Hc. split; reflexivity.
Qed.

(** ** Alerts without a threshold *)

Definition not_alert_line (id : string) (x : LogLine) : bool :=
  match x with AlertLine i _ _ => negb (String.eqb i id) | _ => true end.

Definition not_webhook (id : string) (r : Request) : bool :=
  match r with WebhookPost _ i _ _ _ => negb (String.eqb i id) | _ => true end.

Fixpoint nodup_strings (l : list string) : bool :=
  match l with
  | [] => true
  | x :: r => negb (existsb (String.eqb x) r) && nodup_strings r
  end.

(** The registry as registerAlert and removeAlert keep it: distinct ids, each
    naming an object whose own id it is. *)
Definition registry_wf (s : St) : bool :=
  nodup_strings (map fst (alerts s)) &&
  forallb (fun kv => match nth_error (heap s) (snd kv) with
                     | Some w => String.eqb (a_id w) (fst kv)
                     | None => false
                     end) (alerts s).

Lemma nodup_strings_unique {V} (m : list (string * V)) k v v' :
  nodup_strings (map fst m) = true -> In (k, v) m -> In (k, v') m -> v = v'.
Proof.
  induction m as [|[k0 v0] m IH]; simpl; [contradiction|].
  intros Hn H1 H2. apply andb_prop in Hn as [Hx Hn].
  assert (Hk : forall w, In (k0, w) m -> False).
  { intros w Hw. apply negb_true_iff in Hx.
    assert (Ht : existsb (String.eqb k0) (map fst m) = true).
    { apply existsb_exists. exists k0. split; [|apply String.eqb_refl].
      apply in_map_iff. exists (k0, w). auto. }
    congruence. }
  destruct H1 as [E1|H1], H2 as [E2|H2].
  - inversion E1; inversion E2; subst; reflexivity.
  - inversion E1; subst. exfalso. eauto.
  - inversion E2; subst. exfalso. eauto.
  - eauto.
Qed.

Lemma registry_wf_id s k l w :
  registry_wf s = true -> In (k, l) (alerts s) -> nth_error (heap s) l = Some w -> a_id w = k.
Proof.
  intros Hw Hin Hh. apply andb_prop in Hw as [_ Hw]. rewrite forallb_forall in Hw.
  specialize (Hw _ Hin). simpl in Hw. rewrite Hh in Hw. now apply String.eqb_eq.
Qed.

Lemma list_update_other {A} n m f (h : list A) :
  n <> m -> nth_error (list_update n f h) m = nth_error h m.
Proof.
  revert n m. induction h as [|x h IH]; intros [|n] [|m] E; simpl; auto; try lia.
Qed.

Lemma map_list_update {A B} (g : A -> B) n f (h : list A) :
  (forall x, g (f x) = g x) -> map g (list_update n f h) = map g h.
Proof.
  intro Hg. revert n. induction h as [|x h IH]; intros [|n]; simpl; auto.
  - now rewrite Hg.
  - now rewrite IH.
Qed.

Section Quiet.

(** The object [l] holding [a]; the ids [ids] of the object store; the log
    and the requests as they stood. *)
Variables (l : nat) (a : WeatherAlert) (ids : list string) (lp : list LogLine)
  (rp : list Request).

(** Since then: [a] untouched, the store's ids the same, and no console line
    or webhook post for [a]'s id. *)
Definition quiet (s : St) : Prop :=
  nth_error (heap s) l = Some a /\ map a_id (heap s) = ids /\
  (exists nl, logs s = (lp ++ nl)%list /\ forallb (not_alert_line (a_id a)) nl = true) /\
  (exists nr, requests s = (rp ++ nr)%list /\ forallb (not_webhook (a_id a)) nr = true).

Lemma http_quiet r : not_webhook (a_id a) r = true -> preserves quiet (http r).
Proof.
  intros Hr s x s' H [H1 [H2 [H3 [nr [Hq Hf]]]]]. unfold http in H.
  destruct (net (clock s) r) as [dt []]; inversion H; subst;
    (split; [exact H1|split; [exact H2|split; [exact H3|]]]);
    exists (nr ++ [r])%list;
    (split; [rewrite Hq; symmetry; apply app_assoc
            | rewrite forallb_app, Hf; cbn [forallb]; rewrite Hr; reflexivity]).
Qed.

Lemma log_quiet x : not_alert_line (a_id a) x = true -> preserves quiet (log x).
Proof.
  intros Hx s y s' H [H1 [H2 [[nl [Hq Hf]] H4]]]. inversion H; subst.
  split; [exact H1|split; [exact H2|split; [|exact H4]]].
  exists (nl ++ [x])%list.
  split; [rewrite Hq; symmetry; apply app_assoc
         | rewrite forallb_app, Hf; cbn [forallb]; rewrite Hx; reflexivity].
Qed.

Lemma http_quiet_wa ep q : preserves quiet (http (WAGet ep q)).
Proof. now apply http_quiet. Qed.
Lemma http_quiet_ow ep p u : preserves quiet (http (OWGet ep p u)).
Proof. now apply http_quiet. Qed.
Lemma log_quiet_warn w e : preserves quiet (log (Warn w e)).
Proof. now apply log_quiet. Qed.
Lemma now_quiet : preserves quiet now. Proof. prim. Qed.
Lemma deref_quiet l' : preserves quiet (deref l').
Proof. intros s x s' H HP. unfold deref in H. destruct (nth_error (heap s) l'); fin. Qed.
Lemma cget_quiet k : preserves quiet (currentCache_get k).
Proof.
  intros s x s' H HP. unfold currentCache_get in H.
  destruct (cache_get ttl_current (clock s) k (currentCache s)); fin.
Qed.
Lemma cset_quiet k v : preserves quiet (currentCache_set k v). Proof. prim. Qed.
Lemma fget_quiet k : preserves quiet (forecastCache_get k).
Proof.
  intros s x s' H HP. unfold forecastCache_get in H.
  destruct (cache_get ttl_forecast (clock s) k (forecastCache s)); fin.
Qed.
Lemma fset_quiet k v : preserves quiet (forecastCache_set k v). Proof. prim. Qed.

#[local] Hint Resolve http_quiet_wa http_quiet_ow log_quiet_warn now_quiet deref_quiet
  cget_quiet cset_quiet fget_quiet fset_quiet : pres.

Lemma getCurrentWeather_quiet q u : preserves quiet (getCurrentWeather q u).
Proof.
  unfold getCurrentWeather, wa_getCurrent, ow_getCurrent, wa_resolve, ow_resolve. pres.
Qed.
Lemma getForecast_quiet q u d : preserves quiet (getForecast q u d).
Proof.
  unfold getForecast, wa_getForecast, ow_getForecast, wa_resolve, ow_resolve. pres.
Qed.

#[local] Hint Resolve getCurrentWeather_quiet getForecast_quiet : pres.

(** Notifying another object, whose id is not [a]'s. *)
Lemma notify_quiet l' m p :
  l' <> l -> nth_error ids l' <> Some (a_id a) -> preserves quiet (notify l' m p).
Proof.
  intros Hne Hid s x s' H HQ. unfold notify in H.
  rewrite (bind_ok _ _ s (clock s) s) in H by reflexivity.
  set (s1 := set_heap (list_update l' (stamp (clock s)) (heap s)) s) in H.
  rewrite (bind_ok _ _ s tt s1) in H by reflexivity.
  assert (Q1 : quiet s1).
  { destruct HQ as [H1 [H2 H34]]. split; [|split; [|exact H34]]; simpl.
    - rewrite list_update_other by auto. exact H1.
    - rewrite map_list_update by reflexivity. exact H2. }
  destruct (nth_error (heap s1) l') as [al|] eqn:E.
  - rewrite (bind_ok _ _ s1 al s1) in H by (unfold deref; now rewrite E).
    assert (Ha : a_id al <> a_id a).
    { intro Heq. apply Hid. destruct Q1 as [_ [H2 _]]. rewrite <- H2.
      rewrite nth_error_map, E. simpl. now rewrite Heq. }
    assert (Hs : String.eqb (a_id al) (a_id a) = false) by now apply String.eqb_neq.
    assert (Hp : preserves quiet (match channel al with
      | console => log (AlertLine (a_id al) m p)
      | webhook =>
          if truthy_ostr (webhookUrl al) then
            try_catch (http (WebhookPost (coalesce (webhookUrl al) "") (a_id al) m al p);; ret tt)
              (fun e => log (Warn "Webhook notify failed:" e))
          else ret tt
      end)).
    { destruct (channel al).
      + apply log_quiet. simpl. now rewrite Hs.
      + destruct (truthy_ostr (webhookUrl al)); [|apply preserves_ret].
        apply preserves_try; [|intro; apply log_quiet_warn].
        apply preserves_bind; [|intro; apply preserves_ret].
        apply http_quiet. simpl. now rewrite Hs. }
    exact (Hp s1 x s' H Q1).
  - rewrite (bind_err _ _ s1 TypeError s1) in H by (unfold deref; now rewrite E).
    inversion H; subst. exact Q1.
Qed.

#[local] Hint Resolve notify_quiet : pres.

Lemma evaluateAlert_other_quiet l' :
  l' <> l -> nth_error ids l' <> Some (a_id a) -> preserves quiet (evaluateAlert l').
Proof. intros Hne Hid. unfold evaluateAlert. pres. Qed.

(** [a] itself, a threshold type without a threshold. *)
Lemma evaluateAlert_self_quiet :
  ctype (a_condition a) <> rain -> threshold (a_condition a) = None ->
  preserves quiet (evaluateAlert l).
Proof.
  intros Hr Hth s x s' H HQ. unfold evaluateAlert in H.
  rewrite (bind_ok _ _ s a s) in H by (unfold deref; now rewrite (proj1 HQ)).
  cbn beta zeta in H. rewrite Hth in H.
  destruct (ctype (a_condition a)); [contradiction| | |];
    refine (preserves_bind quiet _ _ (getCurrentWeather_quiet _ _) _ s x s' H HQ);
    intro; apply preserves_ret.
Qed.

Lemma sweep_quiet items :
  ctype (a_condition a) <> rain -> threshold (a_condition a) = None ->
  (forall l', In l' items -> l' = l \/ (l' <> l /\ nth_error ids l' <> Some (a_id a))) ->
  preserves quiet (sweep items).
Proof.
  intros Hr Hth. induction items as [|l' items IH]; intro Hi; simpl; [apply preserves_ret|].
  apply preserves_bind; [|intro; apply IH; intros; apply Hi; now right].
  apply preserves_try; [|intro; pres].
  destruct (Hi l' (or_introl eq_refl)) as [->|[Hne Hid]].
  - now apply evaluateAlert_self_quiet.
  - now apply evaluateAlert_other_quiet.
Qed.

End Quiet.

(** C10.  Take a registered alert object [l] holding [a], of type
    temp_above, temp_below or wind_above and without a threshold, in a
    well-formed registry.  Whatever the providers answer, a sweep of
    pollAlerts leaves the object exactly as it was (in particular
    lastTriggeredAt is not stamped), writes no console alert line with its id
    and posts no webhook with its id. *)
Theorem pollAlerts_skips_thresholdless s l a r s' :
  registry_wf s = true -> In l (map snd (alerts s)) -> nth_error (heap s) l = Some a ->
  ctype (a_condition a) <> rain -> threshold (a_condition a) = None ->
  pollAlerts s = (r, s') ->
  nth_error (heap s') l = Some a /\
  (exists nl, logs s' = (logs s ++ nl)%list /\ forallb (not_alert_line (a_id a)) nl = true) /\
  (exists nr, requests s' = (requests s ++ nr)%list /\ forallb (not_webhook (a_id a)) nr = true).
Proof.
  intros Hwf Hin Hh Hr Hth H.
  unfold pollAlerts in H. rewrite (bind_ok _ _ s (map snd (alerts s)) s) in H by reflexivity.
  apply in_map_iff in Hin as [[k l0] [E Hk]]. simpl in E. subst l0.
  pose proof (registry_wf_id _ _ _ _ Hwf Hk Hh) as Hka.
  assert (Hq : quiet l a (map a_id (heap s)) (logs s) (requests s) s).
  { split; [exact Hh|split; [reflexivity|split]];
      (exists []; split; [symmetry; apply app_nil_r | reflexivity]). }
  destruct (sweep_quiet l a (map a_id (heap s)) (logs s) (requests s) (map snd (alerts s))
              Hr Hth) with (s := s) (r := r) (s' := s') as [H1 [_ [H3 H4]]];
    [| exact H | exact Hq | auto].
  intros l' Hl'. destruct (Nat.eq_dec l' l) as [->|Hne]; [now left|right].
  split; [exact Hne|]. intro Hid.
  rewrite nth_error_map in Hid.
  destruct (nth_error (heap s) l') as [w|] eqn:Ew; [|discriminate]. simpl in Hid.
  injection Hid as Hid.
  apply in_map_iff in Hl' as [[k' l1] [E' Hk']]. simpl in E'. subst l1.
  pose proof (registry_wf_id _ _ _ _ Hwf Hk' Ew) as Hkw.
  apply andb_prop in Hwf as [Hnd _].
  apply Hne. apply (nodup_strings_unique (alerts s) (a_id a)); [exact Hnd| |].
  - rewrite <- Hkw, Hid in Hk'. exact Hk'.
  - rewrite <- Hka in Hk. exact Hk.
Qed.

(** ** Forecast bucketing *)

(** The samples of date [d], in the order OpenWeather sent them. *)
Definition samples_of (items : list OWItem) (d : string) : list OWItem :=
  filter (fun it => String.eqb (item_date it) d) items.

Definition temps_c (units : Units) (S : list OWItem) : list Q :=
  map (fun it => q_to_c units (it_temp it)) S.
Definition temps_f (units : Units) (S : list OWItem) : list Q :=
  map (fun it => q_to_f units (it_temp it)) S.

Definition mean (l : list Q) : Q :=
  (fold_right Qplus 0 l / inject_Z (Z.of_nat (List.length l)))%Q.

Definition max_of (l : list Q) (m : Q) : Prop := In m l /\ forall x, In x l -> (x <= m)%Q.
Definition min_of (l : list Q) (m : Q) : Prop := In m l /\ forall x, In x l -> (m <= x)%Q.

(** The percentage of [k] slots out of [n]. *)
Definition pct (k n : nat) : Q := (inject_Z (Z.of_nat k) / inject_Z (Z.of_nat n) * 100)%Q.

(** [c] is [x] rounded to the nearest integer (halves go up). *)
Definition rounds_to (x : Q) (c : Z) : Prop :=
  (inject_Z c - (1 # 2) <= x /\ x < inject_Z c + (1 # 2))%Q.

Definition rain_slot (it : OWItem) : bool := truthy_oQ (it_rain3h it).
Definition snow_slot (it : OWItem) : bool := truthy_oQ (it_snow3h it).

(** What the spec asks of a reported day [fd], from the samples of its date. *)
Definition day_summary (units : Units) (items : list OWItem) (fd : ForecastDay) : Prop :=
  let S := samples_of items (fd_date fd) in
  S <> [] /\
  (exists m, avgTempC fd = Some m /\ (m == mean (temps_c units S))%Q) /\
  (exists m, avgTempF fd = Some m /\ (m == mean (temps_f units S))%Q) /\
  (exists m, maxTempC fd = Some m /\ max_of (temps_c units S) m) /\
  (exists m, maxTempF fd = Some m /\ max_of (temps_f units S) m) /\
  (exists m, minTempC fd = Some m /\ min_of (temps_c units S) m) /\
  (exists m, minTempF fd = Some m /\ min_of (temps_f units S) m) /\
  (exists c, chanceOfRainPct fd = Some c /\
             rounds_to (pct (List.length (filter rain_slot S)) (List.length S)) c) /\
  (exists c, chanceOfSnowPct fd = Some c /\
             rounds_to (pct (List.length (filter snow_slot S)) (List.length S)) c).

Definition add_all (units : Units) (S : list OWItem) (b : Bucket) : Bucket :=
  fold_left (fun b it => add_item units it b) S b.

Lemma lookup_update k k2 f m :
  lookup_bucket k2 (update_bucket k f m) =
  if String.eqb k k2 then Some (f (coalesce (lookup_bucket k m) empty_bucket))
  else lookup_bucket k2 m.
Proof.
  induction m as [|[k' b] m IH]; simpl.
  - destruct (String.eqb k k2); reflexivity.
  - destruct (String.eqb k' k) eqn:E1.
    + apply String.eqb_eq in E1. subst k'. simpl.
      destruct (String.eqb k k2); reflexivity.
    + simpl. rewrite IH.
      destruct (String.eqb k' k2) eqn:E2, (String.eqb k k2) eqn:E3; try reflexivity.
      apply String.eqb_eq in E2, E3. subst. rewrite String.eqb_refl in E1. discriminate.
Qed.

Lemma lookup_fold units k items m :
  lookup_bucket k (fold_left (fun m it => update_bucket (item_date it) (add_item units it) m)
                     items m) =
  match lookup_bucket k m with
  | Some b => Some (add_all units (samples_of items k) b)
  | None => if existsb (fun it => String.eqb (item_date it) k) items
            then Some (add_all units (samples_of items k) empty_bucket) else None
  end.
Proof.
  unfold samples_of, add_all. revert m.
  induction items as [|it items IH]; intro m; simpl.
  - destruct (lookup_bucket k m); reflexivity.
  - rewrite IH, lookup_update.
    destruct (String.eqb (item_date it) k) eqn:E; simpl.
    + apply String.eqb_eq in E. rewrite E. destruct (lookup_bucket k m); reflexivity.
    + reflexivity.
Qed.

Lemma lookup_aggregate units k items :
  lookup_bucket k (aggregate units items) =
  if existsb (fun it => String.eqb (item_date it) k) items
  then Some (add_all units (samples_of items k) empty_bucket) else None.
Proof. unfold aggregate. now rewrite lookup_fold. Qed.

Lemma add_all_fields units S b :
  tempsC (add_all units S b) = (tempsC b ++ temps_c units S)%list /\
  tempsF (add_all units S b) = (tempsF b ++ temps_f units S)%list /\
  totalSlots (add_all units S b) = (totalSlots b + List.length S)%nat /\
  rainSlots (add_all units S b) = (rainSlots b + List.length (filter rain_slot S))%nat /\
  snowSlots (add_all units S b) = (snowSlots b + List.length (filter snow_slot S))%nat.
Proof.
  revert b. induction S as [|it S IH]; intro b; simpl.
  - rewrite !app_nil_r. repeat split; lia.
  - destruct (IH (add_item units it b)) as [H1 [H2 [H3 [H4 H5]]]]. simpl in *.
    rewrite H1, H2, H3, H4, H5, <- !app_assoc. unfold rain_slot, snow_slot.
    repeat split; try reflexivity; try lia;
      [destruct (truthy_oQ (it_rain3h it)) | destruct (truthy_oQ (it_snow3h it))];
      simpl; lia.
Qed.

Lemma keys_lookup k (m : list (string * Bucket)) :
  In k (map fst m) <-> lookup_bucket k m <> None.
Proof.
  induction m as [|[k' b] m IH]; simpl; [tauto|].
  destruct (String.eqb k' k) eqn:E.
  - apply String.eqb_eq in E. subst. split; [discriminate | auto].
  - apply String.eqb_neq in E. rewrite <- IH. split; [intros [H|H]; [contradiction|exact H] | auto].
Qed.

Lemma keys_update k k' f m :
  In k' (map fst (update_bucket k f m)) <-> k' = k \/ In k' (map fst m).
Proof.
  induction m as [|[k0 b] m IH]; simpl; [intuition congruence|].
  destruct (String.eqb k0 k) eqn:E; simpl.
  - apply String.eqb_eq in E. subst. intuition congruence.
  - rewrite IH. tauto.
Qed.

Lemma nodup_update k f m : NoDup (map fst m) -> NoDup (map fst (update_bucket k f m)).
Proof.
  induction m as [|[k0 b] m IH]; simpl; intro H.
  - constructor; [auto | constructor].
  - inversion H; subst. destruct (String.eqb k0 k) eqn:E; simpl; [constructor; auto|].
    constructor; [|auto]. rewrite keys_update. apply String.eqb_neq in E.
    intros [E'|E']; [congruence | contradiction].
Qed.

Lemma nodup_aggregate units items : NoDup (map fst (aggregate units items)).
Proof.
  unfold aggregate. assert (H0 : NoDup (map fst (@nil (string * Bucket)))) by constructor.
  revert H0. generalize (@nil (string * Bucket)).
  induction items as [|it items IH]; intros m Hm; simpl; [exact Hm|].
  apply IH. now apply nodup_update.
Qed.

Lemma in_insert_sorted x y l : In y (insert_sorted x l) <-> y = x \/ In y l.
Proof.
  induction l as [|z l IH]; simpl; [intuition congruence|].
  destruct (String_as_OT.compare x z); simpl; rewrite ?IH; intuition congruence.
Qed.

Lemma in_sort_strings y l : In y (sort_strings l) <-> In y l.
Proof.
  induction l as [|x l IH]; simpl; [tauto|]. rewrite in_insert_sorted, IH. intuition congruence.
Qed.

Lemma hd_insert_sorted y x l :
  HdRel String_as_OT.lt y l -> String_as_OT.lt y x -> HdRel String_as_OT.lt y (insert_sorted x l).
Proof.
  intros Hh Hyx. destruct l as [|z l]; simpl; [constructor; exact Hyx|].
  inversion Hh; subst. destruct (String_as_OT.compare x z); constructor; assumption.
Qed.

Lemma sorted_insert_sorted x l :
  Sorted String_as_OT.lt l -> ~ In x l -> Sorted String_as_OT.lt (insert_sorted x l).
Proof.
  induction l as [|y l IH]; intros Hs Hn; simpl; [repeat constructor|].
  inversion Hs; subst.
  destruct (String_as_OT.compare_spec x y) as [E|E|E].
  - exfalso. apply Hn. left. symmetry. exact E.
  - constructor; [exact Hs | constructor; exact E].
  - constructor.
    + apply IH; [assumption | intro; apply Hn; now right].
    + now apply hd_insert_sorted.
Qed.

Lemma sorted_sort_strings l : NoDup l -> Sorted String_as_OT.lt (sort_strings l).
Proof.
  induction l as [|x l IH]; intro Hn; simpl; [constructor|].
  inversion Hn; subst. apply sorted_insert_sorted; [now apply IH|].
  now rewrite in_sort_strings.
Qed.

Lemma sum_Q_fold l a : (fold_left Qplus l a == a + fold_right Qplus 0 l)%Q.
Proof.
  revert a. induction l as [|x l IH]; intro a; simpl; [ring|].
  rewrite IH. ring.
Qed.

Lemma js_avg_mean l : l <> [] -> exists m, js_avg l = Some m /\ (m == mean l)%Q.
Proof.
  intro H. destruct l as [|x r]; [contradiction|]. eexists. split; [reflexivity|].
  unfold mean, sum_Q. rewrite sum_Q_fold. apply Qdiv_comp; [ring | reflexivity].
Qed.

Lemma fold_max_spec r x : max_of (x :: r) (fold_left Qmax r x).
Proof.
  revert x. induction r as [|y r IH]; intro x; simpl.
  - split; [now left | intros z [<-|[]]; apply Qle_refl].
  - destruct (IH (Qmax x y)) as [Hin Hle]. split.
    + destruct Hin as [E|E]; [|now right; right]. rewrite <- E.
      unfold Qmax, GenericMinMax.gmax. destruct (Qcompare x y); simpl; tauto.
    + intros z [<-|[<-|Hz]].
      * eapply Qle_trans; [apply Q.le_max_l | apply Hle; now left].
      * eapply Qle_trans; [apply Q.le_max_r | apply Hle; now left].
      * apply Hle. now right.
Qed.

Lemma fold_min_spec r x : min_of (x :: r) (fold_left Qmin r x).
Proof.
  revert x. induction r as [|y r IH]; intro x; simpl.
  - split; [now left | intros z [<-|[]]; apply Qle_refl].
  - destruct (IH (Qmin x y)) as [Hin Hle]. split.
    + destruct Hin as [E|E]; [|now right; right]. rewrite <- E.
      unfold Qmin, GenericMinMax.gmin. destruct (Qcompare x y); simpl; tauto.
    + intros z [<-|[<-|Hz]].
      * eapply Qle_trans; [apply Hle; now left | apply Q.le_min_l].
      * eapply Qle_trans; [apply Hle; now left | apply Q.le_min_r].
      * apply Hle. now right.
Qed.

Lemma js_max_spec l : l <> [] -> exists m, js_max l = Some m /\ max_of l m.
Proof. destruct l as [|x r]; [contradiction|]. intros _. eexists. split; [reflexivity|]. apply fold_max_spec. Qed.
Lemma js_min_spec l : l <> [] -> exists m, js_min l = Some m /\ min_of l m.
Proof. destruct l as [|x r]; [contradiction|]. intros _. eexists. split; [reflexivity|]. apply fold_min_spec. Qed.

Lemma chance_rounds k n : n <> 0%nat -> exists c, chance k n = Some c /\ rounds_to (pct k n) c.
Proof.
  intro Hn. destruct n as [|n]; [contradiction|]. eexists. split; [reflexivity|].
  unfold rounds_to, js_round, pct.
  set (x := (inject_Z (Z.of_nat k) / inject_Z (Z.of_nat (S n)) * 100)%Q).
  pose proof (Qfloor_le (x + (1 # 2))) as H1. pose proof (Qlt_floor (x + (1 # 2))) as H2.
  rewrite inject_Z_plus in H2. change (inject_Z 1) with 1%Q in H2.
  set (c := inject_Z (Qfloor (x + (1 # 2)))) in *. clearbody x c. split; lra.
Qed.

Lemma map_nonempty {A B} (f : A -> B) l : l <> [] -> map f l <> [].
Proof. destruct l; [contradiction | discriminate]. Qed.

Lemma day_of_summary units items date :
  In date (map fst (aggregate units items)) ->
  day_summary units items (day_of date (coalesce (lookup_bucket date (aggregate units items))
                                                 empty_bucket)).
Proof.
  rewrite keys_lookup, lookup_aggregate.
  destruct (existsb (fun it => String.eqb (item_date it) date) items) eqn:Ex;
    [intros _ | contradiction].
  simpl coalesce.
  assert (HS : samples_of items date <> []).
  { apply existsb_exists in Ex as [it [Hin He]]. unfold samples_of. intro E.
    assert (Hf : In it (filter (fun it => String.eqb (item_date it) date) items))
      by (apply filter_In; auto).
    rewrite E in Hf. contradiction. }
  destruct (add_all_fields units (samples_of items date) empty_bucket) as [H1 [H2 [H3 [H4 H5]]]].
  unfold day_summary, day_of. cbn [fd_date avgTempC avgTempF maxTempC maxTempF minTempC minTempF
    chanceOfRainPct chanceOfSnowPct].
  rewrite H1, H2, H3, H4, H5. cbn [tempsC tempsF totalSlots rainSlots snowSlots app Nat.add].
  assert (HC : temps_c units (samples_of items date) <> []) by now apply map_nonempty.
  assert (HF : temps_f units (samples_of items date) <> []) by now apply map_nonempty.
  assert (HL : List.length (samples_of items date) <> 0%nat)
    by (destruct (samples_of items date); [contradiction | discriminate]).
  split; [exact HS|].
  split; [now apply js_avg_mean|]. split; [now apply js_avg_mean|].
  split; [now apply js_max_spec|]. split; [now apply js_max_spec|].
  split; [now apply js_min_spec|]. split; [now apply js_min_spec|].
  split; now apply chance_rounds.
Qed.

Lemma in_firstn {A} n (x : A) l : In x (firstn n l) -> In x l.
Proof. intro H. rewrite <- (firstn_skipn n l). apply in_or_app. now left. Qed.

(** C2.  When OpenWeather's forecast call succeeds, the samples it got are
    those of the response to its request; the dates of the reported days
    are the first [days] (3 by default) of the distinct UTC dates of the
    samples, in strictly ascending order; and each reported day has at least
    one sample, its average temperatures are the means of that day's sample
    temperatures, its max and min are extrema of them, and its rain and snow
    chances are the percentages of that day's slots with rain (snow), rounded
    to the nearest integer. *)
Theorem ow_getForecast_buckets q u nd s f s' :
  ow_getForecast q u nd s = (inr f, s') ->
  let units := coalesce u (defaultUnits cfg) in
  exists params s1 dt o,
    net (clock s1) (OWGet OWForecastEP params (unitsParam units)) = (dt, ROk (JOWForecast o)) /\
    let dates := sort_strings (map fst (aggregate units (of_list o))) in
    Sorted String_as_OT.lt dates /\
    (forall d, In d dates <-> exists it, In it (of_list o) /\ item_date it = d) /\
    map fd_date (days f) = firstn (coalesce nd 3%nat) dates /\
    (forall fd, In fd (days f) -> day_summary units (of_list o) fd).
Proof.
  intros H. cbn zeta. unfold ow_getForecast in H. cbn zeta in H.
  apply bind_inr in H as [params [s1 [_ H]]].
  apply bind_inr in H as [d [s2 [Hh H]]].
  unfold http in Hh.
  destruct (net (clock s1) (OWGet OWForecastEP params (unitsParam (coalesce u (defaultUnits cfg)))))
    as [dt resp] eqn:En.
  destruct resp as [|d']; simpl in Hh; [discriminate|]. injection Hh as <- _.
  destruct d' as [| |o|]; try discriminate.
  injection H as <- _. exists params, s1, dt, o. split; [exact En|].
  cbn zeta. cbn [days]. unfold forecast_days. cbn zeta.
  split; [apply sorted_sort_strings, nodup_aggregate|].
  split.
  { intro d. rewrite in_sort_strings, keys_lookup, lookup_aggregate.
    destruct (existsb _ _) eqn:Ex.
    - apply existsb_exists in Ex as [it [Hin He]]. apply String.eqb_eq in He.
      split; [intros _ ; exists it; auto | discriminate].
    - split; [contradiction|]. intros [it [Hin He]].
      assert (Ht : existsb (fun it => String.eqb (item_date it) d) (of_list o) = true)
        by (apply existsb_exists; exists it; split; [exact Hin | now apply String.eqb_eq]).
      congruence. }
  split.
  { rewrite map_map. simpl. apply map_id. }
  intros fd Hfd. apply in_map_iff in Hfd as [date [<- Hd]].
  apply day_of_summary. apply in_firstn in Hd. apply (proj1 (in_sort_strings _ _)) in Hd.
  exact Hd.
Qed.

(** * Further properties of the code *)

(** ** Invariants of runs *)

(** A property kept by every operation of the process holds in every
    reachable state. *)
Lemma reachable_inv (P : St -> Prop) :
  (forall t0 seed0, P (init_state t0 seed0)) ->
  (forall q u, preserves P (getCurrentWeather q u)) ->
  (forall q u d, preserves P (getForecast q u d)) ->
  (forall q d, preserves P (getHistorical q d)) ->
  (forall a, preserves P (registerAlert a)) ->
  (forall id, preserves P (removeAlert id)) ->
  preserves P pollAlerts -> preserves P startAlertScheduler -> preserves P stopAlertScheduler ->
  (forall t s, P s -> P (set_clock t s)) ->
  forall s, reachable s -> P s.
Proof.
  intros Hi Hc Hf Hh Hr Hd Hp Hs Ht Hk s R.
  induction R as [t0 seed0|s s' R IH Hst]; [apply Hi|].
  inversion Hst; subst; try (run_step E IH).
  - eapply Hc; eauto.
  - eapply Hf; eauto.
  - eapply Hh; eauto.
  - eapply Hr; eauto.
  - eapply Hd; eauto.
  - eapply Hp; eauto.
  - eapply Hs; eauto.
  - eapply Ht; eauto.
  - now apply Hk.
Qed.

(** *** The registry and the alert objects *)

Section Registry_frame.

(** A property of the registry and of the alert objects only, kept when
    [notify] stamps an object. *)
Variable P : St -> Prop.
Hypothesis P_ext : forall s s', alerts s' = alerts s -> heap s' = heap s -> P s -> P s'.
Hypothesis P_stamp : forall l t s, P s -> P (set_heap (list_update l (stamp t) (heap s)) s).

Ltac same := match goal with H : (_, _) = (_, _) |- _ => inversion H; subst end;
             (eapply P_ext; [| |eassumption]); reflexivity.

Lemma http_rf r : preserves P (http r).
Proof. intros s x s' H HP. unfold http in H. destruct (net (clock s) r) as [dt []]; same. Qed.
Lemma log_rf x : preserves P (log x).
Proof. intros s y s' H HP. inversion H; subst. eapply P_ext; [| |eassumption]; reflexivity. Qed.
Lemma now_rf : preserves P now.
Proof. intros s y s' H HP. inversion H; subst. exact HP. Qed.
Lemma deref_rf l : preserves P (deref l).
Proof. intros s x s' H HP. unfold deref in H. destruct (nth_error (heap s) l); same. Qed.
Lemma listAlerts_rf : preserves P listAlerts.
Proof. intros s x s' H HP. inversion H; subst. exact HP. Qed.
Lemma cget_rf k : preserves P (currentCache_get k).
Proof.
  intros s x s' H HP. unfold currentCache_get in H.
  destruct (cache_get ttl_current (clock s) k (currentCache s)); same.
Qed.
Lemma fget_rf k : preserves P (forecastCache_get k).
Proof.
  intros s x s' H HP. unfold forecastCache_get in H.
  destruct (cache_get ttl_forecast (clock s) k (forecastCache s)); same.
Qed.
Lemma hget_rf k : preserves P (historicalCache_get k).
Proof.
  intros s x s' H HP. unfold historicalCache_get in H.
  destruct (cache_get ttl_historical (clock s) k (historicalCache s)); same.
Qed.
Lemma cset_rf k v : preserves P (currentCache_set k v).
Proof. intros s x s' H HP. inversion H; subst. eapply P_ext; [| |eassumption]; reflexivity. Qed.
Lemma fset_rf k v : preserves P (forecastCache_set k v).
Proof. intros s x s' H HP. inversion H; subst. eapply P_ext; [| |eassumption]; reflexivity. Qed.
Lemma hset_rf k v : preserves P (historicalCache_set k v).
Proof. intros s x s' H HP. inversion H; subst. eapply P_ext; [| |eassumption]; reflexivity. Qed.
Lemma stamp_rf l t : preserves P (modify (fun s => set_heap (list_update l (stamp t) (heap s)) s)).
Proof. intros s x s' H HP. inversion H; subst. now apply P_stamp. Qed.

#[local] Hint Resolve http_rf log_rf now_rf deref_rf listAlerts_rf cget_rf fget_rf hget_rf
  cset_rf fset_rf hset_rf stamp_rf : pres.

Lemma getCurrentWeather_rf q u : preserves P (getCurrentWeather q u).
Proof. unfold getCurrentWeather, wa_getCurrent, ow_getCurrent, wa_resolve, ow_resolve. pres. Qed.
Lemma getForecast_rf q u d : preserves P (getForecast q u d).
Proof. unfold getForecast, wa_getForecast, ow_getForecast, wa_resolve, ow_resolve. pres. Qed.
Lemma getHistorical_rf q d : preserves P (getHistorical q d).
Proof. unfold getHistorical, wa_getHistorical, wa_resolve. pres. Qed.
Lemma notify_rf l m p : preserves P (notify l m p).
Proof. unfold notify. pres. Qed.

#[local] Hint Resolve getCurrentWeather_rf getForecast_rf getHistorical_rf notify_rf : pres.

Lemma evaluateAlert_rf l : preserves P (evaluateAlert l).
Proof. unfold evaluateAlert. pres. Qed.

Lemma pollAlerts_rf : preserves P pollAlerts.
Proof. apply pollAlerts_pres; auto using evaluateAlert_rf with pres. Qed.

Lemma scheduler_rf : preserves P startAlertScheduler /\ preserves P stopAlertScheduler.
Proof.
  split; intros s x s' H HP; unfold startAlertScheduler, stopAlertScheduler in H;
    [destruct (schedulerStarted s)|]; inversion H; subst;
    (eapply P_ext; [| |eassumption]); reflexivity.
Qed.

Lemma tick_rf t s : P s -> P (set_clock t s).
Proof. apply P_ext; reflexivity. Qed.

End Registry_frame.

Lemma nodup_strings_NoDup l : nodup_strings l = true <-> NoDup l.
Proof.
  induction l as [|x l IH]; simpl; [split; [constructor|reflexivity]|].
  rewrite andb_true_iff, negb_true_iff, IH. split.
  - intros [Hx Hn]. constructor; [|exact Hn]. intro Hin.
    assert (E : existsb (String.eqb x) l = true)
      by (apply existsb_exists; exists x; split; [exact Hin | apply String.eqb_refl]).
    congruence.
  - intro H. inversion H as [|? ? Hx Hn]; subst. split; [|exact Hn].
    destruct (existsb (String.eqb x) l) eqn:E; [|reflexivity].
    apply existsb_exists in E as [y [Hy Ey]]. apply String.eqb_eq in Ey. subst. contradiction.
Qed.

Lemma nth_error_list_update {A} n f (h : list A) m :
  nth_error (list_update n f h) m =
  if Nat.eqb n m then option_map f (nth_error h m) else nth_error h m.
Proof.
  revert n m. induction h as [|x h IH]; intros [|n] [|m]; simpl; try reflexivity;
    try (destruct (Nat.eqb n m); reflexivity).
  apply IH.
Qed.

Lemma length_list_update {A} n f (h : list A) : List.length (list_update n f h) = List.length h.
Proof. revert n. induction h as [|x h IH]; intros [|n]; simpl; auto. Qed.

Lemma map_set_In_inv {V} k (v : V) m kv : In kv (map_set k v m) -> kv = (k, v) \/ In kv m.
Proof.
  induction m as [|[k' v'] m IH]; simpl; [intuition|].
  destruct (String.eqb k' k) eqn:E; simpl.
  - apply String.eqb_eq in E; subst. intros [<-|H]; [now left | right; now right].
  - intros [<-|H]; [right; now left|]. destruct (IH H); [now left | right; now right].
Qed.

Lemma map_set_keys {V} k (v : V) m : NoDup (map fst m) -> NoDup (map fst (map_set k v m)).
Proof.
  induction m as [|[k' v'] m IH]; simpl; intro Hn; [constructor; [auto | constructor]|].
  inversion Hn as [|? ? Hk Hn']; subst.
  destruct (String.eqb k' k) eqn:E; simpl; constructor; auto.
  intro Hin. apply in_map_iff in Hin as [[k2 v2] [E2 Hin]]. simpl in E2; subst k2.
  apply map_set_In_inv in Hin as [Heq|Hin].
  - inversion Heq; subst. rewrite String.eqb_refl in E. discriminate.
  - apply Hk. apply in_map_iff. exists (k', v2); auto.
Qed.

Lemma nodup_map_filter {A B} (g : A -> B) f (l : list A) :
  NoDup (map g l) -> NoDup (map g (filter f l)).
Proof.
  induction l as [|x l IH]; simpl; intro H; [constructor|].
  inversion H as [|? ? Hx Hl]; subst.
  destruct (f x); simpl; [constructor|]; auto.
  intro Hin. apply Hx. apply in_map_iff in Hin as [y [Ey Hy]]. apply filter_In in Hy as [Hy _].
  apply in_map_iff. eauto.
Qed.

Lemma registry_wf_ext s s' :
  alerts s' = alerts s -> heap s' = heap s -> registry_wf s = true -> registry_wf s' = true.
Proof. intros E1 E2. unfold registry_wf. now rewrite E1, E2. Qed.

Lemma registry_wf_stamp l t s :
  registry_wf s = true -> registry_wf (set_heap (list_update l (stamp t) (heap s)) s) = true.
Proof.
  unfold registry_wf. cbn [alerts heap set_heap]. intro H.
  apply andb_true_iff in H as [Hn Hf]. rewrite Hn. simpl.
  rewrite forallb_forall in *. intros kv Hin. specialize (Hf kv Hin).
  rewrite nth_error_list_update. destruct (Nat.eqb l (snd kv)); [|exact Hf].
  destruct (nth_error (heap s) (snd kv)); [exact Hf | discriminate].
Qed.

Lemma registry_wf_register a s r s' :
  registerAlert a s = (r, s') -> registry_wf s = true -> registry_wf s' = true.
Proof.
  unfold registerAlert, bind, generateId, now. intro H. inversion H; subst. clear H.
  unfold registry_wf. cbn [alerts heap set_alerts set_heap set_seed]. intro Hw.
  apply andb_true_iff in Hw as [Hn Hf]. apply andb_true_iff. split.
  - apply nodup_strings_NoDup. apply nodup_strings_NoDup in Hn. now apply map_set_keys.
  - rewrite forallb_forall in *. intros kv Hin. apply map_set_In_inv in Hin as [->|Hin].
    + simpl. rewrite nth_error_app2 by lia. rewrite Nat.sub_diag. simpl.
      apply String.eqb_refl.
    + specialize (Hf kv Hin). destruct (nth_error (heap s) (snd kv)) as [w|] eqn:E;
        [|discriminate].
      rewrite nth_error_app1 by (apply nth_error_Some; congruence). now rewrite E.
Qed.

Lemma registry_wf_remove id s r s' :
  removeAlert id s = (r, s') -> registry_wf s = true -> registry_wf s' = true.
Proof.
  unfold removeAlert. intro H. inversion H; subst. clear H.
  unfold registry_wf, map_delete. cbn [alerts heap set_alerts]. intro Hw.
  apply andb_true_iff in Hw as [Hn Hf]. apply andb_true_iff. split.
  - apply nodup_strings_NoDup. apply nodup_strings_NoDup in Hn. now apply nodup_map_filter.
  - rewrite forallb_forall in *. intros kv Hin. apply filter_In in Hin as [Hin _]. auto.
Qed.

Lemma reachable_registry_wf s : reachable s -> registry_wf s = true.
Proof.
  revert s. apply (reachable_inv (fun s => registry_wf s = true)).
  - reflexivity.
  - intros q u. apply getCurrentWeather_rf; eauto using registry_wf_ext, registry_wf_stamp.
  - intros q u d. apply getForecast_rf; eauto using registry_wf_ext, registry_wf_stamp.
  - intros q d. apply getHistorical_rf; eauto using registry_wf_ext, registry_wf_stamp.
  - intros a s0 r s1 H. now apply (registry_wf_register a s0 r s1).
  - intros id s0 r s1 H. now apply (registry_wf_remove id s0 r s1).
  - apply pollAlerts_rf; eauto using registry_wf_ext, registry_wf_stamp.
  - apply scheduler_rf; eauto using registry_wf_ext, registry_wf_stamp.
  - apply scheduler_rf; eauto using registry_wf_ext, registry_wf_stamp.
  - intros t s0. apply (tick_rf (fun s => registry_wf s = true)). exact registry_wf_ext.
Qed.

(** In every reachable state the registry maps each id to one alert object
    only, and every entry points to an object in the store whose own id is
    the entry's key. *)
Theorem registry_consistent s :
  reachable s ->
  NoDup (map fst (alerts s)) /\
  forall k l, In (k, l) (alerts s) -> exists w, nth_error (heap s) l = Some w /\ a_id w = k.
Proof.
  intro R. pose proof (reachable_registry_wf s R) as Hw.
  split.
  - apply andb_true_iff in Hw as [Hn _]. now apply nodup_strings_NoDup.
  - intros k l Hin. destruct (nth_error (heap s) l) as [w|] eqn:E.
    + exists w. split; [reflexivity|]. eapply registry_wf_id; eauto.
    + apply andb_true_iff in Hw as [_ Hf]. rewrite forallb_forall in Hf.
      specialize (Hf _ Hin). simpl in Hf. rewrite E in Hf. discriminate.
Qed.

(** *** A sweep never rejects *)

Lemma heap_len_ext n s s' :
  alerts s' = alerts s -> heap s' = heap s -> List.length (heap s) = n -> List.length (heap s') = n.
Proof. intros _ E H. now rewrite E. Qed.

Lemma heap_len_stamp n l t s :
  List.length (heap s) = n -> List.length (heap (set_heap (list_update l (stamp t) (heap s)) s)) = n.
Proof. intro H. simpl. now rewrite length_list_update. Qed.

Lemma guarded_eval_ok l s :
  (l < List.length (heap s))%nat ->
  exists s2,
    try_catch (evaluateAlert l)
      (fun e => a <- deref l;; log (Warn ("Alert evaluation failed: " ++ a_id a) e)) s
    = (inr tt, s2) /\ List.length (heap s2) = List.length (heap s).
Proof.
  intro Hl. unfold try_catch.
  destruct (evaluateAlert l s) as [r s1] eqn:E.
  assert (Hlen : List.length (heap s1) = List.length (heap s)).
  { refine (evaluateAlert_rf (fun s' => List.length (heap s') = List.length (heap s)) _ _ l s r s1 E
              eq_refl).
    - intros; eapply heap_len_ext; eauto.
    - intros; now apply heap_len_stamp. }
  destruct r as [e|[]].
  - unfold bind, deref. destruct (nth_error (heap s1) l) as [w|] eqn:En.
    + eexists. split; [reflexivity|]. exact Hlen.
    + apply nth_error_None in En. lia.
  - exists s1. split; [reflexivity | exact Hlen].
Qed.

Lemma sweep_total items s :
  (forall l, In l items -> l < List.length (heap s))%nat -> fst (sweep items s) = inr tt.
Proof.
  revert s. induction items as [|l items IH]; intros s Hl; [reflexivity|].
  cbn [sweep]. destruct (guarded_eval_ok l s (Hl l (or_introl eq_refl))) as [s2 [E Hlen]].
  unfold bind at 1. rewrite E. apply IH. intros l' Hin. rewrite Hlen. apply Hl. now right.
Qed.

(** In every reachable state a poll resolves: a failed evaluation is caught
    and logged, and the handler's own read of the alert cannot fail. *)
Theorem pollAlerts_never_rejects s : reachable s -> fst (pollAlerts s) = inr tt.
Proof.
  intro R. pose proof (reachable_registry_wf s R) as Hw.
  unfold pollAlerts. rewrite (bind_ok _ _ s (map snd (alerts s)) s) by reflexivity.
  apply sweep_total. intros l Hin. apply in_map_iff in Hin as [[k l0] [E Hk]]. simpl in E. subst l0.
  apply andb_true_iff in Hw as [_ Hf]. rewrite forallb_forall in Hf. specialize (Hf _ Hk).
  simpl in Hf. destruct (nth_error (heap s) l) eqn:En; [|discriminate].
  apply nth_error_Some. congruence.
Qed.

(** *** What a sweep changes *)

(** [a'] is [a], or [a] with [lastTriggeredAt] set. *)
Definition stamped (a a' : WeatherAlert) : Prop := a' = a \/ exists t, a' = stamp t a.

Lemma stamp_stamp t t' a : stamp t (stamp t' a) = stamp t a.
Proof. reflexivity. Qed.

Lemma Forall2_stamped_refl h : Forall2 stamped h h.
Proof. induction h; constructor; [now left | exact IHh]. Qed.

Lemma Forall2_stamped_update h0 h l t :
  Forall2 stamped h0 h -> Forall2 stamped h0 (list_update l (stamp t) h).
Proof.
  intro H. revert l. induction H as [|x y h0 h Hxy Hr IH]; intros [|l]; simpl; constructor; auto.
  right. exists t. destruct Hxy as [->|[t' ->]]; reflexivity.
Qed.

(** A poll leaves the registry as it was, and it changes an alert object
    only by setting its lastTriggeredAt. *)
Theorem pollAlerts_only_stamps s r s' :
  pollAlerts s = (r, s') -> alerts s' = alerts s /\ Forall2 stamped (heap s) (heap s').
Proof.
  intro H.
  refine (pollAlerts_rf (fun s1 => alerts s1 = alerts s /\ Forall2 stamped (heap s) (heap s1))
            _ _ s r s' H _).
  - intros s1 s2 E1 E2 [H1 H2]. rewrite E1, E2. now split.
  - intros l t s1 [H1 H2]. split; [exact H1|]. simpl. now apply Forall2_stamped_update.
  - split; [reflexivity | apply Forall2_stamped_refl].
Qed.

(** *** The caches stay within their bound *)

(** At most [max: 500] entries, one per key. *)
Definition cache_ok {V} (c : list (Entry V)) : Prop :=
  (List.length c <= cache_max)%nat /\ NoDup (map e_key c).

Lemma key_not_in_remove {V} k (c : list (Entry V)) : ~ In k (map e_key (remove_key k c)).
Proof.
  intro Hin. apply in_map_iff in Hin as [e [Ek He]]. unfold remove_key in He.
  apply filter_In in He as [_ He]. rewrite Ek, Key_eqb_refl in He. discriminate.
Qed.

Lemma remove_key_shorter {V} k (c : list (Entry V)) e :
  lookup_entry k c = Some e -> (S (List.length (remove_key k c)) <= List.length c)%nat.
Proof.
  unfold remove_key. induction c as [|x c IH]; simpl; [discriminate|].
  destruct (Key_eqb (e_key x) k) eqn:E; simpl.
  - intros _. pose proof (filter_length_le (fun e => negb (Key_eqb (e_key e) k)) c). lia.
  - intro H. specialize (IH H). simpl. lia.
Qed.

Lemma cache_get_ok {V} ttl t k (c : list (Entry V)) :
  cache_ok c -> cache_ok (snd (cache_get ttl t k c)).
Proof.
  intros [Hl Hn]. unfold cache_get, remove_key.
  destruct (lookup_entry k c) as [e|] eqn:He; [destruct (is_stale ttl t (e_start e))|]; simpl.
  - split; [|now apply nodup_map_filter].
    pose proof (filter_length_le (fun e => negb (Key_eqb (e_key e) k)) c). lia.
  - split.
    + pose proof (remove_key_shorter k c e He). unfold remove_key in H. simpl. lia.
    + constructor; [|now apply nodup_map_filter].
      rewrite (lookup_entry_key k c e He). apply key_not_in_remove.
  - now split.
Qed.

Lemma NoDup_firstn {A} n (l : list A) : NoDup l -> NoDup (firstn n l).
Proof. intro H. rewrite <- (firstn_skipn n l) in H. eapply NoDup_app_remove_r. exact H. Qed.

Lemma cache_set_ok {V} t k (v : V) (c : list (Entry V)) :
  cache_ok c -> cache_ok (cache_set cache_max t k v c).
Proof.
  intros [_ Hn]. unfold cache_set. split; [apply firstn_le_length|].
  rewrite <- firstn_map. apply NoDup_firstn. simpl. constructor.
  - apply key_not_in_remove.
  - now apply nodup_map_filter.
Qed.

Definition caches_ok (s : St) : Prop :=
  cache_ok (currentCache s) /\ cache_ok (forecastCache s) /\ cache_ok (historicalCache s).

Lemma caches_ok_ext s s' :
  currentCache s' = currentCache s -> forecastCache s' = forecastCache s ->
  historicalCache s' = historicalCache s -> caches_ok s -> caches_ok s'.
Proof. intros E1 E2 E3. unfold caches_ok. now rewrite E1, E2, E3. Qed.

Ltac cok := match goal with H : (_, _) = (_, _) |- _ => inversion H; subst end;
            (eapply caches_ok_ext; [| | |eassumption]); reflexivity.

Lemma http_cok r : preserves caches_ok (http r).
Proof. intros s x s' H HP. unfold http in H. destruct (net (clock s) r) as [dt []]; cok. Qed.
Lemma log_cok x : preserves caches_ok (log x). Proof. prim. Qed.
Lemma now_cok : preserves caches_ok now. Proof. prim. Qed.
Lemma deref_cok l : preserves caches_ok (deref l).
Proof. intros s x s' H HP. unfold deref in H. destruct (nth_error (heap s) l); cok. Qed.
Lemma heap_cok f : preserves caches_ok (modify (fun s => set_heap (f s) s)). Proof. prim. Qed.
Lemma listAlerts_cok : preserves caches_ok listAlerts. Proof. prim. Qed.
Lemma cget_cok k : preserves caches_ok (currentCache_get k).
Proof.
  intros s x s' H [H1 [H2 H3]]. unfold currentCache_get in H.
  pose proof (cache_get_ok ttl_current (clock s) k _ H1) as Hc.
  destruct (cache_get ttl_current (clock s) k (currentCache s)); inversion H; subst.
  split; [exact Hc | split; assumption].
Qed.
Lemma fget_cok k : preserves caches_ok (forecastCache_get k).
Proof.
  intros s x s' H [H1 [H2 H3]]. unfold forecastCache_get in H.
  pose proof (cache_get_ok ttl_forecast (clock s) k _ H2) as Hc.
  destruct (cache_get ttl_forecast (clock s) k (forecastCache s)); inversion H; subst.
  split; [assumption | split; assumption].
Qed.
Lemma hget_cok k : preserves caches_ok (historicalCache_get k).
Proof.
  intros s x s' H [H1 [H2 H3]]. unfold historicalCache_get in H.
  pose proof (cache_get_ok ttl_historical (clock s) k _ H3) as Hc.
  destruct (cache_get ttl_historical (clock s) k (historicalCache s)); inversion H; subst.
  split; [assumption | split; assumption].
Qed.
Lemma cset_cok k v : preserves caches_ok (currentCache_set k v).
Proof.
  intros s x s' H [H1 [H2 H3]]. inversion H; subst.
  split; [now apply cache_set_ok | split; assumption].
Qed.
Lemma fset_cok k v : preserves caches_ok (forecastCache_set k v).
Proof.
  intros s x s' H [H1 [H2 H3]]. inversion H; subst.
  split; [assumption | split; [now apply cache_set_ok | assumption]].
Qed.
Lemma hset_cok k v : preserves caches_ok (historicalCache_set k v).
Proof.
  intros s x s' H [H1 [H2 H3]]. inversion H; subst.
  split; [assumption | split; [assumption | now apply cache_set_ok]].
Qed.

#[local] Hint Resolve http_cok log_cok now_cok deref_cok heap_cok listAlerts_cok
  cget_cok fget_cok hget_cok cset_cok fset_cok hset_cok : pres.

Lemma getCurrentWeather_cok q u : preserves caches_ok (getCurrentWeather q u).
Proof. unfold getCurrentWeather, wa_getCurrent, ow_getCurrent, wa_resolve, ow_resolve. pres. Qed.
Lemma getForecast_cok q u d : preserves caches_ok (getForecast q u d).
Proof. unfold getForecast, wa_getForecast, ow_getForecast, wa_resolve, ow_resolve. pres. Qed.
Lemma getHistorical_cok q d : preserves caches_ok (getHistorical q d).
Proof. unfold getHistorical, wa_getHistorical, wa_resolve. pres. Qed.
Lemma notify_cok l m p : preserves caches_ok (notify l m p).
Proof. unfold notify. pres. Qed.

#[local] Hint Resolve getCurrentWeather_cok getForecast_cok getHistorical_cok notify_cok : pres.

Lemma evaluateAlert_cok l : preserves caches_ok (evaluateAlert l).
Proof. unfold evaluateAlert. pres. Qed.

(** In every reachable state each of the three caches holds at most 500
    entries, with no key twice. *)
Theorem caches_bounded s :
  reachable s ->
  (List.length (currentCache s) <= 500 /\ NoDup (map e_key (currentCache s)))%nat /\
  (List.length (forecastCache s) <= 500 /\ NoDup (map e_key (forecastCache s)))%nat /\
  (List.length (historicalCache s) <= 500 /\ NoDup (map e_key (historicalCache s)))%nat.
Proof.
  revert s. apply (reachable_inv caches_ok).
  - intros. repeat split; simpl; try lia; constructor.
  - exact getCurrentWeather_cok.
  - exact getForecast_cok.
  - exact getHistorical_cok.
  - intro a. apply registerAlert_pres. intros s m h n H. exact H.
  - intros id s r s' H HP. inversion H; subst. exact HP.
  - apply pollAlerts_pres; auto using evaluateAlert_cok with pres.
  - intros s r s' H HP. unfold startAlertScheduler in H. destruct (schedulerStarted s);
      inversion H; subst; exact HP.
  - intros s r s' H HP. inversion H; subst. exact HP.
  - intros t s H. exact H.
Qed.

(** *** Cache reads *)

Lemma lookup_entry_In {V} k (c : list (Entry V)) e : lookup_entry k c = Some e -> In e c.
Proof.
  induction c as [|x c IH]; simpl; [discriminate|].
  destruct (Key_eqb (e_key x) k); [intro H; inversion H; now left | intro; right; auto].
Qed.

Lemma cache_get_live {V} ttl t k (c : list (Entry V)) v c' :
  cache_get ttl t k c = (Some v, c') ->
  exists e, In e c /\ e_key e = k /\ e_val e = v /\ (ttl = 0 \/ t - e_start e <= ttl)%Z.
Proof.
  unfold cache_get. destruct (lookup_entry k c) as [e|] eqn:He; [|discriminate].
  destruct (is_stale ttl t (e_start e)) eqn:Es; [discriminate|]. intro H; inversion H; subst.
  exists e. split; [now apply (lookup_entry_In k)|]. split; [now apply (lookup_entry_key k c)|].
  split; [reflexivity|]. unfold is_stale in Es.
  destruct (Z.eqb_spec ttl 0) as [E|E]; [now left|right]. simpl in Es.
  apply Z.ltb_ge in Es. lia.
Qed.

(** A cache read that returns a value returns the value of an entry stored
    under the requested key that is not older than the cache's TTL (or the
    TTL is 0). *)
Theorem caches_serve_live_entries k s :
  (forall v s', currentCache_get k s = (inr (Some v), s') ->
     exists e, In e (currentCache s) /\ e_key e = k /\ e_val e = v /\
       (ttl_current = 0 \/ clock s - e_start e <= ttl_current)%Z) /\
  (forall v s', forecastCache_get k s = (inr (Some v), s') ->
     exists e, In e (forecastCache s) /\ e_key e = k /\ e_val e = v /\
       (ttl_forecast = 0 \/ clock s - e_start e <= ttl_forecast)%Z) /\
  (forall v s', historicalCache_get k s = (inr (Some v), s') ->
     exists e, In e (historicalCache s) /\ e_key e = k /\ e_val e = v /\
       (ttl_historical = 0 \/ clock s - e_start e <= ttl_historical)%Z).
Proof.
  split; [|split]; intros v s' H;
    [unfold currentCache_get in H | unfold forecastCache_get in H | unfold historicalCache_get in H];
    match type of H with
    | (let '(_, _) := ?x in _) = _ => destruct x as [o c] eqn:E
    end;
    inversion H; subst; eapply cache_get_live; exact E.
Qed.

(** *** Repeated forecast and historical calls *)

Definition forecast_key (q : LocationQuery) (u : option Units) (n : option nat) : Key :=
  keyOf "forecast" q (XUnitsDays (coalesce u (defaultUnits cfg)) (coalesce n 3%nat)).

Lemma set_forecastCache_id s : set_forecastCache (forecastCache s) s = s.
Proof. destruct s; reflexivity. Qed.
Lemma set_historicalCache_id s : set_historicalCache (historicalCache s) s = s.
Proof. destruct s; reflexivity. Qed.

Lemma getForecast_from_head q u n s f start :
  head_entry (forecast_key q u n) f start (forecastCache s) ->
  is_stale ttl_forecast (clock s) start = false ->
  getForecast q u n s = (inr f, s).
Proof.
  intros [rest [Hc Hr]] Hs. unfold getForecast, bind at 1, forecastCache_get.
  fold (forecast_key q u n). rewrite Hc.
  rewrite (cache_get_head _ _ _ {| e_key := forecast_key q u n; e_val := f; e_start := start |})
    by (simpl; auto).
  simpl. rewrite <- Hc. now rewrite set_forecastCache_id.
Qed.

Lemma getForecast_leaves_head q u n s f s1 :
  getForecast q u n s = (inr f, s1) ->
  exists start, head_entry (forecast_key q u n) f start (forecastCache s1) /\
    (fst (cache_get ttl_forecast (clock s) (forecast_key q u n) (forecastCache s)) = None ->
     start = clock s1).
Proof.
  unfold getForecast. fold (forecast_key q u n). intro H.
  apply bind_inr in H as [cached [s0 [Hg H]]].
  unfold forecastCache_get in Hg.
  destruct (cache_get ttl_forecast (clock s) (forecast_key q u n) (forecastCache s)) as [o c] eqn:Ec.
  injection Hg as <- <-. destruct o as [v|].
  - inversion H; subst. apply cache_get_hit_head in Ec as [start Hh].
    exists start. split; [exact Hh | discriminate].
  - apply bind_inr in H as [d1 [s2 [H1 H]]]. apply bind_inr in H as [d2 [s3 [H2 H]]].
    destruct d2 as [d|]; [|discriminate].
    apply bind_inr in H as [[] [s4 [H3 H4]]].
    unfold forecastCache_set, modify in H3. inversion H3; subst. inversion H4; subst.
    exists (clock s3). split; [|reflexivity]. simpl.
    apply cache_set_head. unfold cache_max. discriminate.
Qed.

(** After a getForecast call succeeded, the same call made while the cached
    entry is live returns the same forecast and leaves the state unchanged
    (no request, no log line).  The entry's age counts from the end of the
    first call when that call fetched. *)
Theorem getForecast_repeat_within_ttl q u n s f s1 :
  getForecast q u n s = (inr f, s1) ->
  exists start,
    (fst (cache_get ttl_forecast (clock s) (forecast_key q u n) (forecastCache s)) = None ->
     start = clock s1) /\
    forall t, is_stale ttl_forecast t start = false ->
      getForecast q u n (set_clock t s1) = (inr f, set_clock t s1).
Proof.
  intro H. apply getForecast_leaves_head in H as [start [Hh Hs]].
  exists start. split; [exact Hs|]. intros t Ht.
  apply getForecast_from_head with start; simpl; auto.
Qed.

Lemma getHistorical_from_head q d s h start :
  head_entry (historical_key q d) h start (historicalCache s) ->
  is_stale ttl_historical (clock s) start = false ->
  getHistorical q d s = (inr h, s).
Proof.
  intros [rest [Hc Hr]] Hs. unfold getHistorical, bind at 1, historicalCache_get.
  fold (historical_key q d). rewrite Hc.
  rewrite (cache_get_head _ _ _ {| e_key := historical_key q d; e_val := h; e_start := start |})
    by (simpl; auto).
  simpl. rewrite <- Hc. now rewrite set_historicalCache_id.
Qed.

Lemma getHistorical_leaves_head q d s h s1 :
  getHistorical q d s = (inr h, s1) ->
  exists start, head_entry (historical_key q d) h start (historicalCache s1) /\
    (fst (cache_get ttl_historical (clock s) (historical_key q d) (historicalCache s)) = None ->
     start = clock s1).
Proof.
  unfold getHistorical. fold (historical_key q d). intro H.
  apply bind_inr in H as [cached [s0 [Hg H]]].
  unfold historicalCache_get in Hg.
  destruct (cache_get ttl_historical (clock s) (historical_key q d) (historicalCache s))
    as [o c] eqn:Ec.
  injection Hg as <- <-. destruct o as [v|].
  - inversion H; subst. apply cache_get_hit_head in Ec as [start Hh].
    exists start. split; [exact Hh | discriminate].
  - apply bind_inr in H as [d1 [s2 [H1 H]]].
    destruct d1 as [x|]; [|discriminate].
    apply bind_inr in H as [[] [s4 [H3 H4]]].
    unfold historicalCache_set, modify in H3. inversion H3; subst. inversion H4; subst.
    exists (clock s2). split; [|reflexivity]. simpl.
    apply cache_set_head. unfold cache_max. discriminate.
Qed.

(** After a getHistorical call succeeded, the same call made while the
    cached entry is live returns the same record and leaves the state
    unchanged. *)
Theorem getHistorical_repeat_within_ttl q d s h s1 :
  getHistorical q d s = (inr h, s1) ->
  exists start,
    (fst (cache_get ttl_historical (clock s) (historical_key q d) (historicalCache s)) = None ->
     start = clock s1) /\
    forall t, is_stale ttl_historical t start = false ->
      getHistorical q d (set_clock t s1) = (inr h, set_clock t s1).
Proof.
  intro H. apply getHistorical_leaves_head in H as [start [Hh Hs]].
  exists start. split; [exact Hs|]. intros t Ht.
  apply getHistorical_from_head with start; simpl; auto.
Qed.

(** *** Bounds of the OpenWeather forecast days *)

Lemma inject_Z_pos n : n <> 0%nat -> 0 < inject_Z (Z.of_nat n).
Proof. intro H. change 0 with (inject_Z 0). rewrite <- Zlt_Qlt. lia. Qed.


Lemma ow_forecast_summaries q u nd s f s' :
  ow_getForecast q u nd s = (inr f, s') ->
  exists o, forall fd, In fd (days f) -> day_summary (coalesce u (defaultUnits cfg)) (of_list o) fd.
Proof.
  unfold ow_getForecast. cbn zeta. intro H.
  apply bind_inr in H as [p [s1 [_ H]]]. apply bind_inr in H as [d [s2 [_ H]]].
  destruct d as [| |o|]; try discriminate. injection H as <- _. exists o.
  intros fd Hfd. cbn [days] in Hfd. unfold forecast_days in Hfd. cbn zeta in Hfd.
  apply in_map_iff in Hfd as [date [<- Hd]].
  apply day_of_summary. apply in_firstn in Hd. apply (proj1 (in_sort_strings _ _)) in Hd.
  exact Hd.
Qed.


Lemma rounds_pct_bounds k n c :
  (k <= n)%nat -> n <> 0%nat -> rounds_to (pct k n) c -> (0 <= c <= 100)%Z.
Proof.
  intros Hk Hn [H1 H2]. unfold pct in *.
  assert (Hp : 0 < inject_Z (Z.of_nat n)) by now apply inject_Z_pos.
  assert (Hkn : inject_Z (Z.of_nat k) <= inject_Z (Z.of_nat n)) by (rewrite <- Zle_Qle; lia).
  assert (Hk0 : 0 <= inject_Z (Z.of_nat k)) by (change 0 with (inject_Z 0); rewrite <- Zle_Qle; lia).
  assert (Hlo : 0 <= inject_Z (Z.of_nat k) / inject_Z (Z.of_nat n))
    by (apply Qle_shift_div_l; [exact Hp | lra]).
  assert (Hhi : inject_Z (Z.of_nat k) / inject_Z (Z.of_nat n) <= 1)
    by (apply Qle_shift_div_r; [exact Hp | lra]).
  set (y := inject_Z (Z.of_nat k) / inject_Z (Z.of_nat n)) in *. clearbody y.
  split.
  - destruct (Z_lt_le_dec c 0) as [Hc|Hc]; [|exact Hc]. exfalso.
    assert (inject_Z c <= inject_Z (-1)) by (rewrite <- Zle_Qle; lia).
    change (inject_Z (-1)) with (-1 # 1) in *. lra.
  - destruct (Z_lt_le_dec 100 c) as [Hc|Hc]; [|exact Hc]. exfalso.
    assert (inject_Z 101 <= inject_Z c) by (rewrite <- Zle_Qle; lia).
    change (inject_Z 101) with (101 # 1) in *. lra.
Qed.

(** On every day of an OpenWeather forecast the chances of rain and of snow
    are integers between 0 and 100. *)
Theorem ow_getForecast_chances_in_range q u nd s f s' :
  ow_getForecast q u nd s = (inr f, s') ->
  forall fd, In fd (days f) ->
    exists r n, chanceOfRainPct fd = Some r /\ chanceOfSnowPct fd = Some n /\
      (0 <= r <= 100)%Z /\ (0 <= n <= 100)%Z.
Proof.
  intro H. apply ow_forecast_summaries in H as [o Ho]. intros fd Hfd.
  destruct (Ho fd Hfd) as [HS [_ [_ [_ [_ [_ [_ [[r [R1 R2]] [n [N1 N2]]]]]]]]]].
  assert (HL : List.length (samples_of (of_list o) (fd_date fd)) <> 0%nat)
    by (destruct (samples_of (of_list o) (fd_date fd)); [contradiction | discriminate]).
  exists r, n. split; [exact R1|]. split; [exact N1|]. split.
  - eapply rounds_pct_bounds; [apply filter_length_le | exact HL | exact R2].
  - eapply rounds_pct_bounds; [apply filter_length_le | exact HL | exact N2].
Qed.

(** *** The alert registry: removal and registration *)

Lemma map_has_In {V} k (m : list (string * V)) :
  map_has k m = true <-> exists v, In (k, v) m.
Proof.
  unfold map_has. rewrite existsb_exists. split.
  - intros [[k' v] [Hin E]]. apply String.eqb_eq in E. simpl in E. subst. eauto.
  - intros [v Hin]. exists (k, v). split; [exact Hin | apply String.eqb_refl].
Qed.

Lemma map_delete_In {V} k (m : list (string * V)) k' v :
  In (k', v) (map_delete k m) <-> In (k', v) m /\ k' <> k.
Proof.
  unfold map_delete. rewrite filter_In. simpl. rewrite negb_true_iff, String.eqb_neq.
  reflexivity.
Qed.

(** removeAlert returns true exactly when the id was registered; afterwards
    the id has no entry, every other entry is kept, the alert objects are
    untouched, and removing the id again returns false. *)
Theorem removeAlert_deletes id s b s' :
  removeAlert id s = (inr b, s') ->
  (b = true <-> exists l, In (id, l) (alerts s)) /\
  (forall k l, In (k, l) (alerts s') <-> In (k, l) (alerts s) /\ k <> id) /\
  heap s' = heap s /\
  fst (removeAlert id s') = inr false.
Proof.
  unfold removeAlert. intro H. inversion H; subst. clear H. cbn [alerts heap set_alerts fst].
  split; [apply map_has_In|]. split; [intros; apply map_delete_In|]. split; [reflexivity|].
  f_equal. destruct (map_has id (map_delete id (alerts s))) eqn:E; [|reflexivity].
  apply map_has_In in E as [v Hv]. apply map_delete_In in Hv as [_ Hv]. contradiction.
Qed.

Lemma map_set_fresh {V} k (v : V) m :
  ~ (exists v', In (k, v') m) -> map_set k v m = (m ++ [(k, v)])%list.
Proof.
  induction m as [|[k' v'] m IH]; intro Hf; simpl; [reflexivity|].
  destruct (String.eqb k' k) eqn:E.
  - apply String.eqb_eq in E. subst. exfalso. apply Hf. exists v'. now left.
  - rewrite IH; [reflexivity|]. intros [v2 Hv2]. apply Hf. exists v2. now right.
Qed.

Lemma map_delete_app_fresh {V} k (v : V) m :
  ~ (exists v', In (k, v') m) -> map_delete k (m ++ [(k, v)])%list = m.
Proof.
  intro Hf. unfold map_delete. rewrite filter_app. cbn. rewrite String.eqb_refl. cbn.
  rewrite app_nil_r. rewrite <- (filter_true m) at 2. apply filter_ext_in.
  intros [k' v'] Hin. cbn. destruct (String.eqb k' k) eqn:E; [|reflexivity].
  apply String.eqb_eq in E. subst. exfalso. eauto.
Qed.

Lemma registerAlert_eq a s :
  registerAlert a s =
  let full := {| a_id := random_id (seed s); a_name := i_name a; a_location := i_location a;
                 a_condition := i_condition a; channel := i_channel a;
                 webhookUrl := i_webhookUrl a; sensitivity := i_sensitivity a;
                 createdAt := clock s; lastTriggeredAt := i_lastTriggeredAt a |} in
  (inr full, set_alerts (map_set (random_id (seed s)) (List.length (heap s)) (alerts s))
               (set_heap (heap s ++ [full]) (set_seed (S (seed s)) s))).
Proof. reflexivity. Qed.

(** When the generated id is not yet registered, registerAlert appends the
    new alert at the end of the registry and of the object store, and removing
    its id returns true and gives back the registry as it was before. *)
Theorem registerAlert_fresh_then_remove a s w s1 :
  ~ (exists l, In (random_id (seed s), l) (alerts s)) ->
  registerAlert a s = (inr w, s1) ->
  alerts s1 = (alerts s ++ [(a_id w, List.length (heap s))])%list /\
  heap s1 = (heap s ++ [w])%list /\
  removeAlert (a_id w) s1 = (inr true, set_alerts (alerts s) s1).
Proof.
  intros Hf H. rewrite registerAlert_eq in H. cbn zeta in H. inversion H; subst. clear H.
  cbn [alerts heap set_alerts set_heap set_seed a_id].
  rewrite map_set_fresh by exact Hf.
  split; [reflexivity|]. split; [reflexivity|].
  unfold removeAlert. cbn [alerts]. f_equal.
  - f_equal. apply map_has_In. exists (List.length (heap s)). apply in_or_app. right. now left.
  - cbn [alerts set_alerts]. rewrite map_delete_app_fresh by exact Hf. reflexivity.
Qed.

Lemma map_set_keys_present {V} k (v : V) m :
  (exists v', In (k, v') m) -> map fst (map_set k v m) = map fst m.
Proof.
  induction m as [|[k' v'] m IH]; intros [v2 Hv]; [contradiction|]. simpl.
  destruct (String.eqb k' k) eqn:E; [reflexivity|]. simpl. f_equal.
  destruct Hv as [Hv|Hv].
  - inversion Hv; subst. rewrite String.eqb_refl in E. discriminate.
  - apply IH. eauto.
Qed.

Lemma map_set_In_iff {V} k (v : V) m k' v' :
  NoDup (map fst m) ->
  In (k', v') (map_set k v m) <-> (k' = k /\ v' = v) \/ (In (k', v') m /\ k' <> k).
Proof.
  induction m as [|[k2 v2] m IH]; intro Hn; simpl.
  - split; [intros [H|[]]; inversion H; subst; now left|].
    intros [[-> ->]|[[] _]]. now left.
  - inversion Hn as [|? ? Hk Hn']; subst.
    destruct (String.eqb k2 k) eqn:E.
    + apply String.eqb_eq in E. subst k2. simpl. split.
      * intros [H|H]; [inversion H; subst; now left|].
        right. split; [now right|]. intro Ek. subst k'. apply Hk.
        apply in_map_iff. exists (k, v'). auto.
      * intros [[-> ->]|[[H|H] Hne]]; [now left| inversion H; subst; contradiction | now right].
    + simpl. rewrite IH by exact Hn'. split.
      * intros [H|[H|[H Hne]]]; [| now left | right; split; [now right | exact Hne]].
        inversion H; subst. right. split; [now left|]. intro Ek. subst.
        rewrite String.eqb_refl in E. discriminate.
      * intros [H|[[H|H] Hne]]; [right; now left | now left | right; right; now split].
Qed.

(** When the generated id is already registered, registerAlert keeps the
    registry's ids and their order and replaces the old entry under that id by
    the new object, so the old alert is no longer listed. *)
Theorem registerAlert_id_collision a s w s1 :
  NoDup (map fst (alerts s)) ->
  (exists l, In (random_id (seed s), l) (alerts s)) ->
  registerAlert a s = (inr w, s1) ->
  map fst (alerts s1) = map fst (alerts s) /\
  (forall k l, In (k, l) (alerts s1) <->
     (k = a_id w /\ l = List.length (heap s)) \/ (In (k, l) (alerts s) /\ k <> a_id w)).
Proof.
  intros Hn Hc H. rewrite registerAlert_eq in H. cbn zeta in H. inversion H; subst. clear H.
  cbn [alerts heap set_alerts set_heap set_seed a_id].
  split; [now apply map_set_keys_present|]. intros k l. now apply map_set_In_iff.
Qed.

(** *** What notify does *)

(** notify on an existing alert object resolves and sets the object's
    lastTriggeredAt to the current time.  A console alert gets one console
    line and no request; a webhook alert with a URL gets one POST carrying the
    stamped alert, and at most one warning if it fails; a webhook alert
    without a URL gets nothing. *)
Theorem notify_effects l m p s a r s' :
  nth_error (heap s) l = Some a ->
  notify l m p s = (r, s') ->
  r = inr tt /\ alerts s' = alerts s /\
  heap s' = list_update l (stamp (clock s)) (heap s) /\
  match channel a with
  | console => logs s' = (logs s ++ [AlertLine (a_id a) m p])%list /\ requests s' = requests s
  | webhook =>
      if truthy_ostr (webhookUrl a) then
        requests s' = (requests s ++ [WebhookPost (coalesce (webhookUrl a) "") (a_id a) m
                                        (stamp (clock s) a) p])%list /\
        (logs s' = logs s \/ exists e, logs s' = (logs s ++ [Warn "Webhook notify failed:" e])%list)
      else logs s' = logs s /\ requests s' = requests s
  end.
Proof.
  intros Ha H. unfold notify, bind, now, modify, deref in H.
  cbn [heap set_heap] in H. rewrite nth_error_list_update, Nat.eqb_refl, Ha in H.
  cbn [option_map channel stamp webhookUrl a_id] in H.
  destruct (channel a).
  - unfold log, modify in H. inversion H; subst. cbn. repeat split.
  - destruct (truthy_ostr (webhookUrl a)).
    + unfold try_catch, http, bind in H. cbn [clock set_heap] in H.
      destruct (net (clock s) _) as [dt [|j]]; cbn in H.
      * unfold log, modify in H. inversion H; subst. cbn.
        repeat split. right. eexists. reflexivity.
      * inversion H; subst. cbn. repeat split. now left.
    + inversion H; subst. cbn. repeat split.
Qed.

(** *** The scheduler *)

(** startAlertScheduler marks the scheduler started and logs its start line
    only if it was not started before; starting it again does nothing. *)
Theorem startAlertScheduler_idempotent s r1 s1 :
  startAlertScheduler s = (r1, s1) ->
  r1 = inr tt /\ schedulerStarted s1 = true /\
  logs s1 = (logs s ++ (if schedulerStarted s then [] else [Info "Alert scheduler started"]))%list /\
  startAlertScheduler s1 = (inr tt, s1).
Proof.
  unfold startAlertScheduler. intro H. destruct (schedulerStarted s) eqn:E.
  - inversion H; subst. rewrite E, app_nil_r. auto.
  - unfold log, modify in H. inversion H; subst. cbn. auto.
Qed.

(** *** Deployments with no provider *)

(** The empty forecast cache. *)
Definition no_forecast_cached (s : St) : Prop := forecastCache s = [].

Lemma http_nf r : preserves no_forecast_cached (http r).
Proof. intros s x s' H HP. unfold http in H. destruct (net (clock s) r) as [dt []]; fin. Qed.
Lemma log_nf l : preserves no_forecast_cached (log l). Proof. prim. Qed.
Lemma now_nf : preserves no_forecast_cached now. Proof. prim. Qed.
Lemma deref_nf l : preserves no_forecast_cached (deref l).
Proof. intros s x s' H HP. unfold deref in H. destruct (nth_error (heap s) l); fin. Qed.
Lemma heap_nf f : preserves no_forecast_cached (modify (fun s => set_heap (f s) s)). Proof. prim. Qed.
Lemma listAlerts_nf : preserves no_forecast_cached listAlerts. Proof. prim. Qed.
Lemma cget_nf k : preserves no_forecast_cached (currentCache_get k).
Proof.
  intros s x s' H HP. unfold currentCache_get in H.
  destruct (cache_get ttl_current (clock s) k (currentCache s)); fin.
Qed.
Lemma cset_nf k v : preserves no_forecast_cached (currentCache_set k v). Proof. prim. Qed.
Lemma hget_nf k : preserves no_forecast_cached (historicalCache_get k).
Proof.
  intros s x s' H HP. unfold historicalCache_get in H.
  destruct (cache_get ttl_historical (clock s) k (historicalCache s)); fin.
Qed.
Lemma hset_nf k v : preserves no_forecast_cached (historicalCache_set k v). Proof. prim. Qed.

#[local] Hint Resolve http_nf log_nf now_nf deref_nf heap_nf listAlerts_nf cget_nf cset_nf
  hget_nf hset_nf : pres.

Lemma wa_getCurrent_nf q : preserves no_forecast_cached (wa_getCurrent q).
Proof. unfold wa_getCurrent, wa_resolve. pres. Qed.
Lemma wa_getForecast_nf q d : preserves no_forecast_cached (wa_getForecast q d).
Proof. unfold wa_getForecast, wa_resolve. pres. Qed.
Lemma wa_getHistorical_nf q d : preserves no_forecast_cached (wa_getHistorical q d).
Proof. unfold wa_getHistorical, wa_resolve. pres. Qed.
Lemma ow_getCurrent_nf q u : preserves no_forecast_cached (ow_getCurrent q u).
Proof. unfold ow_getCurrent, ow_resolve. pres. Qed.
Lemma ow_getForecast_nf q u d : preserves no_forecast_cached (ow_getForecast q u d).
Proof. unfold ow_getForecast, ow_resolve. pres. Qed.

#[local] Hint Resolve wa_getCurrent_nf wa_getForecast_nf wa_getHistorical_nf ow_getCurrent_nf
  ow_getForecast_nf : pres.

Lemma getCurrentWeather_nf q u : preserves no_forecast_cached (getCurrentWeather q u).
Proof. unfold getCurrentWeather. pres. Qed.
Lemma getHistorical_nf q d : preserves no_forecast_cached (getHistorical q d).
Proof. unfold getHistorical. pres. Qed.
Lemma notify_nf l m p : preserves no_forecast_cached (notify l m p).
Proof. unfold notify. pres. Qed.

(** With no provider configured, getForecast keeps the forecast cache empty. *)
Lemma getForecast_nf q u d :
  truthy_str (weatherApiKey cfg) = false -> truthy_str (openWeatherApiKey cfg) = false ->
  preserves no_forecast_cached (getForecast q u d).
Proof.
  intros Hw Ho s r s' H HP. unfold getForecast in H.
  rewrite Hw, Ho in H. unfold bind, forecastCache_get in H. rewrite HP in H.
  simpl in H. inversion H; subst. reflexivity.
Qed.

#[local] Hint Resolve getCurrentWeather_nf getHistorical_nf notify_nf : pres.

Lemma evaluateAlert_nf l :
  truthy_str (weatherApiKey cfg) = false -> truthy_str (openWeatherApiKey cfg) = false ->
  preserves no_forecast_cached (evaluateAlert l).
Proof. intros Hw Ho. unfold evaluateAlert. pres; apply getForecast_nf; assumption. Qed.

Lemma reachable_no_forecast s :
  truthy_str (weatherApiKey cfg) = false -> truthy_str (openWeatherApiKey cfg) = false ->
  reachable s -> no_forecast_cached s.
Proof.
  intros Hw Ho. revert s. apply reachable_inv.
  - reflexivity.
  - apply getCurrentWeather_nf.
  - intros. now apply getForecast_nf.
  - apply getHistorical_nf.
  - intro a. apply registerAlert_pres. intros. exact H.
  - intros id s0 r s1 H HP. inversion H; subst. exact HP.
  - apply pollAlerts_pres; auto with pres. intro. now apply evaluateAlert_nf.
  - intros s0 r s1 H HP. unfold startAlertScheduler in H.
    destruct (schedulerStarted s0); inversion H; subst; exact HP.
  - intros s0 r s1 H HP. inversion H; subst. exact HP.
  - intros t s0 HP. exact HP.
Qed.

Lemma set_forecastCache_nil s : no_forecast_cached s -> set_forecastCache [] s = s.
Proof. unfold no_forecast_cached. intro H. rewrite <- H. apply set_forecastCache_id. Qed.

Lemma set_currentCache_nil s : no_current s -> set_currentCache [] s = s.
Proof. unfold no_current. intro H. rewrite <- H. apply set_currentCache_id. Qed.

(** With no API key configured, getForecast fails with the no-provider error
    in every reachable state and leaves the state unchanged. *)
Theorem getForecast_no_provider q u d s :
  truthy_str (weatherApiKey cfg) = false -> truthy_str (openWeatherApiKey cfg) = false ->
  reachable s -> getForecast q u d s = (inl (Error no_provider_msg), s).
Proof.
  intros Hw Ho R. pose proof (reachable_no_forecast s Hw Ho R) as HP.
  unfold getForecast. rewrite Hw, Ho. unfold bind, forecastCache_get.
  unfold no_forecast_cached in HP. rewrite HP. simpl. rewrite <- HP.
  now rewrite set_forecastCache_id.
Qed.

Lemma no_provider_current q u s :
  truthy_str (weatherApiKey cfg) = false -> truthy_str (openWeatherApiKey cfg) = false ->
  no_current s -> getCurrentWeather q u s = (inl (Error no_provider_msg), s).
Proof.
  intros Hw Ho HP. unfold getCurrentWeather. rewrite Hw, Ho. unfold bind, currentCache_get.
  unfold no_current in HP. rewrite HP. simpl. rewrite <- HP. now rewrite set_currentCache_id.
Qed.

Lemma no_provider_forecast q u d s :
  truthy_str (weatherApiKey cfg) = false -> truthy_str (openWeatherApiKey cfg) = false ->
  no_forecast_cached s -> getForecast q u d s = (inl (Error no_provider_msg), s).
Proof.
  intros Hw Ho HP. unfold getForecast. rewrite Hw, Ho. unfold bind, forecastCache_get.
  unfold no_forecast_cached in HP. rewrite HP. simpl. rewrite <- HP. now rewrite set_forecastCache_id.
Qed.

Lemma no_provider_evaluate l s w :
  truthy_str (weatherApiKey cfg) = false -> truthy_str (openWeatherApiKey cfg) = false ->
  no_current s -> no_forecast_cached s -> nth_error (heap s) l = Some w ->
  evaluateAlert l s = (inl (Error no_provider_msg), s).
Proof.
  intros Hw Ho Hc Hf Hl. unfold evaluateAlert. unfold bind at 1, deref. rewrite Hl. cbn zeta.
  destruct (ctype (a_condition w)); unfold bind;
    first [rewrite no_provider_current by assumption | rewrite no_provider_forecast by assumption];
    reflexivity.
Qed.

Definition eval_failed (kv : string * nat) : LogLine :=
  Warn ("Alert evaluation failed: " ++ fst kv) (Error no_provider_msg).

Lemma set_logs_set_logs L L' s : set_logs L' (set_logs L s) = set_logs L' s.
Proof. reflexivity. Qed.

Lemma set_logs_id s : set_logs (logs s) s = s.
Proof. destruct s; reflexivity. Qed.

Lemma sweep_no_provider kvs L s :
  truthy_str (weatherApiKey cfg) = false -> truthy_str (openWeatherApiKey cfg) = false ->
  no_current s -> no_forecast_cached s ->
  (forall k l, In (k, l) kvs -> exists w, nth_error (heap s) l = Some w /\ a_id w = k) ->
  sweep (map snd kvs) (set_logs L s) = (inr tt, set_logs (L ++ map eval_failed kvs) s).
Proof.
  intros Hw Ho Hc Hf. revert L. induction kvs as [|[k l] kvs IH]; intros L Hr; simpl.
  - rewrite app_nil_r. reflexivity.
  - destruct (Hr k l (or_introl eq_refl)) as [w [Hl Hk]].
    unfold bind at 1, try_catch.
    rewrite (no_provider_evaluate l (set_logs L s) w) by assumption.
    unfold bind, deref. cbn [heap set_logs]. rewrite Hl. unfold log, modify.
    cbn [logs set_logs]. rewrite set_logs_set_logs. rewrite Hk.
    rewrite IH by (intros; apply Hr; now right).
    rewrite <- app_assoc. reflexivity.
Qed.

Lemma registry_wf_resolves s k l :
  registry_wf s = true -> In (k, l) (alerts s) ->
  exists w, nth_error (heap s) l = Some w /\ a_id w = k.
Proof.
  intros Hw Hin. destruct (nth_error (heap s) l) as [w|] eqn:E.
  - exists w. split; [reflexivity|]. eapply registry_wf_id; eauto.
  - apply andb_true_iff in Hw as [_ Hf]. rewrite forallb_forall in Hf.
    specialize (Hf _ Hin). simpl in Hf. rewrite E in Hf. discriminate.
Qed.

(** With no API key configured, a poll in a reachable state resolves after
    logging one "Alert evaluation failed" warning with the no-provider error
    per registered alert, in registry order, and changes nothing else. *)
Theorem pollAlerts_without_provider s :
  truthy_str (weatherApiKey cfg) = false -> truthy_str (openWeatherApiKey cfg) = false ->
  reachable s ->
  pollAlerts s =
    (inr tt, set_logs (logs s ++
       map (fun kv => Warn ("Alert evaluation failed: " ++ fst kv) (Error no_provider_msg))
           (alerts s)) s).
Proof.
  intros Hw Ho R. unfold pollAlerts, bind at 1, listAlerts.
  rewrite <- (set_logs_id s) at 2.
  rewrite sweep_no_provider; auto.
  - now apply reachable_no_current.
  - now apply reachable_no_forecast.
  - intros k l Hin. apply registry_wf_resolves; [|exact Hin]. now apply reachable_registry_wf.
Qed.

(** *** A WeatherAPI answer is final *)

(** With the WeatherAPI key set, on a cache miss where WeatherAPI answers,
    getCurrentWeather returns WeatherAPI's record and only caches it:
    OpenWeather is not asked and nothing is logged. *)
Theorem getCurrentWeather_weatherapi_first q u s s0 c s2 :
  truthy_str (weatherApiKey cfg) = true ->
  currentCache_get (current_key q u) s = (inr None, s0) ->
  wa_getCurrent q s0 = (inr c, s2) ->
  getCurrentWeather q u s =
    (inr c, set_currentCache (cache_set cache_max (clock s2) (current_key q u) c
                                        (currentCache s2)) s2).
Proof.
  intros Hw Hc Ha. unfold getCurrentWeather. fold (current_key q u).
  rewrite (bind_ok _ _ s None s0) by exact Hc. rewrite Hw.
  rewrite (bind_ok _ _ s0 (Some c) s2)
    by (rewrite (try_ok _ _ _ (Some c) s2) by (rewrite (bind_ok _ _ _ c s2) by exact Ha;
                                                 reflexivity); reflexivity).
  reflexivity.
Qed.

(** With the WeatherAPI key set, on a cache miss where WeatherAPI answers,
    getForecast returns WeatherAPI's forecast and only caches it. *)
Theorem getForecast_weatherapi_first q u n s s0 f s2 :
  truthy_str (weatherApiKey cfg) = true ->
  forecastCache_get (forecast_key q u n) s = (inr None, s0) ->
  wa_getForecast q (Some (coalesce n 3%nat)) s0 = (inr f, s2) ->
  getForecast q u n s =
    (inr f, set_forecastCache (cache_set cache_max (clock s2) (forecast_key q u n) f
                                         (forecastCache s2)) s2).
Proof.
  intros Hw Hc Ha. unfold getForecast. cbn zeta. fold (forecast_key q u n).
  rewrite (bind_ok _ _ s None s0) by exact Hc. rewrite Hw.
  rewrite (bind_ok _ _ s0 (Some f) s2)
    by (rewrite (try_ok _ _ _ (Some f) s2) by (rewrite (bind_ok _ _ _ f s2) by exact Ha;
                                                 reflexivity); reflexivity).
  reflexivity.
Qed.

(** *** Coordinates take precedence over the city *)

Lemma resolve_coords q q' la lo :
  lat q = Some la -> lon q = Some lo -> lat q' = Some la -> lon q' = Some lo ->
  resolveQuery q = resolveQuery q' /\ resolveQueryParams q = resolveQueryParams q'.
Proof.
  intros H1 H2 H3 H4. unfold resolveQuery, resolveQueryParams.
  rewrite H1, H2, H3, H4. split; reflexivity.
Qed.

(** When a query has both lat and lon, the five adapter operations that
    take a query behave the same whatever its city and country. *)
Theorem adapters_ignore_city_given_coordinates q q' la lo :
  lat q = Some la -> lon q = Some lo -> lat q' = Some la -> lon q' = Some lo ->
  forall s,
    wa_getCurrent q s = wa_getCurrent q' s /\
    (forall d, wa_getForecast q d s = wa_getForecast q' d s) /\
    (forall d, wa_getHistorical q d s = wa_getHistorical q' d s) /\
    (forall u, ow_getCurrent q u s = ow_getCurrent q' u s) /\
    (forall u d, ow_getForecast q u d s = ow_getForecast q' u d s).
Proof.
  intros H1 H2 H3 H4 s. destruct (resolve_coords q q' la lo H1 H2 H3 H4) as [Ew Eo].
  unfold wa_getCurrent, wa_getForecast, wa_getHistorical, ow_getCurrent, ow_getForecast,
    wa_resolve, ow_resolve.
  rewrite Ew, Eo. repeat split.
Qed.


End Program.

(** * Examples at concrete inputs *)

Import Fixtures.

Definition paris_call1 :=
  Eval vm_compute in getCurrentWeather cfg_both net_wa_down show_num encode parse q_paris None
                       (init_state 1000 0).

Definition paris_r : CurrentWeather := Eval vm_compute in ow_current_of show_num metric ow_paris_now.
Definition paris_s1 : St := Eval vm_compute in snd paris_call1.

Lemma getCurrentWeather_repeat_within_ttl_witness :
  getCurrentWeather cfg_both net_wa_down show_num encode parse q_paris None (init_state 1000 0)
    = (inr paris_r, paris_s1) /\
  exists start,
    (fst (cache_get (ttl_current cfg_both) 1000 (current_key cfg_both q_paris None)
            (currentCache (init_state 1000 0))) = None ->
     start = clock paris_s1) /\
    forall t, is_stale (ttl_current cfg_both) t start = false ->
      getCurrentWeather cfg_both net_wa_down show_num encode parse q_paris None
        (set_clock t paris_s1) = (inr paris_r, set_clock t paris_s1).
Proof.
  split; [vm_compute; reflexivity|].
  apply (getCurrentWeather_repeat_within_ttl cfg_both net_wa_down show_num encode parse
           q_paris None (init_state 1000 0)).
  vm_compute; reflexivity.
Defined.

(** C4 as stated fails: a first call that succeeded after WeatherAPI failed
    issued two upstream requests, so the two calls together issue two, not
    one. *)
Lemma getCurrentWeather_two_upstream_calls :
  let '(r1, s1) := getCurrentWeather cfg_both net_wa_down show_num encode parse q_paris None
                     (init_state 1000 0) in
  let '(r2, s2) := getCurrentWeather cfg_both net_wa_down show_num encode parse q_paris None s1 in
  r1 = inr paris_r /\ r2 = r1 /\ List.length (requests s2) = 2%nat.
Proof. vm_compute. auto. Qed.

Definition fb_s0 : St :=
  Eval vm_compute in snd (currentCache_get cfg_both (current_key cfg_both q_paris None)
                            (init_state 1000 0)).
Definition fb_wa := Eval vm_compute in wa_getCurrent net_wa_down show_num encode parse q_paris fb_s0.

Lemma getCurrentWeather_fallback_to_openweather_witness :
  let r := ow_current_of show_num metric ow_paris_now in
  exists s3,
    getCurrentWeather cfg_both net_wa_down show_num encode parse q_paris None (init_state 1000 0)
      = (inr r, s3) /\
    provider r = "openweather" /\
    In (Warn "WeatherAPI current failed, falling back to OpenWeather:"
             (AxiosError (WAGet WACurrentEP "Paris,FR"))) (logs s3).
Proof.
  apply (getCurrentWeather_fallback_to_openweather cfg_both net_wa_down show_num encode parse
           q_paris None (init_state 1000 0) fb_s0 (AxiosError (WAGet WACurrentEP "Paris,FR"))
           (snd fb_wa) "q=Paris,FR" 80 ow_paris_now); vm_compute; reflexivity.
Defined.

Lemma getCurrentWeather_terminal_error_witness :
  getCurrentWeather cfg_none net_down show_num encode parse q_paris None (init_state 1000 0)
    = (inl (Error no_provider_msg), init_state 1000 0) /\
  exists s3, getCurrentWeather cfg_wa_only net_down show_num encode parse q_paris None
               (init_state 1000 0) = (inl (Error no_provider_msg), s3).
Proof.
  split.
  - apply (proj1 (getCurrentWeather_terminal_error cfg_none net_down show_num encode parse rid
                    q_paris None (init_state 1000 0))); [reflexivity | reflexivity | constructor].
  - apply (proj2 (getCurrentWeather_terminal_error cfg_wa_only net_down show_num encode parse rid
                    q_paris None (init_state 1000 0))
             (snd (currentCache_get cfg_wa_only (current_key cfg_wa_only q_paris None)
                     (init_state 1000 0)))
             (AxiosError (WAGet WACurrentEP "Paris,FR"))
             (snd (wa_getCurrent net_down show_num encode parse q_paris
                     (snd (currentCache_get cfg_wa_only (current_key cfg_wa_only q_paris None)
                             (init_state 1000 0))))));
      vm_compute; reflexivity.
Defined.

(** C5 as stated fails: the deployment without providers (no request) and
    the deployment whose only provider failed (one request) end with the same
    error value. *)
Lemma terminal_error_does_not_distinguish :
  let '(r1, s1) := getCurrentWeather cfg_none net_down show_num encode parse q_paris None
                     (init_state 1000 0) in
  let '(r2, s2) := getCurrentWeather cfg_wa_only net_down show_num encode parse q_paris None
                     (init_state 1000 0) in
  r1 = inl (Error no_provider_msg) /\ r2 = r1 /\
  List.length (requests s1) = 0%nat /\ List.length (requests s2) = 1%nat.
Proof. vm_compute. auto. Qed.

Lemma getHistorical_weatherapi_only_witness :
  getHistorical cfg_ow_only net_down show_num encode parse q_paris "2023-11-14"
    (init_state 1000 0) = (inl (Error no_historical_msg), init_state 1000 0) /\
  exists s3, getHistorical cfg_both net_down show_num encode parse q_paris "2023-11-14"
               (init_state 1000 0) = (inl (Error no_historical_msg), s3).
Proof.
  split.
  - apply (proj1 (proj2 (proj2 (getHistorical_weatherapi_only cfg_ow_only net_down show_num
             encode parse rid q_paris "2023-11-14" (init_state 1000 0)))));
      [reflexivity | constructor].
  - apply (proj2 (proj2 (proj2 (getHistorical_weatherapi_only cfg_both net_down show_num
             encode parse rid q_paris "2023-11-14" (init_state 1000 0))))
             (snd (historicalCache_get cfg_both (historical_key q_paris "2023-11-14")
                     (init_state 1000 0)))
             (AxiosError (WAGet (WAHistoryEP "2023-11-14") "Paris,FR"))
             (snd (wa_getHistorical net_down show_num encode parse q_paris "2023-11-14"
                     (snd (historicalCache_get cfg_both (historical_key q_paris "2023-11-14")
                             (init_state 1000 0))))));
      vm_compute; reflexivity.
Defined.

Definition ow_down_call :=
  Eval vm_compute in getCurrentWeather cfg_ow_only net_down show_num encode parse q_paris None
                       (init_state 1000 0).

Lemma aggregator_failures_witness :
  AxiosError (OWGet OWWeatherEP "q=Paris,FR" metric) = Error no_provider_msg \/
  (truthy_str (openWeatherApiKey cfg_ow_only) = true /\
   exists s1, ow_getCurrent cfg_ow_only net_down show_num encode q_paris (Some metric) s1
              = (inl (AxiosError (OWGet OWWeatherEP "q=Paris,FR" metric)), snd ow_down_call)).
Proof.
  apply (proj1 (aggregator_failures cfg_ow_only net_down show_num encode parse q_paris None None
                  "2023-11-14" (init_state 1000 0)
                  (AxiosError (OWGet OWWeatherEP "q=Paris,FR" metric)) (snd ow_down_call))).
  vm_compute. reflexivity.
Defined.

(** C1 as stated fails: with only OpenWeather configured and its request
    failing, getCurrentWeather and getForecast hand the transport error of
    OpenWeather's request to the caller, not the terminal error. *)
Lemma openweather_error_reaches_caller :
  fst (getCurrentWeather cfg_ow_only net_down show_num encode parse q_paris None
         (init_state 1000 0))
    = inl (AxiosError (OWGet OWWeatherEP "q=Paris,FR" metric)) /\
  fst (getForecast cfg_ow_only net_down show_num encode q_paris None None
         (init_state 1000 0))
    = inl (AxiosError (OWGet OWForecastEP "q=Paris,FR" metric)).
Proof. vm_compute. split; reflexivity. Qed.

Lemma adapters_reject_unaddressable_witness :
  query_addressable q_half = false /\
  wa_getHistorical net_down show_num encode parse q_half "2023-11-14" (init_state 1000 0)
    = (inl (Error wa_invalid_msg), init_state 1000 0).
Proof.
  split; [reflexivity|].
  apply (adapters_reject_unaddressable cfg_both net_down show_num encode parse q_half None None
           "2023-11-14" (init_state 1000 0)).
  reflexivity.
Defined.

(** C7 as stated fails: OpenWeather's historical operation does not fail,
    whatever the query; it takes none. *)
Lemma openweather_historical_never_fails :
  query_addressable q_half = false /\
  ow_getHistorical (init_state 1000 0) = (inr None, init_state 1000 0).
Proof. split; reflexivity. Qed.

(** A webhook alert registered without a URL; a console alert with one. *)
Definition hook_no_url : AlertInput :=
  {| i_lastTriggeredAt := None; i_name := None; i_location := q_paris;
     i_condition := {| ctype := temp_above; threshold := Some 30; daysAhead := None |};
     i_channel := webhook; i_webhookUrl := None; i_sensitivity := Some high |}.

Definition console_with_url : AlertInput :=
  {| i_lastTriggeredAt := None; i_name := None; i_location := q_paris;
     i_condition := {| ctype := temp_above; threshold := Some 30; daysAhead := None |};
     i_channel := console; i_webhookUrl := Some "https://example.org/hook";
     i_sensitivity := None |}.

Definition reg_hook := Eval vm_compute in registerAlert rid hook_no_url (init_state 1000 0).

Lemma registerAlert_stores_as_given_witness :
  exists w, fst reg_hook = inr w /\
    channel w = webhook /\ webhookUrl w = None /\
    nth_error (heap (snd reg_hook)) 0 = Some w /\ In (a_id w, 0%nat) (alerts (snd reg_hook)).
Proof.
  apply (registerAlert_stores_as_given rid hook_no_url (init_state 1000 0)
           (fst reg_hook) (snd reg_hook)).
  vm_compute. reflexivity.
Defined.

(** C8 as stated fails: both inconsistent alerts are stored as given, and
    notifying the webhook alert without a URL stamps it and sends nothing. *)
Lemma inconsistent_alerts_are_stored :
  let '(_, s1) := registerAlert rid hook_no_url (init_state 1000 0) in
  let '(_, s2) := registerAlert rid console_with_url s1 in
  let '(_, s3) := notify net_down 0 (MsgTempAbove 27 "Paris") (PCurrent paris_r) s2 in
  map (fun w => (channel w, webhookUrl w)) (heap s2)
    = [(webhook, None); (console, Some "https://example.org/hook")] /\
  map fst (alerts s2) = ["a"; "b"] /\
  requests s3 = [] /\
  option_map lastTriggeredAt (nth_error (heap s3) 0) = Some (Some 1000%Z).
Proof. vm_compute. repeat split. Qed.

(** A console temp_above alert at 30 over Paris, with sensitivity [sens]. *)
Definition paris_alert (sens : option Sensitivity) : WeatherAlert :=
  {| a_id := "a"; a_name := None; a_location := q_paris;
     a_condition := {| ctype := temp_above; threshold := Some 30; daysAhead := None |};
     channel := console; webhookUrl := None; sensitivity := sens;
     createdAt := 1000; lastTriggeredAt := None |}.

Definition alert_state (sens : option Sensitivity) : St :=
  set_alerts [("a", 0%nat)] (set_heap [paris_alert sens] (init_state 1000 0)).

Definition high_call :=
  Eval vm_compute in getCurrentWeather cfg_both net_wa_down show_num encode parse q_paris None
                       (alert_state (Some high)).

Lemma alert_threshold_sensitivity_witness :
  evaluateAlert cfg_both net_wa_down show_num encode parse 0 (alert_state (Some high)) =
    if trips temp_above (adjustThreshold 30 (Some high)) paris_r
    then notify net_wa_down 0 (trip_message temp_above (adjustThreshold 30 (Some high)) "Paris")
           (PCurrent paris_r) (snd high_call)
    else (inr tt, snd high_call).
Proof.
  apply (proj1 (proj2 (alert_threshold_sensitivity cfg_both net_wa_down show_num encode parse
                         0 (alert_state (Some high)) (paris_alert (Some high))))).
  - reflexivity.
  - discriminate.
  - reflexivity.
  - vm_compute. reflexivity.
Defined.

(** At 28 degrees, one sweep over the alert at 30 notifies (one console line,
    the alert stamped) with sensitivity high, and does nothing to the alert
    with sensitivity low. *)
Example sensitivity_at_28 :
  let '(_, sh) := pollAlerts cfg_both net_wa_down show_num encode parse (alert_state (Some high)) in
  let '(_, sl) := pollAlerts cfg_both net_wa_down show_num encode parse (alert_state (Some low)) in
  List.length (filter (fun x => match x with AlertLine _ _ _ => true | _ => false end) (logs sh))
    = 1%nat /\
  option_map lastTriggeredAt (nth_error (heap sh) 0) = Some (Some (clock sh)) /\
  filter (fun x => match x with AlertLine _ _ _ => true | _ => false end) (logs sl) = [] /\
  heap sl = [paris_alert (Some low)].
Proof. vm_compute. repeat split. Qed.

(** WeatherAPI answers every forecast request for Paris with one day whose
    chance of rain is 55%. *)
Definition wa_rain55_day : WAForecastDay :=
  {| wfd_date := "2023-11-14";
     wfd_day := Some {| avgtemp_c := None; avgtemp_f := None; maxtemp_c := None;
                        maxtemp_f := None; mintemp_c := None; mintemp_f := None;
                        daily_chance_of_rain := Some 55%Z; daily_chance_of_snow := None;
                        avghumidity := None; maxwind_kph := None; maxwind_mph := None;
                        day_condition := None |} |}.

Definition net_rain55 (t : Z) (r : Request) : Z * Response :=
  match r with
  | WAGet _ _ =>
      (50%Z, ROk (JWA {| wa_location := {| wl_name := "Paris"; wl_lat := 48857 # 1000;
                                           wl_lon := 2352 # 1000; wl_country := Some "France" |};
                         wa_current := None; wa_forecastday := Some [wa_rain55_day] |}))
  | _ => net_wa_down t r
  end.

(** A console rain alert over Paris, with sensitivity [sens]. *)
Definition rain_alert (sens : option Sensitivity) : WeatherAlert :=
  {| a_id := "r"; a_name := None; a_location := q_paris;
     a_condition := {| ctype := rain; threshold := None; daysAhead := None |};
     channel := console; webhookUrl := None; sensitivity := sens;
     createdAt := 1000; lastTriggeredAt := None |}.

Definition rain_state (sens : option Sensitivity) : St :=
  set_alerts [("r", 0%nat)] (set_heap [rain_alert sens] (init_state 1000 0)).

Definition alert_lines (s : St) : list LogLine :=
  filter (fun x => match x with AlertLine _ _ _ => true | _ => false end) (logs s).

(** The low-sensitivity rain threshold is 55 in the spec and 55.00000000000001
    in the code.  With a forecast day at 55% the spec's rain alert trips; the
    code's does not: the sweep writes no alert line and leaves the alert
    unstamped, while the same alert with sensitivity medium notifies. *)
Lemma low_rain_at_55_not_notified :
  spec_effective_threshold 50 (Some low) == 55 /\
  adjustThreshold 50 (Some low) == 7740561859543041 # 140737488355328 /\
  55 < adjustThreshold 50 (Some low) /\
  (exists f s1, getForecast cfg_both net_rain55 show_num encode q_paris None (Some 1%nat)
                  (rain_state (Some low)) = (inr f, s1) /\
                map chanceOfRainPct (days f) = [Some 55%Z]) /\
  (let '(_, sl) := pollAlerts cfg_both net_rain55 show_num encode parse (rain_state (Some low)) in
   alert_lines sl = [] /\ heap sl = [rain_alert (Some low)]) /\
  (let '(_, sm) := pollAlerts cfg_both net_rain55 show_num encode parse (rain_state (Some medium)) in
   List.length (alert_lines sm) = 1%nat).
Proof.
  split; [reflexivity|]. split; [vm_compute; reflexivity|]. split; [vm_compute; reflexivity|].
  split; [|vm_compute; repeat split].
  do 2 eexists. split; [vm_compute; reflexivity | reflexivity].
Qed.

(** Two console alerts over Paris: "a" of type temp_above without a
    threshold, "b" of type temp_above at 20. *)
Definition no_threshold_alert : WeatherAlert :=
  {| a_id := "a"; a_name := None; a_location := q_paris;
     a_condition := {| ctype := temp_above; threshold := None; daysAhead := None |};
     channel := console; webhookUrl := None; sensitivity := None;
     createdAt := 1000; lastTriggeredAt := None |}.

Definition at_20_alert : WeatherAlert :=
  {| a_id := "b"; a_name := None; a_location := q_paris;
     a_condition := {| ctype := temp_above; threshold := Some 20; daysAhead := None |};
     channel := console; webhookUrl := None; sensitivity := None;
     createdAt := 1000; lastTriggeredAt := None |}.

Definition two_alerts : St :=
  set_alerts [("a", 0%nat); ("b", 1%nat)]
    (set_heap [no_threshold_alert; at_20_alert] (init_state 1000 0)).

Definition poll_two :=
  Eval vm_compute in pollAlerts cfg_both net_wa_down show_num encode parse two_alerts.

Lemma pollAlerts_skips_thresholdless_witness :
  nth_error (heap (snd poll_two)) 0 = Some no_threshold_alert /\
  (exists nl, logs (snd poll_two) = (logs two_alerts ++ nl)%list /\
              forallb (not_alert_line "a") nl = true) /\
  (exists nr, requests (snd poll_two) = (requests two_alerts ++ nr)%list /\
              forallb (not_webhook "a") nr = true).
Proof.
  apply (pollAlerts_skips_thresholdless cfg_both net_wa_down show_num encode parse two_alerts 0
           no_threshold_alert (fst poll_two) (snd poll_two)).
  - reflexivity.
  - simpl. left. reflexivity.
  - reflexivity.
  - discriminate.
  - reflexivity.
  - vm_compute. reflexivity.
Defined.

(** In that sweep "b" is notified (one console line, stamped) while "a"
    is left alone. *)
Example two_alerts_sweep :
  map (fun x => match x with AlertLine i _ _ => i | _ => "-" end)
      (filter (fun x => match x with AlertLine _ _ _ => true | _ => false end)
              (logs (snd poll_two))) = ["b"] /\
  option_map lastTriggeredAt (nth_error (heap (snd poll_two)) 1) <> Some None.
Proof. vm_compute. split; [reflexivity | discriminate]. Qed.

Definition no_forecast : Forecast :=
  {| f_provider := "-";
     f_location := {| loc_name := "-"; loc_lat := 0; loc_lon := 0; loc_country := None |};
     days := [] |}.

Definition paris_forecast_call :=
  Eval vm_compute in ow_getForecast cfg_both net_wa_down show_num encode q_paris None None
                       (init_state 1000 0).

Definition paris_forecast : Forecast :=
  Eval vm_compute in match fst paris_forecast_call with inr f => f | inl _ => no_forecast end.

Lemma ow_getForecast_buckets_witness :
  exists params s1 dt o,
    net_wa_down (clock s1) (OWGet OWForecastEP params (unitsParam metric))
      = (dt, ROk (JOWForecast o)) /\
    let dates := sort_strings (map fst (aggregate metric (of_list o))) in
    Sorted String_as_OT.lt dates /\
    (forall d, In d dates <-> exists it, In it (of_list o) /\ item_date it = d) /\
    map fd_date (days paris_forecast) = firstn 3 dates /\
    (forall fd, In fd (days paris_forecast) -> day_summary metric (of_list o) fd).
Proof.
  apply (ow_getForecast_buckets cfg_both net_wa_down show_num encode parse q_paris None None
           (init_state 1000 0) paris_forecast (snd paris_forecast_call)).
  vm_compute. reflexivity.
Defined.

(** The spec's example: on the first date 2 of the 4 slots carry rain (a
    slot with [rain.3h = 0] does not), on the second 0 of 2. *)
Example two_days_rain_chances :
  map fd_date (days paris_forecast) = ["2023-11-14"; "2023-11-15"] /\
  map chanceOfRainPct (days paris_forecast) = [Some 50%Z; Some 0%Z] /\
  map avgTempC (days paris_forecast) = [Some (48 # 4); Some (20 # 2)] /\
  map maxTempC (days paris_forecast) = [Some 14; Some 11] /\
  map minTempC (days paris_forecast) = [Some 10; Some 9].
Proof. vm_compute. repeat split. Qed.

(** ** Examples for the further properties *)

(** A WeatherAPI answer for Paris with current conditions and one day. *)
Definition wa_paris_loc : WALocation :=
  {| wl_name := "Paris"; wl_lat := 48857 # 1000; wl_lon := 2352 # 1000;
     wl_country := Some "France" |}.

Definition wa_paris_cur : WACurrent :=
  {| last_updated := Some "2023-11-14 12:00"; temp_c := 20; temp_f := 68;
     feelslike_c := Some 19; feelslike_f := Some (662 # 10); wa_humidity := Some 50;
     wind_kph := Some 10; wind_mph := Some (62 # 10); wind_dir := Some "W";
     pressure_mb := Some 1015; wa_uv := Some 3;
     wa_condition := Some {| wc_text := Some "Sunny"; wc_icon := Some "//sun.png";
                             wc_code := Some 1000%Z |} |}.

Definition wa_paris_day : WAForecastDay :=
  {| wfd_date := "2023-11-14";
     wfd_day := Some {| avgtemp_c := Some 18; avgtemp_f := Some (644 # 10);
                        maxtemp_c := Some 22; maxtemp_f := Some (716 # 10);
                        mintemp_c := Some 14; mintemp_f := Some (572 # 10);
                        daily_chance_of_rain := Some 20%Z; daily_chance_of_snow := Some 0%Z;
                        avghumidity := Some 55; maxwind_kph := Some 15;
                        maxwind_mph := Some (93 # 10); day_condition := None |} |}.

Definition wa_paris : WAJson :=
  {| wa_location := wa_paris_loc; wa_current := Some wa_paris_cur;
     wa_forecastday := Some [wa_paris_day] |}.

(** Both providers answer. *)
Definition net_up (t : Z) (r : Request) : Z * Response :=
  match r with
  | WAGet _ _ => (50%Z, ROk (JWA wa_paris))
  | _ => net_wa_down t r
  end.

Definition reg1 : St := snd (registerAlert rid console_with_url (init_state 1000 0)).
Definition reg2 : St := snd (registerAlert rid hook_no_url reg1).

Lemma reg2_reachable cfg net nts enc pd : reachable cfg net nts enc pd rid reg2.
Proof.
  eapply reach_step; [eapply reach_step; [apply reach_init | apply step_register]
                     | apply step_register].
Qed.

Lemma reg1_reachable cfg net nts enc pd : reachable cfg net nts enc pd rid reg1.
Proof. eapply reach_step; [apply reach_init | apply step_register]. Qed.

Lemma registry_consistent_witness :
  NoDup (map fst (alerts reg2)) /\
  forall k l, In (k, l) (alerts reg2) -> exists w, nth_error (heap reg2) l = Some w /\ a_id w = k.
Proof.
  apply (registry_consistent cfg_both net_wa_down show_num encode parse rid reg2).
  apply reg2_reachable.
Defined.

Lemma pollAlerts_never_rejects_witness :
  fst (pollAlerts cfg_both net_down show_num encode parse reg2) = inr tt.
Proof.
  apply (pollAlerts_never_rejects cfg_both net_down show_num encode parse rid reg2).
  apply reg2_reachable.
Defined.

Lemma pollAlerts_only_stamps_witness :
  alerts (snd poll_two) = alerts two_alerts /\ Forall2 stamped (heap two_alerts) (heap (snd poll_two)).
Proof.
  apply (pollAlerts_only_stamps cfg_both net_wa_down show_num encode parse two_alerts
           (fst poll_two) (snd poll_two)).
  vm_compute. reflexivity.
Defined.

Definition paris_state : St :=
  snd (getCurrentWeather cfg_both net_wa_down show_num encode parse q_paris None (init_state 1000 0)).

Lemma caches_bounded_witness :
  ((List.length (currentCache paris_state) <= 500)%nat /\ NoDup (map e_key (currentCache paris_state))) /\
  ((List.length (forecastCache paris_state) <= 500)%nat /\ NoDup (map e_key (forecastCache paris_state))) /\
  (List.length (historicalCache paris_state) <= 500)%nat /\ NoDup (map e_key (historicalCache paris_state)).
Proof.
  apply (caches_bounded cfg_both net_wa_down show_num encode parse rid paris_state).
  eapply reach_step; [apply reach_init | apply step_current].
Defined.

Lemma caches_serve_live_entries_witness :
  exists e, In e (currentCache paris_s1) /\ e_key e = current_key cfg_both q_paris None /\
    e_val e = paris_r /\
    (ttl_current cfg_both = 0%Z \/ (clock paris_s1 - e_start e <= ttl_current cfg_both)%Z).
Proof.
  apply (proj1 (caches_serve_live_entries cfg_both (current_key cfg_both q_paris None) paris_s1)
           paris_r
           (snd (currentCache_get cfg_both (current_key cfg_both q_paris None) paris_s1))).
  vm_compute. reflexivity.
Defined.

Definition fc_call :=
  Eval vm_compute in getForecast cfg_both net_wa_down show_num encode q_paris None None
                       (init_state 1000 0).
Definition fc_f : Forecast :=
  Eval vm_compute in match fst fc_call with inr f => f | inl _ => no_forecast end.
Definition fc_s1 : St := Eval vm_compute in snd fc_call.

Lemma getForecast_repeat_within_ttl_witness :
  exists start,
    (fst (cache_get (ttl_forecast cfg_both) 1000 (forecast_key cfg_both q_paris None None)
            (forecastCache (init_state 1000 0))) = None ->
     start = clock fc_s1) /\
    forall t, is_stale (ttl_forecast cfg_both) t start = false ->
      getForecast cfg_both net_wa_down show_num encode q_paris None None (set_clock t fc_s1)
        = (inr fc_f, set_clock t fc_s1).
Proof.
  apply (getForecast_repeat_within_ttl cfg_both net_wa_down show_num encode q_paris None None
           (init_state 1000 0) fc_f fc_s1).
  vm_compute. reflexivity.
Defined.

Definition hc_call :=
  Eval vm_compute in getHistorical cfg_both net_up show_num encode parse q_paris "2023-11-14"
                       (init_state 1000 0).
Definition hc_h : HistoricalWeather :=
  Eval vm_compute in match fst hc_call with
                     | inr h => h
                     | inl _ => {| h_date := ""; h_current := paris_r |}
                     end.
Definition hc_s1 : St := Eval vm_compute in snd hc_call.

Lemma getHistorical_repeat_within_ttl_witness :
  exists start,
    (fst (cache_get (ttl_historical cfg_both) 1000 (historical_key q_paris "2023-11-14")
            (historicalCache (init_state 1000 0))) = None ->
     start = clock hc_s1) /\
    forall t, is_stale (ttl_historical cfg_both) t start = false ->
      getHistorical cfg_both net_up show_num encode parse q_paris "2023-11-14" (set_clock t hc_s1)
        = (inr hc_h, set_clock t hc_s1).
Proof.
  apply (getHistorical_repeat_within_ttl cfg_both net_up show_num encode parse q_paris
           "2023-11-14" (init_state 1000 0) hc_h hc_s1).
  vm_compute. reflexivity.
Defined.

Definition pf_day1 : ForecastDay :=
  Eval vm_compute in match days paris_forecast with
                     | fd :: _ => fd
                     | [] => wa_forecast_day_of {| wfd_date := ""; wfd_day := None |}
                     end.

Lemma ow_getForecast_chances_in_range_witness :
  exists r n, chanceOfRainPct pf_day1 = Some r /\ chanceOfSnowPct pf_day1 = Some n /\
    (0 <= r <= 100)%Z /\ (0 <= n <= 100)%Z.
Proof.
  apply (ow_getForecast_chances_in_range cfg_both net_wa_down show_num encode parse q_paris
           None None (init_state 1000 0) paris_forecast (snd paris_forecast_call));
    vm_compute; [reflexivity | left; reflexivity].
Defined.

Lemma removeAlert_deletes_witness :
  (true = true <-> exists l, In ("a", l) (alerts reg1)) /\
  (forall k l, In (k, l) (alerts (snd (removeAlert "a" reg1))) <->
               In (k, l) (alerts reg1) /\ k <> "a") /\
  heap (snd (removeAlert "a" reg1)) = heap reg1 /\
  fst (removeAlert "a" (snd (removeAlert "a" reg1))) = inr false.
Proof.
  apply (removeAlert_deletes "a" reg1 true (snd (removeAlert "a" reg1))).
  vm_compute. reflexivity.
Defined.

Definition reg_b := registerAlert rid hook_no_url reg1.
Definition reg_b_alert : WeatherAlert :=
  Eval vm_compute in match fst reg_b with inr w => w | inl _ => paris_alert None end.

Lemma registerAlert_fresh_then_remove_witness :
  alerts (snd reg_b) = (alerts reg1 ++ [(a_id reg_b_alert, List.length (heap reg1))])%list /\
  heap (snd reg_b) = (heap reg1 ++ [reg_b_alert])%list /\
  removeAlert (a_id reg_b_alert) (snd reg_b) = (inr true, set_alerts (alerts reg1) (snd reg_b)).
Proof.
  apply (registerAlert_fresh_then_remove rid hook_no_url reg1 reg_b_alert (snd reg_b)).
  - intros [l Hl]. vm_compute in Hl. destruct Hl as [Hl|[]]. discriminate Hl.
  - vm_compute. reflexivity.
Defined.

(** A generator that always gives the same id. *)
Definition rid_const (_ : nat) : string := "a".

Definition reg1c : St := Eval vm_compute in snd (registerAlert rid_const console_with_url (init_state 1000 0)).
Definition reg_c := registerAlert rid_const hook_no_url reg1c.
Definition reg_c_alert : WeatherAlert :=
  Eval vm_compute in match fst reg_c with inr w => w | inl _ => paris_alert None end.

Lemma registerAlert_id_collision_witness :
  map fst (alerts (snd reg_c)) = map fst (alerts reg1c) /\
  (forall k l, In (k, l) (alerts (snd reg_c)) <->
     (k = a_id reg_c_alert /\ l = List.length (heap reg1c)) \/
     (In (k, l) (alerts reg1c) /\ k <> a_id reg_c_alert)).
Proof.
  apply (registerAlert_id_collision rid_const hook_no_url reg1c reg_c_alert (snd reg_c)).
  - vm_compute. constructor; [intros [] | constructor].
  - exists 0%nat. vm_compute. now left.
  - vm_compute. reflexivity.
Defined.

Definition hook_alert : WeatherAlert :=
  {| a_id := "h"; a_name := None; a_location := q_paris;
     a_condition := {| ctype := temp_above; threshold := Some 20; daysAhead := None |};
     channel := webhook; webhookUrl := Some "https://example.org/hook"; sensitivity := None;
     createdAt := 1000; lastTriggeredAt := None |}.

Definition hook_state : St :=
  set_alerts [("h", 0%nat)] (set_heap [hook_alert] (init_state 1000 0)).

Definition hook_notify := notify net_wa_down 0 (MsgTempAbove 20 "Paris") (PCurrent paris_r) hook_state.

Lemma notify_effects_witness :
  fst hook_notify = inr tt /\ alerts (snd hook_notify) = alerts hook_state /\
  heap (snd hook_notify) = list_update 0 (stamp (clock hook_state)) (heap hook_state) /\
  requests (snd hook_notify) =
    (requests hook_state ++ [WebhookPost "https://example.org/hook" "h" (MsgTempAbove 20 "Paris")
                               (stamp 1000 hook_alert) (PCurrent paris_r)])%list /\
  (logs (snd hook_notify) = logs hook_state \/
   exists e, logs (snd hook_notify) = (logs hook_state ++ [Warn "Webhook notify failed:" e])%list).
Proof.
  apply (notify_effects net_wa_down 0 (MsgTempAbove 20 "Paris") (PCurrent paris_r) hook_state
           hook_alert (fst hook_notify) (snd hook_notify)).
  - reflexivity.
  - reflexivity.
Defined.

Lemma startAlertScheduler_idempotent_witness :
  fst (startAlertScheduler (init_state 1000 0)) = inr tt /\
  schedulerStarted (snd (startAlertScheduler (init_state 1000 0))) = true /\
  logs (snd (startAlertScheduler (init_state 1000 0))) = [Info "Alert scheduler started"] /\
  startAlertScheduler (snd (startAlertScheduler (init_state 1000 0)))
    = (inr tt, snd (startAlertScheduler (init_state 1000 0))).
Proof.
  apply (startAlertScheduler_idempotent (init_state 1000 0)
           (fst (startAlertScheduler (init_state 1000 0)))
           (snd (startAlertScheduler (init_state 1000 0)))).
  reflexivity.
Defined.

Lemma getForecast_no_provider_witness :
  getForecast cfg_none net_down show_num encode q_paris None None reg2
    = (inl (Error no_provider_msg), reg2).
Proof.
  apply (getForecast_no_provider cfg_none net_down show_num encode parse rid q_paris None None reg2);
    [reflexivity | reflexivity | apply reg2_reachable].
Defined.

Lemma pollAlerts_without_provider_witness :
  pollAlerts cfg_none net_down show_num encode parse reg2 =
    (inr tt, set_logs (logs reg2 ++
       map (fun kv => Warn ("Alert evaluation failed: " ++ fst kv) (Error no_provider_msg))
           (alerts reg2)) reg2).
Proof.
  apply (pollAlerts_without_provider cfg_none net_down show_num encode parse rid reg2);
    [reflexivity | reflexivity | apply reg2_reachable].
Defined.

Definition wa_s0 : St :=
  Eval vm_compute in snd (currentCache_get cfg_both (current_key cfg_both q_paris None)
                            (init_state 1000 0)).
Definition wa_cur_call := Eval vm_compute in wa_getCurrent net_up show_num encode parse q_paris wa_s0.
Definition wa_c : CurrentWeather :=
  Eval vm_compute in match fst wa_cur_call with inr c => c | inl _ => paris_r end.

Lemma getCurrentWeather_weatherapi_first_witness :
  getCurrentWeather cfg_both net_up show_num encode parse q_paris None (init_state 1000 0) =
    (inr wa_c, set_currentCache (cache_set cache_max (clock (snd wa_cur_call))
                                   (current_key cfg_both q_paris None) wa_c
                                   (currentCache (snd wa_cur_call))) (snd wa_cur_call)).
Proof.
  apply (getCurrentWeather_weatherapi_first cfg_both net_up show_num encode parse q_paris None
           (init_state 1000 0) wa_s0 wa_c (snd wa_cur_call)); vm_compute; reflexivity.
Defined.

Definition wf_s0 : St :=
  Eval vm_compute in snd (forecastCache_get cfg_both (forecast_key cfg_both q_paris None None)
                            (init_state 1000 0)).
Definition wa_fc_call := Eval vm_compute in wa_getForecast net_up show_num encode q_paris (Some 3%nat) wf_s0.
Definition wa_f : Forecast :=
  Eval vm_compute in match fst wa_fc_call with inr f => f | inl _ => no_forecast end.

Lemma getForecast_weatherapi_first_witness :
  getForecast cfg_both net_up show_num encode q_paris None None (init_state 1000 0) =
    (inr wa_f, set_forecastCache (cache_set cache_max (clock (snd wa_fc_call))
                                   (forecast_key cfg_both q_paris None None) wa_f
                                   (forecastCache (snd wa_fc_call))) (snd wa_fc_call)).
Proof.
  apply (getForecast_weatherapi_first cfg_both net_up show_num encode q_paris None None
           (init_state 1000 0) wf_s0 wa_f (snd wa_fc_call)); vm_compute; reflexivity.
Defined.

Definition q_paris_coords : LocationQuery :=
  {| city := Some "Paris"; country := Some "FR"; lat := Some (48857 # 1000); lon := Some (2352 # 1000) |}.
Definition q_lyon_coords : LocationQuery :=
  {| city := Some "Lyon"; country := None; lat := Some (48857 # 1000); lon := Some (2352 # 1000) |}.

Lemma adapters_ignore_city_given_coordinates_witness :
  wa_getCurrent net_up show_num encode parse q_paris_coords (init_state 1000 0) =
    wa_getCurrent net_up show_num encode parse q_lyon_coords (init_state 1000 0) /\
  wa_getForecast net_up show_num encode q_paris_coords None (init_state 1000 0) =
    wa_getForecast net_up show_num encode q_lyon_coords None (init_state 1000 0) /\
  wa_getHistorical net_up show_num encode parse q_paris_coords "2023-11-14" (init_state 1000 0) =
    wa_getHistorical net_up show_num encode parse q_lyon_coords "2023-11-14" (init_state 1000 0) /\
  ow_getCurrent cfg_both net_up show_num encode q_paris_coords None (init_state 1000 0) =
    ow_getCurrent cfg_both net_up show_num encode q_lyon_coords None (init_state 1000 0) /\
  ow_getForecast cfg_both net_up show_num encode q_paris_coords None None (init_state 1000 0) =
    ow_getForecast cfg_both net_up show_num encode q_lyon_coords None None (init_state 1000 0).
Proof.
  destruct (adapters_ignore_city_given_coordinates cfg_both net_up show_num encode parse
              q_paris_coords q_lyon_coords (48857 # 1000) (2352 # 1000)
              eq_refl eq_refl eq_refl eq_refl (init_state 1000 0)) as [A [B [C [D E]]]].
  split; [exact A|]. split; [exact (B None)|]. split; [exact (C "2023-11-14")|].
  split; [exact (D None) | exact (E None None)].
Defined.
